(** * Google-trends digestion agent: the text-normalisation core

    A shallow embedding of the row cleaner ([cleanTrendsData],
    [cleanTrendsDataArray], [convertCleanedDataToCSV]) and of the line
    parser of [evaluateTopics], with the properties of the specification
    stated and proved over it.

    JavaScript strings are sequences of UTF-16 code units; a code unit is
    modelled as an [N] and a string as a list of them, so that [length],
    indexing, [includes], [trim] and the regular expressions count and
    compare what the engine counts and compares. *)

From Stdlib Require Import List NArith Arith Bool Lia.
From Stdlib Require Ascii String.
Import ListNotations.
Import String.StringSyntax.
Delimit Scope string_scope with string.

Set Implicit Arguments.

(** ** JavaScript strings and the built-ins the cleaner calls *)

Module Js.

Definition codeUnit := N.
Definition jsstring := list codeUnit.

(** String literals of the source are written as Rocq strings (UTF-8
    bytes) and decoded to code units; one, two and three byte sequences
    cover the Basic Multilingual Plane, which holds every literal of the
    program (the middle dot U+00B7 is the only one outside ASCII). *)
Fixpoint decodeUtf8 (bs : list N) : jsstring :=
  match bs with
  | [] => []
  | b0 :: r =>
      if (b0 <? 128)%N then b0 :: decodeUtf8 r
      else if (b0 <? 224)%N then
        match r with
        | b1 :: r' => ((b0 - 192) * 64 + (b1 - 128))%N :: decodeUtf8 r'
        | [] => []
        end
      else
        match r with
        | b1 :: b2 :: r' =>
            ((b0 - 224) * 4096 + (b1 - 128) * 64 + (b2 - 128))%N :: decodeUtf8 r'
        | _ => []
        end
  end.

Definition lit (s : String.string) : jsstring :=
  decodeUtf8 (map Ascii.N_of_ascii (String.list_ascii_of_string s)).

Arguments lit s%_string.

Definition quote : codeUnit := 34%N.
Definition comma : codeUnit := 44%N.
Definition backslash : codeUnit := 92%N.
Definition percent : codeUnit := 37%N.
Definition newline : codeUnit := 10%N.
Definition semicolon : codeUnit := 59%N.
Definition middleDot : codeUnit := 183%N.

Definition eqbString (a b : jsstring) : bool :=
  if list_eq_dec N.eq_dec a b then true else false.

Definition isEmpty (s : jsstring) : bool :=
  match s with [] => true | _ :: _ => false end.

(** Truthiness of a [string | undefined] value: [undefined] and the empty
    string are falsy. *)
Definition truthy (o : option jsstring) : bool :=
  match o with
  | Some (_ :: _) => true
  | _ => false
  end.

(** [a || ''] on a [string | undefined] value. *)
Definition orEmpty (o : option jsstring) : jsstring :=
  match o with
  | Some (c :: t) => c :: t
  | _ => []
  end.

(** [if (a) { ... a ... }] and [a ? ... : ...] on a [string | undefined]
    value: the first branch runs on a string that is not empty. *)
Definition ifTruthy {X : Type} (o : option jsstring)
           (yes : jsstring -> X) (no : X) : X :=
  match o with
  | Some (c :: t) => yes (c :: t)
  | _ => no
  end.

(** [\d] *)
Definition isDigit (c : codeUnit) : bool := (48 <=? c)%N && (c <=? 57)%N.

(** [[a-zA-Z]] *)
Definition isLetter (c : codeUnit) : bool :=
  ((97 <=? c)%N && (c <=? 122)%N) || ((65 <=? c)%N && (c <=? 90)%N).

(** [\s], which is also what [trim] removes: WhiteSpace and
    LineTerminator of ECMA-262. *)
Definition isWhiteSpace (c : codeUnit) : bool :=
  ((9 <=? c)%N && (c <=? 13)%N)
  || (c =? 32)%N || (c =? 160)%N || (c =? 5760)%N
  || ((8192 <=? c)%N && (c <=? 8202)%N)
  || (c =? 8232)%N || (c =? 8233)%N || (c =? 8239)%N
  || (c =? 8287)%N || (c =? 12288)%N || (c =? 65279)%N.

Fixpoint dropWhile (p : codeUnit -> bool) (s : jsstring) : jsstring :=
  match s with
  | [] => []
  | c :: t => if p c then dropWhile p t else s
  end.

Definition dropWhileEnd (p : codeUnit -> bool) (s : jsstring) : jsstring :=
  rev (dropWhile p (rev s)).

(** [String.prototype.trim] *)
Definition trim (s : jsstring) : jsstring :=
  dropWhileEnd isWhiteSpace (dropWhile isWhiteSpace s).

Fixpoint startsWith (s needle : jsstring) {struct needle} : bool :=
  match needle, s with
  | [], _ => true
  | _ :: _, [] => false
  | n :: ns, c :: cs => (c =? n)%N && startsWith cs ns
  end.

(** [String.prototype.includes] *)
Fixpoint includes (s needle : jsstring) : bool :=
  startsWith s needle
  || match s with
     | [] => false
     | _ :: t => includes t needle
     end.

(** [String.prototype.split] with a one-character separator: the pieces
    between the separators, always at least one. *)
Fixpoint split (sep : codeUnit) (s : jsstring) : list jsstring :=
  match s with
  | [] => [[]]
  | c :: t =>
      if (c =? sep)%N then [] :: split sep t
      else match split sep t with
           | piece :: rest => (c :: piece) :: rest
           | [] => [[c]]
           end
  end.

(** [Array.prototype.join] on an array of strings. *)
Fixpoint join (sep : jsstring) (parts : list jsstring) : jsstring :=
  match parts with
  | [] => []
  | [p] => p
  | p :: rest => p ++ sep ++ join sep rest
  end.

(** [s.replace(/^Q|Q$/g, '')], with Q the double quote: the global
    replace removes a double quote at index 0, then a double quote at the
    last index of what is left to scan. *)
Definition stripLeading (c : codeUnit) (s : jsstring) : jsstring :=
  match s with
  | x :: t => if (x =? c)%N then t else s
  | [] => []
  end.

Definition stripTrailing (c : codeUnit) (s : jsstring) : jsstring :=
  rev (stripLeading c (rev s)).

Definition stripWrappingQuotes (s : jsstring) : jsstring :=
  stripTrailing quote (stripLeading quote s).

(** [s.replace(/Q/g, '')], with Q the double quote: every double quote
    is removed. *)
Definition removeQuotes (s : jsstring) : jsstring :=
  filter (fun c => negb (c =? quote)%N) s.

(** [s.replace(/^·/, '')] *)
Definition stripLeadingDot (s : jsstring) : jsstring :=
  stripLeading middleDot s.

(** [s.replace(/^·+|·+$/g, '')]: the leading run of middle dots, then the
    trailing run of what is left. *)
Definition stripDots (s : jsstring) : jsstring :=
  dropWhileEnd (fun c => (c =? middleDot)%N)
               (dropWhile (fun c => (c =? middleDot)%N) s).

(** [/\d+/.test(s)] and [/\d/.test(s)]: some code unit is a digit. *)
Definition hasDigit (s : jsstring) : bool := existsb isDigit s.

(** [/^[a-zA-Z\s]+$/.test(s)] *)
Definition lettersAndSpaces (s : jsstring) : bool :=
  negb (isEmpty s) && forallb (fun c => isLetter c || isWhiteSpace c) s.

(** A [Set<string>] keeps insertion order and ignores the [add] of a
    member. *)
Definition setAdd (x : jsstring) (set : list jsstring) : list jsstring :=
  if existsb (eqbString x) set then set else set ++ [x].

End Js.

Import Js.

(** ** Regular expressions of the cleaner

    The capturing patterns of the source have one group, at top level of
    the pattern, so a pattern is what stands before the group, the group
    and what stands after it; [exec] gives [match[1]] of
    [String.prototype.match] for a pattern without the [g] flag, or [None]
    for [null].  The matcher is the backtracking matcher of ECMA-262 in
    continuation-passing style: alternatives left to right, quantifiers
    greedy, an iteration that consumes nothing rejected once the minimum is
    reached. *)

Module RegExp.

Inductive regex : Type :=
| Eps
| Char (c : codeUnit)
| OneOf (cs : list codeUnit)
| Digit
| Space
| Seq (r1 r2 : regex)
| Alt (r1 r2 : regex)
| Quant (min : nat) (max : option nat) (r : regex).

Definition star := Quant 0 None.
Definition plus := Quant 1 None.
Definition opt := Quant 0 (Some 1).
Definition seqs (rs : list regex) : regex := fold_right Seq Eps rs.
Definition word (s : jsstring) : regex := seqs (map Char s).

Section Matcher.
(** the [i] flag *)
Variable ignoreCase : bool.
Variable A : Type.

(** Canonicalize of ECMA-262 without the [u] flag, on the code units
    that can meet an ASCII pattern character: a code unit of 128 or more
    never canonicalizes to one below 128. *)
Definition canonicalize (c : codeUnit) : codeUnit :=
  if ignoreCase && (97 <=? c)%N && (c <=? 122)%N then (c - 32)%N else c.

Definition step (p : codeUnit -> bool) (k : jsstring -> option A)
           (s : jsstring) : option A :=
  match s with
  | x :: t => if p x then k t else None
  | [] => None
  end.

(** RepeatMatcher: [m] matches one iteration and [k] what follows the
    quantifier.  Every iteration lowers [min] or consumes a character, so
    [min + length s] iterations at most can follow one another and [fuel]
    above that is never used up ([repeatK_fuel] below). *)
Fixpoint repeatK (m : (jsstring -> option A) -> jsstring -> option A)
         (k : jsstring -> option A) (fuel min : nat) (max : option nat)
         (s : jsstring) {struct fuel} : option A :=
  match fuel with
  | O => None
  | S fuel' =>
      match max with
      | Some O => k s
      | _ =>
          let max' := option_map pred max in
          match min with
          | S min' => m (repeatK m k fuel' min' max') s
          | O =>
              match m (fun s' =>
                         if length s' <? length s
                         then repeatK m k fuel' O max' s'
                         else None) s with
              | Some a => Some a
              | None => k s
              end
          end
      end
  end.

Fixpoint matchK (r : regex) (k : jsstring -> option A) (s : jsstring)
  {struct r} : option A :=
  match r with
  | Eps => k s
  | Char c => step (fun x => (canonicalize x =? canonicalize c)%N) k s
  | OneOf cs =>
      step (fun x =>
              existsb (fun c => (canonicalize x =? canonicalize c)%N) cs)
           k s
  | Digit => step isDigit k s
  | Space => step isWhiteSpace k s
  | Seq r1 r2 => matchK r1 (matchK r2 k) s
  | Alt r1 r2 =>
      match matchK r1 k s with
      | Some a => Some a
      | None => matchK r2 k s
      end
  | Quant min max r' =>
      repeatK (matchK r') k (S (min + length s)) min max s
  end.
End Matcher.

Record pattern : Type := {
  before : regex;
  group : regex;
  after : regex;
  ignoreCase : bool
}.

(** One attempt at one start position; the capture is what the group
    consumed. *)
Definition matchAt (p : pattern) (s : jsstring) : option jsstring :=
  matchK (ignoreCase p) (before p)
    (fun s1 =>
       matchK (ignoreCase p) (group p)
         (fun s2 =>
            matchK (ignoreCase p) (after p)
              (fun _ => Some (firstn (length s1 - length s2) s1)) s2) s1) s.

(** The start positions from left to right, the end of the string
    included. *)
Fixpoint exec (p : pattern) (s : jsstring) : option jsstring :=
  match matchAt p s with
  | Some c => Some c
  | None =>
      match s with
      | [] => None
      | _ :: t => exec p t
      end
  end.

End RegExp.

Import RegExp.

(** ** The record of the cleaner *)

Record CleanedTrendData : Type := {
  trendName : jsstring;
  searchVolume : jsstring;
  timeAgo : jsstring;
  growthPercentage : jsstring;
  relatedSearches : list jsstring
}.

Definition withTrendName (v : jsstring) (r : CleanedTrendData) :=
  {| trendName := v; searchVolume := searchVolume r; timeAgo := timeAgo r;
     growthPercentage := growthPercentage r;
     relatedSearches := relatedSearches r |}.

Definition withSearchVolume (v : jsstring) (r : CleanedTrendData) :=
  {| trendName := trendName r; searchVolume := v; timeAgo := timeAgo r;
     growthPercentage := growthPercentage r;
     relatedSearches := relatedSearches r |}.

Definition withTimeAgo (v : jsstring) (r : CleanedTrendData) :=
  {| trendName := trendName r; searchVolume := searchVolume r; timeAgo := v;
     growthPercentage := growthPercentage r;
     relatedSearches := relatedSearches r |}.

Definition withGrowthPercentage (v : jsstring) (r : CleanedTrendData) :=
  {| trendName := trendName r; searchVolume := searchVolume r;
     timeAgo := timeAgo r; growthPercentage := v;
     relatedSearches := relatedSearches r |}.

Definition withRelatedSearches (v : list jsstring) (r : CleanedTrendData) :=
  {| trendName := trendName r; searchVolume := searchVolume r;
     timeAgo := timeAgo r; growthPercentage := growthPercentage r;
     relatedSearches := v |}.

(** The [result] object as [cleanTrendsData] creates it. *)
Definition initialResult : CleanedTrendData :=
  {| trendName := []; searchVolume := []; timeAgo := [];
     growthPercentage := []; relatedSearches := [] |}.

(** A row as [cleanTrendsDataArray] receives it: [string | string[]]. *)
Inductive rawRow : Type :=
| Joined (blob : jsstring)
| Fragments (fragments : list jsstring).

(** ** The parts both versions of the cleaner share, text for text *)

(** [/(\d+[KM]?\+?)\s*searches?/i] *)
Definition volumePattern : pattern :=
  {| before := Eps;
     group := seqs [plus Digit; opt (OneOf (lit "KM")); opt (Char 43%N)];
     after := seqs [star Space; word (lit "searche"); opt (Char 115%N)];
     ignoreCase := true |}.

Definition extractVolume (fields : list jsstring) (result : CleanedTrendData)
  : CleanedTrendData :=
  let volumeMatch :=
    find (fun field =>
            includes field (lit "searches")
            && (includes field (lit "K+") || includes field (lit "M+")
                || hasDigit field)) fields in
  ifTruthy volumeMatch
    (fun volumeMatch =>
       withSearchVolume (match exec volumePattern volumeMatch with
                         | Some capture => capture
                         | None => []
                         end) result)
    result.

Definition noiseWords : list jsstring :=
  [lit "Search term"; lit "query_statsExplore"; lit "More actions";
   lit "Active"; lit "trending_up"; lit "checklistSelect"; lit "more_vert"].

(** The condition under which a cleaned field is added to [relatedTerms]. *)
Definition keepsField (name cleanField : jsstring) : bool :=
  (3 <? length cleanField)
  && negb (existsb (fun noise => includes cleanField noise) noiseWords)
  && negb (includes cleanField name)
  && negb (includes cleanField (lit "searches"))
  && negb (includes cleanField (lit "%"))
  && negb (includes cleanField (lit "ago"))
  && lettersAndSpaces cleanField.

Definition extractRelated (fields : list jsstring) (result : CleanedTrendData)
  : CleanedTrendData :=
  let relatedTerms :=
    fold_left
      (fun relatedTerms field =>
         let cleanField := trim (stripDots field) in
         if keepsField (trendName result) cleanField
         then setAdd cleanField relatedTerms
         else relatedTerms)
      fields [] in
  withRelatedSearches (firstn 5 relatedTerms) result.

(** The grouped-thousands percentage [\d{1,3}(?:,\d{3})*%]. *)
Definition groupedPercent : regex :=
  seqs [Quant 1 (Some 3) Digit;
        star (Seq (Char comma) (Quant 3 (Some 3) Digit));
        Char percent].

(** ** The cleaner that splits outside quotes (src/unnamed/part_000) *)

Module QuoteAware.

Record splitState : Type := {
  fields : list jsstring;
  current : jsstring;
  inQuotes : bool
}.

(** [rawData[i]] for an index inside the string. *)
Definition charAt (rawData : jsstring) (i : nat) : codeUnit := nth i rawData 0%N.

(** [current.trim().replace(/^Q|Q$/g, '')], with Q the double quote. *)
Definition fieldOf (current : jsstring) : jsstring :=
  stripWrappingQuotes (trim current).

(** One turn of the [for] loop over the indices of [rawData]. *)
Definition splitStep (rawData : jsstring) (st : splitState) (i : nat)
  : splitState :=
  let char := charAt rawData i in
  if (char =? quote)%N
     && ((i =? 0) || negb (charAt rawData (i - 1) =? backslash)%N)
  then {| fields := fields st;
          current := current st ++ [char];
          inQuotes := negb (inQuotes st) |}
  else if (char =? comma)%N && negb (inQuotes st)
  then {| fields := fields st ++ [fieldOf (current st)];
          current := [];
          inQuotes := inQuotes st |}
  else {| fields := fields st;
          current := current st ++ [char];
          inQuotes := inQuotes st |}.

Definition splitLoop (rawData : jsstring) (n : nat) : splitState :=
  fold_left (splitStep rawData) (seq 0 n)
            {| fields := []; current := []; inQuotes := false |}.

Definition splitFields (rawData : jsstring) : list jsstring :=
  let st := splitLoop rawData (length rawData) in
  if isEmpty (current st) then fields st
  else fields st ++ [fieldOf (current st)].

(** [/(\d+\s*(?:hours?|h|minutes?|m)\s*ago)/i] *)
Definition timePattern : pattern :=
  {| before := Eps;
     group :=
       seqs [plus Digit; star Space;
             Alt (Seq (word (lit "hour")) (opt (Char 115%N)))
                 (Alt (Char 104%N)
                      (Alt (Seq (word (lit "minute")) (opt (Char 115%N)))
                           (Char 109%N)));
             star Space; word (lit "ago")];
     after := Eps;
     ignoreCase := true |}.

Definition extractTime (fields : list jsstring) (result : CleanedTrendData)
  : CleanedTrendData :=
  let timeMatch :=
    find (fun field =>
            includes field (lit "ago") || includes field (lit "hours ago")
            || includes field (lit "h ago") || includes field (lit "m ago"))
         fields in
  ifTruthy timeMatch
    (fun timeMatch =>
       withTimeAgo (match exec timePattern timeMatch with
                    | Some capture => capture
                    | None => trim (stripLeadingDot timeMatch)
                    end) result)
    result.

(** [/(\d{1,3}(?:,\d{3})*%)/] *)
Definition percentagePattern : pattern :=
  {| before := Eps; group := groupedPercent; after := Eps;
     ignoreCase := false |}.

(** [/arrow_upward(\d{1,3}(?:,\d{3})*%)/] *)
Definition arrowPattern : pattern :=
  {| before := word (lit "arrow_upward"); group := groupedPercent;
     after := Eps; ignoreCase := false |}.

(** [/(\d+(?:,\d+)*%)/] *)
Definition anyDigitsPattern : pattern :=
  {| before := Eps;
     group := seqs [plus Digit; star (Seq (Char comma) (plus Digit));
                    Char percent];
     after := Eps; ignoreCase := false |}.

(** [if (!match) { match = ... }] *)
Definition orTry (m : option jsstring) (next : option jsstring)
  : option jsstring :=
  match m with
  | Some c => Some c
  | None => next
  end.

Definition extractGrowth (rawData : jsstring) (fields : list jsstring)
           (result : CleanedTrendData) : CleanedTrendData :=
  match exec percentagePattern rawData with
  | Some capture => withGrowthPercentage capture result
  | None =>
      let growthMatch :=
        find (fun field => includes field (lit "%") && hasDigit field)
             fields in
      ifTruthy growthMatch
        (fun growthMatch =>
           let m := exec arrowPattern growthMatch in
           let m := orTry m (exec percentagePattern growthMatch) in
           let m := orTry m (exec anyDigitsPattern growthMatch) in
           withGrowthPercentage (match m with
                                 | Some capture => capture
                                 | None => []
                                 end) result)
        result
  end.

Definition cleanTrendsData (rawData : jsstring) : CleanedTrendData :=
  let fields := splitFields rawData in
  let result := initialResult in
  let result := withTrendName (orEmpty (nth_error fields 0)) result in
  let result := extractVolume fields result in
  let result := extractTime fields result in
  let result := extractGrowth rawData fields result in
  extractRelated fields result.

Definition cleanTrendsDataArray (rawDataArray : list rawRow)
  : list CleanedTrendData :=
  map (fun row =>
         match row with
         | Fragments row => cleanTrendsData (join [comma] row)
         | Joined row => cleanTrendsData row
         end) rawDataArray.

End QuoteAware.

(** ** The cleaner that splits on every comma (src/src/cleaner.tsx) *)

Module Simple.

Definition splitFields (rawData : jsstring) : list jsstring :=
  map (fun field => trim (removeQuotes field)) (split comma rawData).

(** [/(\d+\s*(?:hours?|h)\s*ago)/i] *)
Definition timePattern : pattern :=
  {| before := Eps;
     group :=
       seqs [plus Digit; star Space;
             Alt (Seq (word (lit "hour")) (opt (Char 115%N))) (Char 104%N);
             star Space; word (lit "ago")];
     after := Eps;
     ignoreCase := true |}.

Definition extractTime (fields : list jsstring) (result : CleanedTrendData)
  : CleanedTrendData :=
  let timeMatch :=
    find (fun field =>
            includes field (lit "ago") || includes field (lit "hours ago")
            || includes field (lit "h ago"))
         fields in
  ifTruthy timeMatch
    (fun timeMatch =>
       withTimeAgo (match exec timePattern timeMatch with
                    | Some capture => capture
                    | None => trim (stripLeadingDot timeMatch)
                    end) result)
    result.

(** [/(\d+,?\d*%)/] *)
Definition growthPattern : pattern :=
  {| before := Eps;
     group := seqs [plus Digit; opt (Char comma); star Digit; Char percent];
     after := Eps; ignoreCase := false |}.

Definition extractGrowth (fields : list jsstring) (result : CleanedTrendData)
  : CleanedTrendData :=
  let growthMatch :=
    find (fun field =>
            includes field (lit "%")
            && (includes field (lit "arrow_upward") || hasDigit field))
         fields in
  ifTruthy growthMatch
    (fun growthMatch =>
       withGrowthPercentage (match exec growthPattern growthMatch with
                             | Some capture => capture
                             | None => []
                             end) result)
    result.

Definition cleanTrendsData (rawData : jsstring) : CleanedTrendData :=
  let fields := splitFields rawData in
  let result := initialResult in
  let result := withTrendName (orEmpty (nth_error fields 0)) result in
  let result := extractVolume fields result in
  let result := extractTime fields result in
  let result := extractGrowth fields result in
  extractRelated fields result.

Definition cleanTrendsDataArray (rawDataArray : list rawRow)
  : list CleanedTrendData :=
  map (fun row =>
         match row with
         | Fragments row => cleanTrendsData (join [comma] row)
         | Joined row => cleanTrendsData row
         end) rawDataArray.

End Simple.

(** ** The serializer (the same text in both versions) *)

(** The template literal that wraps a value in double quotes. *)
Definition quoted (s : jsstring) : jsstring := quote :: s ++ [quote].

Definition headers : list jsstring :=
  [lit "Trend Name"; lit "Search Volume"; lit "Time Ago"; lit "Growth %";
   lit "Related Searches"].

Definition csvRow (item : CleanedTrendData) : list jsstring :=
  [quoted (trendName item); quoted (searchVolume item);
   quoted (timeAgo item); quoted (growthPercentage item);
   quoted (join (lit "; ") (relatedSearches item))].

Definition convertCleanedDataToCSV (cleanedDataArray : list CleanedTrendData)
  : jsstring :=
  let csv := join [comma] headers ++ [newline] in
  fold_left (fun csv item => csv ++ join [comma] (csvRow item) ++ [newline])
            cleanedDataArray csv.

(** ** The line parser of [evaluateTopics] (src/src/evaluator.tsx)

    [parseLine] is the body of the loop over the lines up to the
    construction of [trendData] ([None] for [continue]), and
    [evaluateTopics] gives, in order, the [trendData] objects the loop
    hands to [evaluateTrend]. *)

Definition parseLine (line : jsstring) : option CleanedTrendData :=
  let parts :=
    map (fun field => trim (stripWrappingQuotes field)) (split comma line) in
  let name := nth_error parts 0 in
  let volume := nth_error parts 1 in
  let timeAgo := nth_error parts 2 in
  let growth := nth_error parts 3 in
  let relatedSearches := nth_error parts 4 in
  if negb (truthy name) then None
  else Some {| trendName := orEmpty name;
               searchVolume := orEmpty volume;
               timeAgo := orEmpty timeAgo;
               growthPercentage := orEmpty growth;
               relatedSearches :=
                 ifTruthy relatedSearches
                   (fun relatedSearches =>
                      map trim (split semicolon relatedSearches))
                   [] |}.

Definition evaluateTopics (csvContent : jsstring) : list CleanedTrendData :=
  let lines :=
    filter (fun line => negb (isEmpty (trim line)))
           (skipn 1 (split newline csvContent)) in
  fold_left
    (fun trends line =>
       match parseLine line with
       | None => trends
       | Some trendData => trends ++ [trendData]
       end)
    lines [].

(** ** Scenario A of the specification *)

Definition scenarioA : jsstring :=
  join [comma]
    (map quoted
       [lit "brett james";
        lit "200K+ searches·trending_upActive·20h ago";
        lit "200K+arrow_upward1,000%";
        lit "brett james plane crash";
        lit "Search term"]).

(** ** The example of the source

    [rawData] of the example usage that closes src/unnamed/part_000; the
    comment after it gives the output as trendName 'brett james',
    searchVolume '200K+', timeAgo '20h ago', growthPercentage '1,000%' and
    relatedSearches ['plane crash', 'songs']. *)

Definition exampleRawData : jsstring :=
  join [comma]
    (map quoted
       [lit "brett james";
        lit "200K+ searches·trending_upActive·20h ago";
        lit "200K+ searches·";
        lit "200K+ searches";
        lit "·";
        lit "trending_upActive";
        lit "Active";
        lit "·20h ago";
        lit "·";
        lit "20h ago";
        lit "200K+arrow_upward1,000%";
        lit "200K+";
        lit "arrow_upward1,000%";
        lit "1,000%";
        lit "20 hours ago";
        lit "trending_upActive";
        lit "trending_upActive";
        lit "Active";
        (lit "brett james plane crashbrett james plane crashSear"
          ++ lit "ch termquery_statsExplorebrett james songsbrett ja"
          ++ lit "mes songsSearch termquery_statsExplore+ 9 more");
        (lit "brett james plane crashbrett james plane crashSear"
          ++ lit "ch termquery_statsExplore");
        (lit "brett james plane crashbrett james plane crashSear"
          ++ lit "ch termquery_statsExplore");
        lit "brett james plane crashSearch termquery_statsExplore";
        lit "brett james plane crashSearch termquery_statsExplore";
        lit "brett james plane crashSearch termquery_statsExplore";
        lit "brett james plane crashSearch termquery_statsExplore";
        lit "brett james plane crashSearch termquery_statsExplore";
        lit "brett james plane crashSearch term";
        lit "brett james plane crashSearch term";
        lit "brett james plane crash";
        lit "Search term";
        lit "query_statsExplore";
        lit "query_statsExplore";
        lit "query_statsExplore";
        lit "query_statsExplore";
        (lit "brett james songsbrett james songsSearch termquery"
          ++ lit "_statsExplore");
        (lit "brett james songsbrett james songsSearch termquery"
          ++ lit "_statsExplore");
        lit "brett james songsSearch termquery_statsExplore";
        lit "brett james songsSearch termquery_statsExplore";
        lit "brett james songsSearch termquery_statsExplore";
        lit "brett james songsSearch termquery_statsExplore";
        lit "brett james songsSearch termquery_statsExplore";
        lit "brett james songsSearch term";
        lit "brett james songsSearch term";
        lit "brett james songs";
        lit "Search term";
        lit "query_statsExplore";
        lit "query_statsExplore";
        lit "query_statsExplore";
        lit "query_statsExplore";
        (lit "more_vertMore actionschecklistSelectquery_statsExp"
          ++ lit "loreSearch it");
        lit "more_vertMore actions";
        lit "More actions";
        lit "checklistSelectquery_statsExploreSearch it";
        lit "checklistSelectquery_statsExploreSearch it";
        lit "checklistSelectquery_statsExploreSearch it"]).

Definition documentedOutput : CleanedTrendData :=
  {| trendName := lit "brett james";
     searchVolume := lit "200K+";
     timeAgo := lit "20h ago";
     growthPercentage := lit "1,000%";
     relatedSearches := [lit "plane crash"; lit "songs"] |}.

(** ** The specification's wording, to compare the code with *)

Module Spec.

Import QuoteAware.

(** *** Field splitter (4.1, quote-aware mode)

    A double quote is unescaped when it is the first character or the
    character before it is not a backslash; a position is inside quotes
    when an odd number of unescaped double quotes stand before it; the
    blob splits at the commas that are not inside quotes. *)

Definition unescapedQuoteAt (rawData : jsstring) (j : nat) : bool :=
  (charAt rawData j =? quote)%N
  && ((j =? 0) || negb (charAt rawData (j - 1) =? backslash)%N).

Definition insideQuotes (rawData : jsstring) (i : nat) : bool :=
  Nat.odd (length (filter (unescapedQuoteAt rawData) (seq 0 i))).

Definition splitsAt (rawData : jsstring) (i : nat) : bool :=
  (charAt rawData i =? comma)%N && negb (insideQuotes rawData i).

Definition delimitersBefore (rawData : jsstring) (n : nat) : list nat :=
  filter (splitsAt rawData) (seq 0 n).

Definition delimiters (rawData : jsstring) : list nat :=
  delimitersBefore rawData (length rawData).

(** [rawData.slice(a, b)] *)
Definition slice (rawData : jsstring) (a b : nat) : jsstring :=
  firstn (b - a) (skipn a rawData).

(** The text between one delimiter and the next, for every delimiter. *)
Fixpoint closedSegments (rawData : jsstring) (start : nat)
         (delims : list nat) : list jsstring :=
  match delims with
  | [] => []
  | d :: ds => slice rawData start d :: closedSegments rawData (S d) ds
  end.

(** Where the text after the last delimiter starts. *)
Definition tailStart (start : nat) (delims : list nat) : nat :=
  fold_left (fun _ d => S d) delims start.

(** The text after the last delimiter. *)
Definition trailing (rawData : jsstring) : jsstring :=
  slice rawData (tailStart 0 (delimiters rawData)) (length rawData).

Definition splitFields (rawData : jsstring) : list jsstring :=
  map fieldOf (closedSegments rawData 0 (delimiters rawData))
  ++ (if isEmpty (trailing rawData) then []
      else [fieldOf (trailing rawData)]).

(** *** Elapsed time (4.2) *)

Definition elapsedTime (fields : list jsstring) : jsstring :=
  match find (fun field => includes field (lit "ago")) fields with
  | None => []
  | Some field =>
      match exec timePattern field with
      | Some capture => capture
      | None => trim (stripLeadingDot field)
      end
  end.

(** *** Growth percentage (4.2) *)

Fixpoint firstCapture (attempts : list pattern) (s : jsstring)
  : option jsstring :=
  match attempts with
  | [] => None
  | p :: rest =>
      match exec p s with
      | Some capture => Some capture
      | None => firstCapture rest s
      end
  end.

Definition growth (rawData : jsstring) (fields : list jsstring)
  : jsstring :=
  match exec percentagePattern rawData with
  | Some capture => capture
  | None =>
      match find (fun field => includes field (lit "%") && hasDigit field)
                 fields with
      | None => []
      | Some field =>
          match firstCapture [arrowPattern; percentagePattern;
                              anyDigitsPattern] field with
          | Some capture => capture
          | None => []
          end
      end
  end.

(** *** Serializer (4.4) *)

Definition headerLine : jsstring :=
  lit "Trend Name,Search Volume,Time Ago,Growth %,Related Searches".

Definition recordLine (r : CleanedTrendData) : jsstring :=
  quoted (trendName r) ++ [comma]
  ++ quoted (searchVolume r) ++ [comma]
  ++ quoted (timeAgo r) ++ [comma]
  ++ quoted (growthPercentage r) ++ [comma]
  ++ quoted (join (lit "; ") (relatedSearches r)).

Definition table (records : list CleanedTrendData) : jsstring :=
  headerLine ++ [newline]
  ++ concat (map (fun r => recordLine r ++ [newline]) records).

(** *** Round trip through the file (8) *)

Definition coreFields (r : CleanedTrendData)
  : jsstring * jsstring * jsstring * jsstring :=
  (trendName r, searchVolume r, timeAgo r, growthPercentage r).

Definition roundTrips (records : list CleanedTrendData) : Prop :=
  map coreFields (evaluateTopics (convertCleanedDataToCSV records))
  = map coreFields records.

(** A value the line parser gives back as it was: no comma, no line feed,
    no white space at either end. *)
Definition plainValue (v : jsstring) : bool :=
  negb (existsb (N.eqb comma) v)
  && negb (existsb (N.eqb newline) v)
  && eqbString (trim v) v.

Definition plainRecord (r : CleanedTrendData) : bool :=
  negb (isEmpty (trendName r))
  && plainValue (trendName r)
  && plainValue (searchVolume r)
  && plainValue (timeAgo r)
  && plainValue (growthPercentage r)
  && forallb (fun term => negb (existsb (N.eqb newline) term))
             (relatedSearches r).

End Spec.

(** ** Concrete rows and helpers of the proofs *)

(** Scenario C: a batch of three rows, the second an empty fragment
    list. *)
Definition scenarioC : list rawRow :=
  [Joined scenarioA; Fragments [];
   Fragments [lit "brett james"; lit "plane crash"]].

(** A row of two fields, the second a related search. *)
Definition twoFields : jsstring :=
  join [comma] (map quoted [lit "brett james"; lit "plane crash"]).

(** A row whose first field is empty. *)
Definition noName : jsstring := lit ",plane crash".

(** A record whose values hold no comma. *)
Definition plainExample : CleanedTrendData :=
  {| trendName := lit "brett james";
     searchVolume := lit "200K+";
     timeAgo := lit "20h ago";
     growthPercentage := lit "900%";
     relatedSearches := [lit "plane crash"; lit "songs"] |}.

(** A record whose growth percentage holds a comma: what the cleaner
    returns on Scenario A. *)
Definition groupedExample : CleanedTrendData :=
  {| trendName := lit "brett james";
     searchVolume := lit "200K+";
     timeAgo := lit "20h ago";
     growthPercentage := lit "1,000%";
     relatedSearches := [] |}.

(** The loop that fills [relatedTerms], from any set. *)
Definition relatedTermsOf (name : jsstring) (fields set : list jsstring) :=
  fold_left
    (fun relatedTerms field =>
       let cleanField := trim (stripDots field) in
       if keepsField name cleanField
       then setAdd cleanField relatedTerms
       else relatedTerms)
    fields set.

(** What one line adds to the parsed trends. *)
Definition parsedOf (line : jsstring) : list CleanedTrendData :=
  match parseLine line with
  | None => []
  | Some trendData => [trendData]
  end.

(** ** What a pattern can match

    The words a regular expression matches, as a predicate, to state what
    a capture looks like. *)

Module Lang.

Section Words.
(** the [i] flag *)
Variable ignoreCase : bool.

(** How many iterations a quantifier can make: at least [min] unless
    [max] stops it before, and never more than [max]. *)
Definition iterations (min : nat) (max : option nat) (n : nat) : Prop :=
  match max with
  | None => min <= n
  | Some top => n <= top /\ (min <= n \/ n = top)
  end.

Fixpoint lang (r : regex) (w : jsstring) {struct r} : Prop :=
  match r with
  | Eps => w = []
  | Char c =>
      exists x, w = [x]
                /\ (canonicalize ignoreCase x =? canonicalize ignoreCase c)%N
                   = true
  | OneOf cs =>
      exists x, w = [x]
                /\ existsb (fun c => (canonicalize ignoreCase x
                                      =? canonicalize ignoreCase c)%N) cs
                   = true
  | Digit => exists x, w = [x] /\ isDigit x = true
  | Space => exists x, w = [x] /\ isWhiteSpace x = true
  | Seq r1 r2 => exists w1 w2, w = w1 ++ w2 /\ lang r1 w1 /\ lang r2 w2
  | Alt r1 r2 => lang r1 w \/ lang r2 w
  | Quant min max r' =>
      exists ws, w = concat ws /\ Forall (lang r') ws
                 /\ iterations min max (length ws)
  end.

(** The code units a word of the expression can hold. *)
Fixpoint mayHold (r : regex) (x : codeUnit) {struct r} : bool :=
  match r with
  | Eps => false
  | Char c => (canonicalize ignoreCase x =? canonicalize ignoreCase c)%N
  | OneOf cs =>
      existsb (fun c => (canonicalize ignoreCase x
                         =? canonicalize ignoreCase c)%N) cs
  | Digit => isDigit x
  | Space => isWhiteSpace x
  | Seq r1 r2 => mayHold r1 x || mayHold r2 x
  | Alt r1 r2 => mayHold r1 x || mayHold r2 x
  | Quant _ _ r' => mayHold r' x
  end.
End Words.

End Lang.

(** ** Shapes of the extracted values, to state what the cleaner returns *)

(** A digit as last character. *)
Definition endsWithDigit (w : jsstring) : Prop :=
  exists u d, w = u ++ [d] /\ isDigit d = true.

(** A digit, then digits and commas, then a percent sign. *)
Definition percentageShaped (c : jsstring) : Prop :=
  exists d middle,
    c = d :: middle ++ [percent]
    /\ isDigit d = true
    /\ Forall (fun x => isDigit x = true \/ x = comma) middle.

(** A digit right before a percent sign somewhere in the string. *)
Definition hasDigitPercent (s : jsstring) : Prop :=
  exists pre d post, s = pre ++ d :: percent :: post /\ isDigit d = true.

(** Digits, then at most one of K and M in either case, then at most one
    plus sign. *)
Definition volumeShaped (v : jsstring) : Prop :=
  exists digits unit sign,
    v = digits ++ unit ++ sign
    /\ digits <> []
    /\ Forall (fun x => isDigit x = true) digits
    /\ In unit [[]; lit "K"; lit "M"; lit "k"; lit "m"]
    /\ In sign [[]; lit "+"].

(** The elements of a list in the order they are first seen, each once. *)
Fixpoint firstSeen (l : list jsstring) : list jsstring :=
  match l with
  | [] => []
  | x :: t => x :: filter (fun y => negb (eqbString y x)) (firstSeen t)
  end.

(** The field as the related-searches loop looks at it. *)
Definition cleanedField (field : jsstring) : jsstring :=
  trim (stripDots field).

(** The pieces of a split without the last one when it is empty. *)
Definition withoutEmptyTail (pieces : list jsstring) : list jsstring :=
  if isEmpty (last pieces []) then removelast pieces else pieces.

(** A related search the line parser gives back as it was: not empty, no
    comma, no semicolon, no line feed, no white space at either end. *)
Definition plainTerm (term : jsstring) : bool :=
  negb (isEmpty term)
  && negb (existsb (N.eqb comma) term)
  && negb (existsb (N.eqb semicolon) term)
  && negb (existsb (N.eqb newline) term)
  && eqbString (trim term) term.

(** ** The best match of [getFinalClassification] (src/src/evaluator.tsx)

    The relevance of an evaluation is a JavaScript number; the choice of
    the best match only compares relevances with [>], so the numbers and
    that comparison are parameters here. *)

Module Evaluator.

Section Numbers.
Variable number : Type.
(** [a > b] *)
Variable gtb : number -> number -> bool.

Record DomainEvaluation : Type := {
  domain : jsstring;
  relevance : number;
  reasoning : jsstring;
  isMatch : bool
}.

(** [evaluations.reduce((best, current) => current.relevance >
    best.relevance ? current : best)]; [reduce] without an initial value
    throws a TypeError on an empty array, which is [None] here. *)
Definition bestMatch (evaluations : list DomainEvaluation)
  : option DomainEvaluation :=
  match evaluations with
  | [] => None
  | first :: rest =>
      Some (fold_left
              (fun best current =>
                 if gtb (relevance current) (relevance best)
                 then current else best)
              rest first)
  end.

End Numbers.

End Evaluator.

(** ** The writer of the raw rows (src/src/scraper.tsx, second version) *)

Module Scraper.

(** [field.replace(/Q/g, 'QQ')], with Q the double quote. *)
Definition escapeQuotes (field : jsstring) : jsstring :=
  flat_map (fun c => if (c =? quote)%N then [quote; quote] else [c]) field.

(** [row.map(field => ...).join(',')] *)
Definition csvLine (row : list jsstring) : jsstring :=
  join [comma] (map (fun field => quoted (escapeQuotes field)) row).

(** [String(n)] for a natural number: its decimal digits.  [fuel] bounds
    the number of digits and [decimal] gives enough of it. *)
Fixpoint decimalFuel (fuel n : nat) : jsstring :=
  match fuel with
  | O => []
  | S fuel' =>
      if n <? 10 then [N.of_nat (48 + n)]
      else decimalFuel fuel' (n / 10) ++ [N.of_nat (48 + n mod 10)]
  end.

Definition decimal (n : nat) : jsstring := decimalFuel (S n) n.

(** [s.padStart(2, '0')] *)
Definition padStart2 (s : jsstring) : jsstring :=
  repeat 48%N (2 - length s) ++ s.

Definition pad2 (n : nat) : jsstring := padStart2 (decimal n).

(** The name of the file, from what the getters of [Date] return
    ([month] is [getMonth()], which counts from 0); the same text in both
    versions of the scraper. *)
Definition filename (year month day hours minutes seconds : nat)
  : jsstring :=
  let timestamp :=
    decimal year ++ lit "-" ++ pad2 (month + 1) ++ lit "-" ++ pad2 day
    ++ lit "_" ++ pad2 hours ++ lit "-" ++ pad2 minutes ++ lit "-"
    ++ pad2 seconds in
  lit "trending_topics_" ++ timestamp ++ lit ".csv".

End Scraper.

(** Reading a line of the raw writer back, to show that it loses
    nothing: [readField] runs inside a field, after its opening quote. *)
Fixpoint readField (acc : jsstring) (s : jsstring) {struct s}
  : list jsstring :=
  match s with
  | [] => [acc]
  | c :: rest =>
      if (c =? quote)%N then
        match rest with
        | [] => [acc]
        | d :: rest' =>
            if (d =? quote)%N then readField (acc ++ [quote]) rest'
            else
              match rest' with
              | [] => [acc]
              | _ :: rest'' => acc :: readField [] rest''
              end
        end
      else readField (acc ++ [c]) rest
  end.

Definition readLine (s : jsstring) : list jsstring :=
  match s with
  | [] => []
  | _ :: rest => readField [] rest
  end.

(** Two records that differ and are written as the same line. *)
Definition splitCell : CleanedTrendData :=
  {| trendName := lit "x" ++ [quote; comma; quote] ++ lit "y";
     searchVolume := []; timeAgo := []; growthPercentage := [];
     relatedSearches := [] |}.

Definition twoCells : CleanedTrendData :=
  {| trendName := lit "x"; searchVolume := lit "y"; timeAgo := [];
     growthPercentage := []; relatedSearches := [[quote; comma; quote]] |}.

(** The number a string of decimal digits stands for. *)
Definition digitsValue (digits : jsstring) : nat :=
  fold_left (fun acc d => 10 * acc + (N.to_nat d - 48)) digits 0.

(** A matcher whose every success consumes a word of [L] and hands the
    rest to its continuation. *)
Definition soundFor (A : Type) (L : jsstring -> Prop)
           (m : (jsstring -> option A) -> jsstring -> option A) : Prop :=
  forall k s a,
    m k s = Some a -> exists w s', s = w ++ s' /\ L w /\ k s' = Some a.

(** Rows and dates to apply the theorems to. *)
Definition plainRow : list jsstring :=
  [lit "brett james"; lit "plane crash"].

Definition threeEvaluations : list (Evaluator.DomainEvaluation N) :=
  [ {| Evaluator.domain := lit "Sports"; Evaluator.relevance := 3%N;
       Evaluator.reasoning := []; Evaluator.isMatch := false |};
    {| Evaluator.domain := lit "Technology & AI";
       Evaluator.relevance := 8%N;
       Evaluator.reasoning := []; Evaluator.isMatch := true |};
    {| Evaluator.domain := lit "Music"; Evaluator.relevance := 8%N;
       Evaluator.reasoning := []; Evaluator.isMatch := true |} ].

(** One to three digits, then groups of a comma and three digits, then a
    percent sign. *)
Definition groupedShaped (c : jsstring) : Prop :=
  exists head groups,
    c = head ++ concat (map (fun g => comma :: g) groups) ++ [percent]
    /\ 1 <= length head <= 3
    /\ Forall (fun x => isDigit x = true) head
    /\ Forall (fun g => length g = 3 /\ Forall (fun x => isDigit x = true) g)
              groups.

(** ** The rules of the specification in words of their own

    The splitter's clean-up, the elapsed-time rule and the growth rule
    are stated here with lists, their concatenation and the code units
    themselves: no [trim], no replace, no [includes], no [find] and no
    matcher stand in these definitions, so that a theorem stated with
    them says what those have to do. *)

Module Wording.

(** The digits [0] to [9]. *)
Definition digit (x : codeUnit) : Prop := (48 <= x <= 57)%N.

(** WhiteSpace and LineTerminator of ECMA-262: tab, line feed, vertical
    tab, form feed, carriage return, space, no-break space, the space
    separators of Unicode, line and paragraph separator, and the byte
    order mark. *)
Definition whiteSpaceCodes : list codeUnit :=
  [9; 10; 11; 12; 13; 32; 160; 5760; 8192; 8193; 8194; 8195; 8196; 8197;
   8198; 8199; 8200; 8201; 8202; 8232; 8233; 8239; 8287; 12288; 65279]%N.

Definition whiteSpace (x : codeUnit) : Prop := In x whiteSpaceCodes.

(** [needle] stands somewhere in [s]. *)
Definition contains (s needle : jsstring) : Prop :=
  exists pre post, s = pre ++ needle ++ post.

(** [x] is the first element of [l] that has the property. *)
Definition firstWith (P : jsstring -> Prop) (l : list jsstring)
           (x : jsstring) : Prop :=
  exists earlier later,
    l = earlier ++ x :: later /\ P x /\ Forall (fun y => ~ P y) earlier.

Definition noneWith (P : jsstring -> Prop) (l : list jsstring) : Prop :=
  Forall (fun y => ~ P y) l.

(** *** Cleaning a segment up *)

(** No white space at either end. *)
Definition edgesFree (t : jsstring) : Prop :=
  (forall x rest, t = x :: rest -> ~ whiteSpace x)
  /\ (forall front x, t = front ++ [x] -> ~ whiteSpace x).

(** [t] is [s] without the white space at its two ends. *)
Definition trimmed (s t : jsstring) : Prop :=
  exists left right,
    s = left ++ t ++ right
    /\ Forall whiteSpace left /\ Forall whiteSpace right /\ edgesFree t.

(** [t] is [s] without one [c] at its start, when [s] starts with one. *)
Definition withoutLeading (c : codeUnit) (s t : jsstring) : Prop :=
  s = c :: t \/ (t = s /\ forall rest, s <> c :: rest).

(** [t] is [s] without one [c] at its end, when [s] ends with one. *)
Definition withoutTrailing (c : codeUnit) (s t : jsstring) : Prop :=
  s = t ++ [c] \/ (t = s /\ forall front, s <> front ++ [c]).

(** What the splitter makes of a segment: the white space at the two
    ends goes, then a double quote at the start when there is one, then a
    double quote at the end of what is left when there is one. *)
Definition cleanedUp (segment field : jsstring) : Prop :=
  exists t u,
    trimmed segment t
    /\ withoutLeading quote t u
    /\ withoutTrailing quote u field.

(** The clean-up with a pair of double quotes only: the trimmed segment
    loses its first and its last character when both are double quotes,
    and is left as it is otherwise. *)
Definition withoutPair (t field : jsstring) : Prop :=
  t = [quote] ++ field ++ [quote]
  \/ (field = t /\ forall inner, t <> [quote] ++ inner ++ [quote]).

Definition cleanedOfPair (segment field : jsstring) : Prop :=
  exists t, trimmed segment t /\ withoutPair t field.

(** *** Finding a capture

    A pattern of the cleaner is a text [B] before its group and the words
    [L] of its group.  A match stands in [s] after [pre] with capture
    [c]; the capture a search stores is one of the leftmost match. *)

Definition nothing (b : jsstring) : Prop := b = [].

Definition exactly (text b : jsstring) : Prop := b = text.

Definition occurs (B L : jsstring -> Prop) (s pre c : jsstring) : Prop :=
  exists b post, s = pre ++ b ++ c ++ post /\ B b /\ L c.

Definition firstMatch (B L : jsstring -> Prop) (s c : jsstring) : Prop :=
  exists pre,
    occurs B L s pre c
    /\ forall pre' c', occurs B L s pre' c' -> length pre <= length pre'.

Definition noMatch (B L : jsstring -> Prop) (s : jsstring) : Prop :=
  forall pre c, ~ occurs B L s pre c.

(** *** The words of the groups *)

(** One or more digits. *)
Definition digits (w : jsstring) : Prop := w <> [] /\ Forall digit w.

(** [\d{1,3}(?:,\d{3})*%]: one to three digits, groups of a comma and
    three digits, a percent sign. *)
Definition grouped (c : jsstring) : Prop :=
  exists head groups,
    c = head ++ concat (map (fun g => comma :: g) groups) ++ [percent]
    /\ 1 <= length head <= 3
    /\ Forall digit head
    /\ Forall (fun g => length g = 3 /\ Forall digit g) groups.

(** [\d+(?:,\d+)*%]: digits, groups of a comma and digits, a percent
    sign. *)
Definition loose (c : jsstring) : Prop :=
  exists head groups,
    c = head ++ concat (map (fun g => comma :: g) groups) ++ [percent]
    /\ digits head
    /\ Forall digits groups.

(** [text] is the lower-case [word] with any of its letters in upper
    case. *)
Definition anyCase (word text : jsstring) : Prop :=
  Forall2 (fun w x => x = w \/ (x + 32)%N = w) word text.

(** [\d+\s*(?:unit)\s*ago] with the [i] flag: digits, white space or
    none, a unit, white space or none, [ago]. *)
Definition elapsed (units : list jsstring) (c : jsstring) : Prop :=
  exists number gap unit gap' ago u,
    c = number ++ gap ++ unit ++ gap' ++ ago
    /\ digits number
    /\ Forall whiteSpace gap
    /\ In u units /\ anyCase u unit
    /\ Forall whiteSpace gap'
    /\ anyCase (lit "ago") ago.

(** [hours?|h|minutes?|m] *)
Definition hoursAndMinutes : list jsstring :=
  [lit "hour"; lit "hours"; lit "h"; lit "minute"; lit "minutes"; lit "m"].

(** [hours?|h] *)
Definition hoursOnly : list jsstring := [lit "hour"; lit "hours"; lit "h"].

(** *** Elapsed time

    [value] comes from the first field that contains [ago]: the capture
    of the pattern when the field matches it, otherwise the field without
    a leading middle dot and trimmed; it is empty when no field contains
    [ago]. *)
Definition elapsedTime (units : list jsstring) (fields : list jsstring)
           (value : jsstring) : Prop :=
  (noneWith (fun field => contains field (lit "ago")) fields /\ value = [])
  \/ exists field,
      firstWith (fun field => contains field (lit "ago")) fields field
      /\ (firstMatch nothing (elapsed units) field value
          \/ (noMatch nothing (elapsed units) field
              /\ exists rest,
                  withoutLeading middleDot field rest
                  /\ trimmed rest value)).

(** *** Growth percentage *)

(** A field that contains a percent sign and a digit. *)
Definition percentField (field : jsstring) : Prop :=
  In percent field /\ Exists digit field.

(** The three attempts on the field found, in their order. *)
Definition fieldGrowth (field value : jsstring) : Prop :=
  firstMatch (exactly (lit "arrow_upward")) grouped field value
  \/ (noMatch (exactly (lit "arrow_upward")) grouped field
      /\ (firstMatch nothing grouped field value
          \/ (noMatch nothing grouped field
              /\ (firstMatch nothing loose field value
                  \/ (noMatch nothing loose field /\ value = []))))).

(** [value] is the capture of the grouped pattern on the whole blob when
    it matches there; otherwise it comes from the first field that
    contains a percent sign and a digit, and it is empty when there is no
    such field or no attempt matches. *)
Definition growth (rawData : jsstring) (fields : list jsstring)
           (value : jsstring) : Prop :=
  firstMatch nothing grouped rawData value
  \/ (noMatch nothing grouped rawData
      /\ ((noneWith percentField fields /\ value = [])
          \/ exists field,
              firstWith percentField fields field
              /\ fieldGrowth field value)).

End Wording.

(** ** When the matcher cannot miss a word *)

(** A matcher that succeeds whenever a word of [L] stands first and the
    continuation accepts what follows it. *)
Definition completeFor (A : Type) (L : jsstring -> Prop)
           (m : (jsstring -> option A) -> jsstring -> option A) : Prop :=
  forall k w s', L w -> k s' <> None -> m k (w ++ s') <> None.

(** The expression matches the empty word. *)
Fixpoint nullable (r : regex) : bool :=
  match r with
  | Eps => true
  | Char _ | OneOf _ | Digit | Space => false
  | Seq r1 r2 => nullable r1 && nullable r2
  | Alt r1 r2 => nullable r1 || nullable r2
  | Quant min max r' =>
      (min =? 0)
      || match max with Some O => true | _ => false end
      || nullable r'
  end.

(** Every iteration of every quantifier consumes a character, so the
    empty-iteration check of the matcher rejects nothing. *)
Fixpoint loopsConsume (r : regex) : bool :=
  match r with
  | Eps | Char _ | OneOf _ | Digit | Space => true
  | Seq r1 r2 => loopsConsume r1 && loopsConsume r2
  | Alt r1 r2 => loopsConsume r1 && loopsConsume r2
  | Quant _ _ r' => negb (nullable r') && loopsConsume r'
  end.

(** ** Blobs on which the two versions of the cleaner are compared *)

(** No double quote, every value but the times present. *)
Definition agreeingBlob : jsstring :=
  lit "Zed,5K+ searches,alpha beta,gamma delta,".

(** An elapsed time in minutes. *)
Definition minutesBlob : jsstring := lit "Zed,about 50m ago".

(** A grouped percentage. *)
Definition groupedBlob : jsstring := lit "Zed,up 1,000%".

(** A double quote at the start and none at the end. *)
Definition loneQuote : jsstring := quote :: lit "abc".

(** White space inside the double quotes of the first field. *)
Definition spacedQuotes : jsstring :=
  [quote] ++ lit " a " ++ [quote] ++ lit ",b".

(** * Properties *)

(** ** Strings *)

Section StringFacts.

Lemma eqbString_true (a b : jsstring) : eqbString a b = true <-> a = b.
Proof.
  unfold eqbString. destruct (list_eq_dec N.eq_dec a b); split; congruence.
Qed.

Lemma startsWith_prefix (s needle : jsstring) :
  startsWith s needle = true <-> exists rest, s = needle ++ rest.
Proof.
  revert s. induction needle as [|n ns IH]; intros s; simpl.
  - split; [intros _; now exists s | reflexivity].
  - destruct s as [|c cs].
    + split; [discriminate | intros [rest H]; discriminate].
    + rewrite andb_true_iff, N.eqb_eq, IH. split.
      * intros [-> [rest ->]]. now exists rest.
      * intros [rest H]. injection H as -> ->. split; [reflexivity | now exists rest].
Qed.

Lemma includes_infix (s needle : jsstring) :
  includes s needle = true <-> exists pre post, s = pre ++ needle ++ post.
Proof.
  induction s as [|c cs IH]; simpl.
  - rewrite orb_false_r, startsWith_prefix. split.
    + intros [rest H]. now exists [], rest.
    + intros [pre [post H]]. destruct pre; [now exists post | discriminate].
  - rewrite orb_true_iff, startsWith_prefix, IH. split.
    + intros [[rest H] | [pre [post H]]].
      * now exists [], rest.
      * exists (c :: pre), post. simpl. now rewrite H.
    + intros [[|x pre] [post H]].
      * left. now exists post.
      * right. injection H as -> ->. now exists pre, post.
Qed.

(** Every string includes the empty string. *)
Lemma includes_empty (s : jsstring) : includes s [] = true.
Proof. destruct s; reflexivity. Qed.

Lemma includes_longer (s a b : jsstring) :
  includes s (a ++ b) = true -> includes s b = true.
Proof.
  rewrite !includes_infix. intros [pre [post H]].
  exists (pre ++ a), post. now rewrite H, <- !app_assoc.
Qed.

Lemma includes_nonempty (s needle : jsstring) :
  includes s needle = true -> needle <> [] -> s <> [].
Proof.
  rewrite includes_infix. intros [pre [post H]] Hn ->.
  destruct pre, needle; simpl in H; congruence.
Qed.

Lemma ifTruthy_found {X : Type} (s : jsstring) (yes : jsstring -> X) (no : X) :
  s <> [] -> ifTruthy (Some s) yes no = yes s.
Proof. destruct s; [congruence | reflexivity]. Qed.

Lemma orEmpty_some (s : jsstring) : orEmpty (Some s) = s.
Proof. destruct s; reflexivity. Qed.

Lemma existsb_eqbString (x : jsstring) (l : list jsstring) :
  existsb (eqbString x) l = true <-> In x l.
Proof.
  rewrite existsb_exists. split.
  - intros [y [Hy E]]. apply eqbString_true in E. now subst.
  - intros H. exists x. split; [assumption | now apply eqbString_true].
Qed.

End StringFacts.

(** ** The matcher *)

Section MatcherFacts.

Variable ignoreCase : bool.
Variable A : Type.

(** A matcher that calls its continuation on what is left of its input
    only. *)
Definition onSuffixes (m : (jsstring -> option A) -> jsstring -> option A)
  : Prop :=
  forall k k' s,
    (forall s', length s' <= length s -> k s' = k' s') -> m k s = m k' s.

Lemma step_onSuffixes (p : codeUnit -> bool) : onSuffixes (step p).
Proof.
  intros k k' [|x t] H; cbn [step]; [reflexivity|].
  destruct (p x); [|reflexivity]. apply H. cbn [length]. lia.
Qed.

Lemma repeatK_onSuffixes m (fuel min : nat) (max : option nat) :
  onSuffixes m ->
  onSuffixes (fun k s => repeatK m k fuel min max s).
Proof.
  intros Hm. revert min max.
  induction fuel as [|fuel IH]; intros min max k k' s H; cbn [repeatK];
    [reflexivity|].
  assert (Hs : k s = k' s) by (apply H; lia).
  destruct max as [[|n]|]; try exact Hs; cbv zeta.
  all: destruct min as [|min].
  all: try (apply Hm; intros s' Hs'; apply IH; intros s'' Hs'';
            apply H; lia).
  all: match goal with
       | |- match ?m0 ?f ?s0 with _ => _ end
            = match ?m0 ?g ?s0 with _ => _ end =>
           replace (m0 f s0) with (m0 g s0);
           [now rewrite Hs|]
       end.
  all: symmetry; apply Hm; intros s' Hs'; destruct (length s' <? length s);
    [|reflexivity]; apply IH; intros s'' Hs''; apply H; lia.
Qed.

Lemma matchK_onSuffixes (r : regex) : onSuffixes (matchK ignoreCase (A:=A) r).
Proof.
  induction r as [|c|cs| | |r1 IH1 r2 IH2|r1 IH1 r2 IH2|min max r IH];
    intros k k' s H; cbn [matchK].
  - apply H. lia.
  - now apply step_onSuffixes.
  - now apply step_onSuffixes.
  - now apply step_onSuffixes.
  - now apply step_onSuffixes.
  - apply IH1. intros s' Hs'. apply IH2. intros s'' Hs''. apply H. lia.
  - rewrite (IH1 k k' s H), (IH2 k k' s H). reflexivity.
  - now apply (repeatK_onSuffixes (S (min + length s)) min max IH).
Qed.

(** More fuel than [min + length s] changes nothing. *)
Lemma repeatK_fuel m (k : jsstring -> option A) :
  onSuffixes m ->
  forall fuel fuel' min max s,
    min + length s < fuel -> min + length s < fuel' ->
    repeatK m k fuel min max s = repeatK m k fuel' min max s.
Proof.
  intros Hm. induction fuel as [|fuel IH]; intros fuel' min max s Hf Hf';
    [lia|].
  destruct fuel' as [|fuel']; [lia|]. cbn [repeatK].
  destruct max as [[|n]|]; try reflexivity; cbv zeta.
  all: destruct min as [|min].
  all: try (apply Hm; intros s' Hs'; apply IH; cbn [Nat.add] in *; lia).
  all: match goal with
       | |- match ?m0 ?f ?s0 with _ => _ end
            = match ?m0 ?g ?s0 with _ => _ end =>
           replace (m0 f s0) with (m0 g s0); [reflexivity|]
       end.
  all: symmetry; apply Hm; intros s' Hs';
    destruct (length s' <? length s) eqn:E;
    [|reflexivity]; apply Nat.ltb_lt in E; apply IH;
    cbn [Nat.add] in *; lia.
Qed.

Lemma quantifier_fuel (min : nat) (max : option nat) (r : regex)
      (k : jsstring -> option A) (s : jsstring) (extra : nat) :
  matchK ignoreCase (Quant min max r) k s
  = repeatK (matchK ignoreCase r) k (S (min + length s) + extra) min max s.
Proof.
  cbn [matchK]. apply repeatK_fuel; [apply matchK_onSuffixes| |]; lia.
Qed.

End MatcherFacts.

(** The patterns on the texts the comments of the source name. *)
Section PatternExamples.

Example volume_200K :
  exec volumePattern (lit "200K+ searches·trending_upActive·20h ago")
  = Some (lit "200K+").
Proof. vm_compute. reflexivity. Qed.

Example time_20h :
  exec QuoteAware.timePattern (lit "·20h ago") = Some (lit "20h ago").
Proof. vm_compute. reflexivity. Qed.

Example time_2_hours :
  exec QuoteAware.timePattern (lit "2 hours ago") = Some (lit "2 hours ago").
Proof. vm_compute. reflexivity. Qed.

Example time_50m :
  exec QuoteAware.timePattern (lit "50m ago") = Some (lit "50m ago")
  /\ exec Simple.timePattern (lit "50m ago") = None.
Proof. vm_compute. split; reflexivity. Qed.

Example time_upper_case :
  exec QuoteAware.timePattern (lit "3 HOURS AGO") = Some (lit "3 HOURS AGO").
Proof. vm_compute. reflexivity. Qed.

Example percentage_arrow :
  exec QuoteAware.arrowPattern (lit "200K+arrow_upward1,000%")
  = Some (lit "1,000%")
  /\ exec QuoteAware.percentagePattern (lit "200K+arrow_upward1,000%")
     = Some (lit "1,000%").
Proof. vm_compute. split; reflexivity. Qed.

(** Four digits before the sign: the grouped pattern takes the last three,
    the loose one all of them. *)
Example percentage_ungrouped :
  exec QuoteAware.percentagePattern (lit "up 1250%") = Some (lit "250%")
  /\ exec QuoteAware.anyDigitsPattern (lit "up 1250%") = Some (lit "1250%").
Proof. vm_compute. split; reflexivity. Qed.

End PatternExamples.

(** ** Serializer *)

Section Serializer.

Lemma csvRow_line (r : CleanedTrendData) :
  join [comma] (csvRow r) = Spec.recordLine r.
Proof.
  unfold csvRow, Spec.recordLine. cbn [join].
  rewrite <- ?app_assoc. reflexivity.
Qed.

Lemma convert_from (rs : list CleanedTrendData) (csv : jsstring) :
  fold_left (fun csv item => csv ++ join [comma] (csvRow item) ++ [newline])
            rs csv
  = csv ++ concat (map (fun r => Spec.recordLine r ++ [newline]) rs).
Proof.
  revert csv. induction rs as [|r rs IH]; intros csv;
    cbn [fold_left map concat].
  - now rewrite app_nil_r.
  - now rewrite IH, csvRow_line, <- !app_assoc.
Qed.

Lemma headers_joined : join [comma] headers = Spec.headerLine.
Proof. vm_compute. reflexivity. Qed.

Lemma convert_table (rs : list CleanedTrendData) :
  convertCleanedDataToCSV rs = Spec.table rs.
Proof.
  unfold convertCleanedDataToCSV, Spec.table.
  rewrite convert_from, headers_joined, <- app_assoc. reflexivity.
Qed.

Lemma join_first_and_others (sep first : jsstring) (others : list jsstring) :
  join sep (first :: others)
  = first ++ concat (map (fun term => sep ++ term) others).
Proof.
  revert first. induction others as [|second others IH]; intros first.
  - cbn [join map concat]. now rewrite app_nil_r.
  - change (join sep (first :: second :: others))
      with (first ++ sep ++ join sep (second :: others)).
    rewrite IH. cbn [map concat]. now rewrite <- app_assoc.
Qed.

(** C7. For every sequence of records the serializer's output is the
    header line [Trend Name,Search Volume,Time Ago,Growth %,Related
    Searches] and a line feed, followed by one line per record in order:
    a double quote, the value and a double quote for each of the five
    cells, a comma between two cells, and a line feed; the last cell holds
    the first related search and, before each of the others, a semicolon
    and a space.  The empty sequence gives the header line alone. *)
Theorem serializer_output :
  (forall rs : list CleanedTrendData,
      convertCleanedDataToCSV rs
      = lit "Trend Name,Search Volume,Time Ago,Growth %,Related Searches"
        ++ [newline]
        ++ concat
             (map (fun r =>
                     [quote] ++ trendName r ++ [quote] ++ [comma]
                     ++ [quote] ++ searchVolume r ++ [quote] ++ [comma]
                     ++ [quote] ++ timeAgo r ++ [quote] ++ [comma]
                     ++ [quote] ++ growthPercentage r ++ [quote] ++ [comma]
                     ++ [quote]
                     ++ match relatedSearches r with
                        | [] => []
                        | first :: others =>
                            first
                            ++ concat (map (fun term => lit "; " ++ term)
                                           others)
                        end
                     ++ [quote] ++ [newline]) rs))
  /\ convertCleanedDataToCSV []
     = lit "Trend Name,Search Volume,Time Ago,Growth %,Related Searches"
       ++ [newline].
Proof.
  split.
  - intros rs. rewrite convert_table. unfold Spec.table.
    change Spec.headerLine
      with (lit "Trend Name,Search Volume,Time Ago,Growth %,Related Searches").
    do 3 f_equal. apply map_ext. intros r.
    unfold Spec.recordLine, quoted.
    assert (J : join (lit "; ") (relatedSearches r)
                = match relatedSearches r with
                  | [] => []
                  | first :: others =>
                      first
                      ++ concat (map (fun term => lit "; " ++ term) others)
                  end).
    { destruct (relatedSearches r) as [|first others]; [reflexivity|].
      apply join_first_and_others. }
    rewrite J. repeat (rewrite <- app_assoc; cbn [app]). reflexivity.
  - rewrite convert_table. unfold Spec.table. cbn [map concat].
    now rewrite app_nil_r.
Qed.

End Serializer.

(** ** Related searches *)

Section RelatedSearches.

Lemma setAdd_NoDup (x : jsstring) (set : list jsstring) :
  NoDup set -> NoDup (setAdd x set).
Proof.
  intros H. unfold setAdd.
  destruct (existsb (eqbString x) set) eqn:E; [assumption|].
  apply NoDup_app; [assumption | repeat constructor; intros [] | ].
  intros y Hy [<-|[]].
  apply existsb_eqbString in Hy. congruence.
Qed.

Lemma setAdd_Forall (P : jsstring -> Prop) (x : jsstring)
      (set : list jsstring) :
  P x -> Forall P set -> Forall P (setAdd x set).
Proof.
  intros Hx H. unfold setAdd.
  destruct (existsb (eqbString x) set); [assumption|].
  apply Forall_app. split; [assumption | now constructor].
Qed.

Lemma relatedTerms_invariant (name : jsstring) (fields set : list jsstring) :
  NoDup set /\ Forall (fun e => keepsField name e = true) set ->
  NoDup (relatedTermsOf name fields set)
  /\ Forall (fun e => keepsField name e = true) (relatedTermsOf name fields set).
Proof.
  revert set. induction fields as [|f fs IH]; intros set [Hnd Hall].
  - now split.
  - simpl. apply IH.
    destruct (keepsField name (trim (stripDots f))) eqn:E.
    + split; [now apply setAdd_NoDup | now apply setAdd_Forall].
    + now split.
Qed.

Lemma firstn_NoDup {X : Type} (n : nat) (l : list X) :
  NoDup l -> NoDup (firstn n l).
Proof.
  intros H. rewrite <- (firstn_skipn n l) in H.
  now apply NoDup_app_remove_r in H.
Qed.

Lemma extractRelated_fields (fields : list jsstring) (r : CleanedTrendData) :
  trendName (extractRelated fields r) = trendName r
  /\ searchVolume (extractRelated fields r) = searchVolume r
  /\ timeAgo (extractRelated fields r) = timeAgo r
  /\ growthPercentage (extractRelated fields r) = growthPercentage r.
Proof. now repeat split. Qed.

Lemma extractRelated_invariant (fields : list jsstring) (r : CleanedTrendData) :
  length (relatedSearches (extractRelated fields r)) <= 5
  /\ NoDup (relatedSearches (extractRelated fields r))
  /\ Forall (fun e => keepsField (trendName r) e = true)
            (relatedSearches (extractRelated fields r)).
Proof.
  unfold extractRelated. cbn [relatedSearches withRelatedSearches].
  destruct (relatedTerms_invariant (trendName r) fields (set := []))
    as [Hnd Hall]; [split; constructor|].
  fold (relatedTermsOf (trendName r) fields []).
  split; [apply firstn_le_length|].
  split; [now apply firstn_NoDup|].
  rewrite <- (firstn_skipn 5 (relatedTermsOf _ _ _)) in Hall.
  now apply Forall_app in Hall.
Qed.

(** What passing the filter means for one entry. *)
Lemma keepsField_true (name e : jsstring) :
  keepsField name e = true ->
  includes e name = false
  /\ (forall noise, In noise noiseWords -> includes e noise = false)
  /\ includes e (lit "%") = false
  /\ includes e (lit "searches") = false
  /\ includes e (lit "ago") = false.
Proof.
  unfold keepsField. rewrite !andb_true_iff, !negb_true_iff.
  intros [[[[[[_ Hnoise] Hname] Hs] Hp] Ha] _].
  repeat split; try assumption.
  intros noise Hin.
  destruct (includes e noise) eqn:E; [|reflexivity].
  assert (existsb (fun noise => includes e noise) noiseWords = true)
    by (apply existsb_exists; now exists noise).
  congruence.
Qed.

Lemma extractRelated_empty_name (fields : list jsstring)
      (r : CleanedTrendData) :
  trendName r = [] -> relatedSearches (extractRelated fields r) = [].
Proof.
  intros Hname.
  destruct (extractRelated_invariant fields r) as [_ [_ Hall]].
  destruct (relatedSearches (extractRelated fields r)) as [|e es];
    [reflexivity|].
  apply Forall_inv in Hall. apply keepsField_true in Hall.
  destruct Hall as [H _]. rewrite Hname, includes_empty in H. discriminate.
Qed.

End RelatedSearches.

(** ** The classifier rules of the quote-aware cleaner *)

Section Classifier.

Import QuoteAware.

Ltac by_cases :=
  repeat match goal with
         | |- context [match ?x with _ => _ end] => destruct x
         end;
  try reflexivity.

Lemma extractVolume_keeps (fields : list jsstring) (r : CleanedTrendData) :
  trendName (extractVolume fields r) = trendName r
  /\ timeAgo (extractVolume fields r) = timeAgo r
  /\ growthPercentage (extractVolume fields r) = growthPercentage r.
Proof. unfold extractVolume, ifTruthy. repeat split; by_cases. Qed.

Lemma extractTime_keeps (fields : list jsstring) (r : CleanedTrendData) :
  trendName (extractTime fields r) = trendName r
  /\ searchVolume (extractTime fields r) = searchVolume r
  /\ growthPercentage (extractTime fields r) = growthPercentage r.
Proof. unfold extractTime, ifTruthy. repeat split; by_cases. Qed.

Lemma extractGrowth_keeps (rawData : jsstring) (fields : list jsstring)
      (r : CleanedTrendData) :
  trendName (extractGrowth rawData fields r) = trendName r
  /\ searchVolume (extractGrowth rawData fields r) = searchVolume r
  /\ timeAgo (extractGrowth rawData fields r) = timeAgo r.
Proof. unfold extractGrowth, ifTruthy. repeat split; by_cases. Qed.

Lemma cleanTrendsData_trendName (rawData : jsstring) :
  trendName (cleanTrendsData rawData)
  = orEmpty (nth_error (splitFields rawData) 0).
Proof.
  unfold cleanTrendsData.
  rewrite (proj1 (extractRelated_fields _ _)).
  rewrite (proj1 (extractGrowth_keeps _ _ _)).
  rewrite (proj1 (extractTime_keeps _ _)).
  rewrite (proj1 (extractVolume_keeps _ _)).
  reflexivity.
Qed.

Lemma cleanTrendsData_related (rawData : jsstring) :
  exists r,
    trendName r = trendName (cleanTrendsData rawData)
    /\ relatedSearches (cleanTrendsData rawData)
       = relatedSearches (extractRelated (splitFields rawData) r).
Proof.
  unfold cleanTrendsData. eexists. split; [|reflexivity].
  now rewrite (proj1 (extractRelated_fields _ _)).
Qed.

(** A field the elapsed-time rule looks for includes [ago]: the three
    longer needles end in it. *)
Lemma time_field_test (field : jsstring) :
  includes field (lit "ago") || includes field (lit "hours ago")
  || includes field (lit "h ago") || includes field (lit "m ago")
  = includes field (lit "ago").
Proof.
  destruct (includes field (lit "ago")) eqn:E; [reflexivity|].
  cbn [orb].
  assert (H : forall a, includes field (a ++ lit "ago") = false).
  { intros a. destruct (includes field (a ++ lit "ago")) eqn:F;
      [|reflexivity].
    apply includes_longer in F. congruence. }
  change (lit "hours ago") with (lit "hours " ++ lit "ago").
  change (lit "h ago") with (lit "h " ++ lit "ago").
  change (lit "m ago") with (lit "m " ++ lit "ago").
  now rewrite !H.
Qed.

Lemma find_same {X : Type} (p q : X -> bool) (l : list X) :
  (forall x, p x = q x) -> find p l = find q l.
Proof.
  intros H. induction l as [|x l IH]; simpl; [reflexivity|].
  now rewrite H, IH.
Qed.

Lemma extractTime_value (fields : list jsstring) (r : CleanedTrendData) :
  timeAgo r = [] ->
  timeAgo (extractTime fields r) = Spec.elapsedTime fields.
Proof.
  intros Hr. unfold extractTime, Spec.elapsedTime.
  rewrite (find_same _ (fun field => includes field (lit "ago")) fields
                     time_field_test).
  destruct (find _ fields) as [field|] eqn:F; [|exact Hr].
  apply find_some in F. destruct F as [_ F].
  rewrite ifTruthy_found.
  - cbn [timeAgo withTimeAgo]. reflexivity.
  - apply (includes_nonempty F). discriminate.
Qed.

Lemma extractGrowth_value (rawData : jsstring) (fields : list jsstring)
      (r : CleanedTrendData) :
  growthPercentage r = [] ->
  growthPercentage (extractGrowth rawData fields r)
  = Spec.growth rawData fields.
Proof.
  intros Hr. unfold extractGrowth, Spec.growth.
  destruct (exec percentagePattern rawData) as [capture|]; [reflexivity|].
  destruct (find _ fields) as [field|] eqn:F; [|exact Hr].
  apply find_some in F. destruct F as [_ F].
  apply andb_true_iff in F. destruct F as [F _].
  rewrite ifTruthy_found.
  - cbn [growthPercentage withGrowthPercentage Spec.firstCapture].
    unfold orTry.
    destruct (exec arrowPattern field); [reflexivity|].
    destruct (exec percentagePattern field); [reflexivity|].
    destruct (exec anyDigitsPattern field); reflexivity.
  - apply (includes_nonempty F). discriminate.
Qed.

(** C4. For every blob, [relatedSearches] has at most five entries, no
    entry twice, and no entry includes the extracted trend name, a noise
    label, a percent sign, [searches] or [ago]. *)
Theorem relatedSearches_invariant (rawData : jsstring) :
  length (relatedSearches (cleanTrendsData rawData)) <= 5
  /\ NoDup (relatedSearches (cleanTrendsData rawData))
  /\ forall entry,
      In entry (relatedSearches (cleanTrendsData rawData)) ->
      includes entry (trendName (cleanTrendsData rawData)) = false
      /\ (forall noise,
             In noise [lit "Search term"; lit "query_statsExplore";
                       lit "More actions"; lit "Active"; lit "trending_up";
                       lit "checklistSelect"; lit "more_vert"] ->
             includes entry noise = false)
      /\ includes entry (lit "%") = false
      /\ includes entry (lit "searches") = false
      /\ includes entry (lit "ago") = false.
Proof.
  destruct (cleanTrendsData_related rawData) as [r [Hname ->]].
  destruct (extractRelated_invariant (splitFields rawData) r)
    as [Hlen [Hnd Hall]].
  split; [assumption|]. split; [assumption|].
  intros entry Hin. rewrite <- Hname.
  rewrite Forall_forall in Hall.
  apply keepsField_true. now apply Hall.
Qed.

(** C9. For every blob whose fields start with a field that is not empty,
    [trendName] is that field; when there is no field, [trendName] is the
    empty string. *)
Theorem trendName_first_field (rawData : jsstring) :
  (forall first rest,
      splitFields rawData = first :: rest -> first <> [] ->
      trendName (cleanTrendsData rawData) = first)
  /\ (splitFields rawData = [] -> trendName (cleanTrendsData rawData) = []).
Proof.
  rewrite cleanTrendsData_trendName. split.
  - intros first rest -> _. apply orEmpty_some.
  - intros ->. reflexivity.
Qed.

(** C10. For every blob whose extracted trend name is the empty string,
    [relatedSearches] is empty. *)
Theorem empty_name_no_related (rawData : jsstring) :
  trendName (cleanTrendsData rawData) = [] ->
  relatedSearches (cleanTrendsData rawData) = [].
Proof.
  intros Hname.
  destruct (cleanTrendsData_related rawData) as [r [Hr ->]].
  apply extractRelated_empty_name. congruence.
Qed.

End Classifier.

(** ** The field splitter *)

Section Splitter.

Import QuoteAware.

Lemma splitLoop_S (rawData : jsstring) (n : nat) :
  splitLoop rawData (S n) = splitStep rawData (splitLoop rawData n) n.
Proof.
  unfold splitLoop. now rewrite seq_S, fold_left_app.
Qed.

Lemma delimitersBefore_S (rawData : jsstring) (n : nat) :
  Spec.delimitersBefore rawData (S n)
  = Spec.delimitersBefore rawData n
    ++ (if Spec.splitsAt rawData n then [n] else []).
Proof.
  unfold Spec.delimitersBefore. now rewrite seq_S, filter_app.
Qed.

Lemma insideQuotes_S (rawData : jsstring) (n : nat) :
  Spec.insideQuotes rawData (S n)
  = if Spec.unescapedQuoteAt rawData n
    then negb (Spec.insideQuotes rawData n)
    else Spec.insideQuotes rawData n.
Proof.
  unfold Spec.insideQuotes. rewrite seq_S, filter_app, length_app.
  cbn [filter Nat.add].
  destruct (Spec.unescapedQuoteAt rawData n); cbn [length].
  - now rewrite Nat.add_1_r, Nat.odd_succ, <- Nat.negb_odd.
  - now rewrite Nat.add_0_r.
Qed.

Lemma closedSegments_snoc (rawData : jsstring) (ds : list nat)
      (start d : nat) :
  Spec.closedSegments rawData start (ds ++ [d])
  = Spec.closedSegments rawData start ds
    ++ [Spec.slice rawData (Spec.tailStart start ds) d].
Proof.
  revert start. induction ds as [|x ds IH]; intros start; simpl.
  - reflexivity.
  - now rewrite IH.
Qed.

Lemma tailStart_snoc (ds : list nat) (start d : nat) :
  Spec.tailStart start (ds ++ [d]) = S d.
Proof. unfold Spec.tailStart. now rewrite fold_left_app. Qed.

Lemma firstn_snoc (l : jsstring) (k : nat) :
  k < length l -> firstn k l ++ [nth k l 0%N] = firstn (S k) l.
Proof.
  revert k. induction l as [|x l IH]; intros k Hk; simpl in Hk; [lia|].
  destruct k as [|k]; [reflexivity|].
  rewrite !firstn_cons. cbn [nth app]. now rewrite IH by lia.
Qed.

Lemma nth_skipn_at (l : jsstring) (a k : nat) :
  nth k (skipn a l) 0%N = nth (a + k) l 0%N.
Proof.
  revert l. induction a as [|a IH]; intros l; [reflexivity|].
  destruct l as [|x l]; simpl.
  - now destruct k.
  - apply IH.
Qed.

Lemma slice_snoc (rawData : jsstring) (a n : nat) :
  a <= n -> n < length rawData ->
  Spec.slice rawData a n ++ [charAt rawData n] = Spec.slice rawData a (S n).
Proof.
  intros Ha Hn. unfold Spec.slice, charAt.
  replace (S n - a) with (S (n - a)) by lia.
  rewrite <- firstn_snoc by (rewrite length_skipn; lia).
  rewrite nth_skipn_at. now replace (a + (n - a)) with n by lia.
Qed.

Lemma slice_same (rawData : jsstring) (a : nat) : Spec.slice rawData a a = [].
Proof. unfold Spec.slice. now rewrite Nat.sub_diag. Qed.

(** What the loop holds after [n] characters: the quote state of the
    position, the fields closed by the delimiters met, and the text since
    the last of them. *)
Lemma splitLoop_invariant (rawData : jsstring) (n : nat) :
  n <= length rawData ->
  inQuotes (splitLoop rawData n) = Spec.insideQuotes rawData n
  /\ fields (splitLoop rawData n)
     = map fieldOf
         (Spec.closedSegments rawData 0 (Spec.delimitersBefore rawData n))
  /\ current (splitLoop rawData n)
     = Spec.slice rawData
         (Spec.tailStart 0 (Spec.delimitersBefore rawData n)) n
  /\ Spec.tailStart 0 (Spec.delimitersBefore rawData n) <= n.
Proof.
  induction n as [|n IH]; intros Hn.
  - repeat split. apply Nat.le_refl.
  - destruct IH as [Hq [Hf [Hc Hs]]]; [lia|].
    rewrite splitLoop_S, delimitersBefore_S, insideQuotes_S.
    unfold splitStep, Spec.splitsAt.
    fold (Spec.unescapedQuoteAt rawData n).
    destruct (Spec.unescapedQuoteAt rawData n) eqn:Q.
    + assert (C : (charAt rawData n =? comma)%N = false).
      { unfold Spec.unescapedQuoteAt in Q.
        apply andb_true_iff in Q. destruct Q as [Q _].
        apply N.eqb_eq in Q. now rewrite Q. }
      rewrite C. cbn [andb fields current inQuotes].
      rewrite app_nil_r, Hq, Hc, slice_snoc by lia.
      repeat split; try assumption. lia.
    + destruct (charAt rawData n =? comma)%N eqn:C; cbn [andb].
      * rewrite Hq.
        destruct (Spec.insideQuotes rawData n);
          cbn [negb fields current inQuotes].
        -- rewrite app_nil_r, Hc, slice_snoc by lia.
           repeat split; try assumption. lia.
        -- rewrite closedSegments_snoc, tailStart_snoc, map_app, Hf, Hc,
             slice_same.
           repeat split. apply Nat.le_refl.
      * cbn [fields current inQuotes].
        rewrite app_nil_r, Hc, slice_snoc by lia.
        repeat split; try assumption. lia.
Qed.

(** For every blob the splitter cuts at the commas that have an even
    number of unescaped double quotes before them and at no other place:
    each delimiter closes the text since the one before it as a field,
    trimmed and with a double quote at its start and at its end removed,
    and the text after the last delimiter, when there is some, is the last
    field. *)
Lemma splitFields_segments (rawData : jsstring) :
  splitFields rawData
  = map (fun segment => stripWrappingQuotes (trim segment))
        (Spec.closedSegments rawData 0
           (filter (fun i =>
                      (charAt rawData i =? comma)%N
                      && negb (Spec.insideQuotes rawData i))
                   (seq 0 (length rawData))))
    ++ (if isEmpty (Spec.trailing rawData) then []
        else [stripWrappingQuotes (trim (Spec.trailing rawData))]).
Proof.
  unfold splitFields, Spec.trailing, Spec.delimiters.
  destruct (splitLoop_invariant rawData (n := length rawData)
                                (Nat.le_refl _)) as [_ [Hf [Hc _]]].
  rewrite Hf, Hc.
  change fieldOf with (fun segment => stripWrappingQuotes (trim segment)).
  destruct (isEmpty _); [now rewrite app_nil_r | reflexivity].
Qed.

Lemma splitStep_nonempty (rawData : jsstring) (st : splitState) (i : nat) :
  fields (splitStep rawData st i) <> []
  \/ current (splitStep rawData st i) <> [].
Proof.
  unfold splitStep.
  destruct (_ && _); [|destruct (_ && _)]; cbn [fields current].
  - right. intros H. apply app_eq_nil in H. now destruct H.
  - left. intros H. apply app_eq_nil in H. now destruct H.
  - right. intros H. apply app_eq_nil in H. now destruct H.
Qed.

(** Only the empty blob has no field. *)
Lemma splitFields_none (rawData : jsstring) :
  splitFields rawData = [] -> rawData = [].
Proof.
  unfold splitFields. destruct rawData as [|c t]; [reflexivity|].
  cbn [length]. rewrite splitLoop_S.
  destruct (splitStep_nonempty (c :: t) (splitLoop (c :: t) (length t))
                               (length t)) as [H|H];
    destruct (current (splitStep _ _ _)); cbn [isEmpty]; intros E;
    try congruence;
    apply app_eq_nil in E; now destruct E.
Qed.

End Splitter.

(** ** Batch cleaning *)

Section Batch.

Import QuoteAware.

Lemma cleanTrendsData_no_field (rawData : jsstring) :
  splitFields rawData = [] -> cleanTrendsData rawData = initialResult.
Proof.
  intros H. apply splitFields_none in H. subst rawData.
  vm_compute. reflexivity.
Qed.

Lemma cleanTrendsDataArray_nth (rows : list rawRow) (i : nat) (row : rawRow) :
  nth_error rows i = Some row ->
  nth_error (cleanTrendsDataArray rows) i
  = Some (match row with
          | Fragments row => cleanTrendsData (join [comma] row)
          | Joined row => cleanTrendsData row
          end).
Proof.
  intros H. unfold cleanTrendsDataArray.
  now rewrite nth_error_map, H.
Qed.

(** C6. For every sequence of rows the batch operation returns as many
    records as there are rows, the record at each position being the
    cleaning of the row at that position (a fragment sequence joined with
    commas first); a row with no field gives the record with every value
    empty and no related search, at its position among the others. *)
Theorem batch_one_record_per_row (rows : list rawRow) :
  length (cleanTrendsDataArray rows) = length rows
  /\ (forall i blob,
         nth_error rows i = Some (Joined blob) ->
         nth_error (cleanTrendsDataArray rows) i
         = Some (cleanTrendsData blob))
  /\ (forall i fragments,
         nth_error rows i = Some (Fragments fragments) ->
         nth_error (cleanTrendsDataArray rows) i
         = Some (cleanTrendsData (join [comma] fragments)))
  /\ (forall rawData,
         splitFields rawData = [] ->
         cleanTrendsData rawData
         = {| trendName := []; searchVolume := []; timeAgo := [];
              growthPercentage := []; relatedSearches := [] |})
  /\ (forall i,
         nth_error rows i = Some (Fragments []) ->
         nth_error (cleanTrendsDataArray rows) i
         = Some {| trendName := []; searchVolume := []; timeAgo := [];
                   growthPercentage := []; relatedSearches := [] |}).
Proof.
  split; [apply length_map|].
  split; [intros i blob H; apply (cleanTrendsDataArray_nth _ _ H)|].
  split; [intros i fragments H; apply (cleanTrendsDataArray_nth _ _ H)|].
  split; [apply cleanTrendsData_no_field|].
  intros i H. rewrite (cleanTrendsDataArray_nth _ _ H).
  vm_compute. reflexivity.
Qed.

End Batch.

(** ** Scenario A and the example of the source *)

Section Scenarios.

(** C2 (where the code departs from the scenario). On the blob of Scenario A
    the quote-aware cleaner returns the trend name, the search volume, the
    elapsed time and the growth percentage the scenario gives, and no
    related search at all: the one field that holds [plane crash] holds the
    trend name too and is dropped whole, so [plane crash] is not in the
    list. *)
Theorem scenarioA_output :
  QuoteAware.cleanTrendsData scenarioA
  = {| trendName := lit "brett james";
       searchVolume := lit "200K+";
       timeAgo := lit "20h ago";
       growthPercentage := lit "1,000%";
       relatedSearches := [] |}
  /\ existsb (eqbString (lit "plane crash"))
             (relatedSearches (QuoteAware.cleanTrendsData scenarioA))
     = false.
Proof.
  assert (E : QuoteAware.cleanTrendsData scenarioA
              = {| trendName := lit "brett james";
                   searchVolume := lit "200K+";
                   timeAgo := lit "20h ago";
                   growthPercentage := lit "1,000%";
                   relatedSearches := [] |})
    by (vm_compute; reflexivity).
  split; [exact E|]. now rewrite E.
Qed.

(** The example usage of the source gives the four values of its
    documented output and none of the documented related searches. *)
Lemma example_output :
  Spec.coreFields (QuoteAware.cleanTrendsData exampleRawData)
  = Spec.coreFields documentedOutput
  /\ relatedSearches documentedOutput = [lit "plane crash"; lit "songs"]
  /\ relatedSearches (QuoteAware.cleanTrendsData exampleRawData) = [].
Proof. vm_compute. repeat split. Qed.

(** The cleaner that splits on every comma cuts the grouped percentage of
    Scenario A in two and keeps its tail. *)
Lemma scenarioA_simple_output :
  Simple.cleanTrendsData scenarioA
  = {| trendName := lit "brett james";
       searchVolume := lit "200K+";
       timeAgo := lit "20h ago";
       growthPercentage := lit "000%";
       relatedSearches := [] |}.
Proof. vm_compute. reflexivity. Qed.

End Scenarios.

(** ** Round trip through the file *)

Section RoundTrip.

Lemma existsb_eqb_false (c : codeUnit) (s : jsstring) :
  existsb (N.eqb c) s = false <-> ~ In c s.
Proof.
  split.
  - intros H Hin.
    assert (existsb (N.eqb c) s = true)
      by (apply existsb_exists; exists c; split;
          [assumption | apply N.eqb_refl]).
    congruence.
  - intros H. destruct (existsb (N.eqb c) s) eqn:E; [|reflexivity].
    apply existsb_exists in E. destruct E as [x [Hx E]].
    apply N.eqb_eq in E. subst. contradiction.
Qed.

Lemma split_whole (sep : codeUnit) (a : jsstring) :
  ~ In sep a -> split sep a = [a].
Proof.
  induction a as [|x a IH]; intros H; cbn [split]; [reflexivity|].
  destruct (x =? sep)%N eqn:E.
  - apply N.eqb_eq in E. subst. exfalso. apply H. now left.
  - rewrite IH; [reflexivity|]. intros Hin. apply H. now right.
Qed.

Lemma split_at (sep : codeUnit) (a b : jsstring) :
  ~ In sep a -> split sep (a ++ sep :: b) = a :: split sep b.
Proof.
  induction a as [|x a IH]; intros H; cbn [split app].
  - now rewrite N.eqb_refl.
  - destruct (x =? sep)%N eqn:E.
    + apply N.eqb_eq in E. subst. exfalso. apply H. now left.
    + rewrite IH; [reflexivity|]. intros Hin. apply H. now right.
Qed.

Lemma split_lines (ls : list jsstring) :
  Forall (fun l => ~ In newline l) ls ->
  split newline (concat (map (fun l => l ++ [newline]) ls)) = ls ++ [[]].
Proof.
  induction 1 as [|l ls Hl _ IH]; cbn [map concat app]; [reflexivity|].
  rewrite <- app_assoc. cbn [app]. now rewrite split_at, IH.
Qed.

Lemma in_join (c : codeUnit) (sep : jsstring) (parts : list jsstring) :
  In c (join sep parts) -> In c sep \/ exists p, In p parts /\ In c p.
Proof.
  induction parts as [|p rest IH]; [intros []|].
  destruct rest as [|q rest].
  - intros H. right. exists p. split; [now left | exact H].
  - change (join sep (p :: q :: rest)) with (p ++ sep ++ join sep (q :: rest)).
    rewrite !in_app_iff. intros [H | [H | H]].
    + right. exists p. split; [now left | exact H].
    + now left.
    + destruct (IH H) as [G | [x [Hx G]]]; [now left|].
      right. exists x. split; [now right | exact G].
Qed.

Lemma in_quoted (c : codeUnit) (v : jsstring) :
  c <> quote -> ~ In c v -> ~ In c (quoted v).
Proof.
  intros Hc Hv [H | H]; [congruence|].
  apply in_app_iff in H. destruct H as [H | [H | []]]; congruence.
Qed.

Lemma strip_quoted (v : jsstring) : stripWrappingQuotes (quoted v) = v.
Proof.
  unfold stripWrappingQuotes, quoted, stripTrailing.
  cbn [stripLeading]. rewrite N.eqb_refl, rev_app_distr.
  cbn [rev app stripLeading]. rewrite N.eqb_refl. apply rev_involutive.
Qed.

Lemma dropWhile_keeps (p : codeUnit -> bool) (s : jsstring) (c : codeUnit) :
  p c = false -> In c s -> In c (dropWhile p s).
Proof.
  intros Hc. induction s as [|x s IH]; intros Hin; [contradiction|].
  cbn [dropWhile]. destruct (p x) eqn:E; [|exact Hin].
  destruct Hin as [-> | Hin]; [congruence | now apply IH].
Qed.

(** A string that holds a character that is not white space is not
    blank. *)
Lemma trim_not_blank (s : jsstring) (c : codeUnit) :
  isWhiteSpace c = false -> In c s -> isEmpty (trim s) = false.
Proof.
  intros Hc Hin.
  assert (H : In c (trim s)).
  { unfold trim, dropWhileEnd. apply in_rev. rewrite rev_involutive.
    apply dropWhile_keeps; [assumption|]. apply in_rev.
    rewrite rev_involutive. now apply dropWhile_keeps. }
  now destruct (trim s).
Qed.

Lemma parse_loop (lines : list jsstring) (trends : list CleanedTrendData) :
  fold_left
    (fun trends line =>
       match parseLine line with
       | None => trends
       | Some trendData => trends ++ [trendData]
       end) lines trends
  = trends ++ flat_map parsedOf lines.
Proof.
  revert trends. induction lines as [|l ls IH]; intros trends;
    cbn [fold_left flat_map].
  - now rewrite app_nil_r.
  - rewrite IH. unfold parsedOf at 2.
    destruct (parseLine l); [now rewrite <- app_assoc | reflexivity].
Qed.

Lemma plainValue_true (v : jsstring) :
  Spec.plainValue v = true ->
  ~ In comma v /\ ~ In newline v /\ trim v = v.
Proof.
  unfold Spec.plainValue. rewrite !andb_true_iff, !negb_true_iff.
  intros [[Hc Hn] Ht].
  apply existsb_eqb_false in Hc. apply existsb_eqb_false in Hn.
  apply eqbString_true in Ht. now repeat split.
Qed.

Section OneRecord.
Variable r : CleanedTrendData.
Hypothesis plain : Spec.plainRecord r = true.

Lemma plainRecord_true :
  trendName r <> []
  /\ (~ In comma (trendName r) /\ ~ In newline (trendName r)
      /\ trim (trendName r) = trendName r)
  /\ (~ In comma (searchVolume r) /\ ~ In newline (searchVolume r)
      /\ trim (searchVolume r) = searchVolume r)
  /\ (~ In comma (timeAgo r) /\ ~ In newline (timeAgo r)
      /\ trim (timeAgo r) = timeAgo r)
  /\ (~ In comma (growthPercentage r) /\ ~ In newline (growthPercentage r)
      /\ trim (growthPercentage r) = growthPercentage r)
  /\ Forall (fun term => ~ In newline term) (relatedSearches r).
Proof.
  pose proof plain as H. unfold Spec.plainRecord in H.
  rewrite !andb_true_iff in H.
  destruct H as [[[[[Hne H1] H2] H3] H4] H5].
  split; [now destruct (trendName r)|].
  repeat (split; [now apply plainValue_true|]).
  rewrite forallb_forall in H5. apply Forall_forall. intros t Ht.
  apply existsb_eqb_false. specialize (H5 t Ht).
  now apply negb_true_iff in H5.
Qed.

Lemma recordLine_one_line : ~ In newline (Spec.recordLine r).
Proof.
  destruct plainRecord_true as [_ [[_ [N1 _]] [[_ [N2 _]] [[_ [N3 _]]
                               [[_ [N4 _]] N5]]]]].
  unfold Spec.recordLine. rewrite !in_app_iff.
  assert (Q : newline <> quote) by discriminate.
  intros [H | [H | [H | [H | [H | [H | [H | [H | H]]]]]]]];
    try (now apply (in_quoted Q) in H);
    try (destruct H as [H | []]; discriminate).
  revert H. apply (in_quoted Q). intros H.
  apply in_join in H. destruct H as [H | [t [Ht H]]].
  - vm_compute in H. intuition discriminate.
  - rewrite Forall_forall in N5. now apply (N5 t Ht).
Qed.

Lemma recordLine_not_blank :
  isEmpty (trim (Spec.recordLine r)) = false.
Proof.
  apply trim_not_blank with (c := quote); [reflexivity|].
  unfold Spec.recordLine, quoted. now left.
Qed.

Lemma parseLine_recordLine :
  exists parsed,
    parseLine (Spec.recordLine r) = Some parsed
    /\ Spec.coreFields parsed = Spec.coreFields r.
Proof.
  destruct plainRecord_true as [Hne [[C1 [_ T1]] [[C2 [_ T2]] [[C3 [_ T3]]
                               [[C4 [_ T4]] _]]]]].
  assert (Q : comma <> quote) by discriminate.
  unfold parseLine, Spec.recordLine. cbn [app].
  rewrite !split_at by (now apply in_quoted).
  destruct (split comma (quoted (join (lit "; ") (relatedSearches r))))
    as [|p ps]; cbn [map nth_error];
    rewrite !strip_quoted, T1, T2, T3, T4, !orEmpty_some;
    destruct (trendName r) as [|c t] eqn:N; try congruence;
    cbn [truthy negb]; eexists; (split; [reflexivity|]);
    unfold Spec.coreFields; cbn; now rewrite N.
Qed.
End OneRecord.

End RoundTrip.

Section RoundTripTheorems.

Lemma headerLine_one_line : ~ In newline Spec.headerLine.
Proof. apply existsb_eqb_false. vm_compute. reflexivity. Qed.

Lemma filter_all {X : Type} (p : X -> bool) (l : list X) :
  Forall (fun x => p x = true) l -> filter p l = l.
Proof.
  induction 1 as [|x l Hx _ IH]; cbn [filter]; [reflexivity|].
  now rewrite Hx, IH.
Qed.

Lemma table_lines (rs : list CleanedTrendData) :
  forallb Spec.plainRecord rs = true ->
  filter (fun line => negb (isEmpty (trim line)))
         (skipn 1 (split newline (Spec.table rs)))
  = map Spec.recordLine rs.
Proof.
  intros H. rewrite forallb_forall in H.
  unfold Spec.table. cbn [app].
  rewrite split_at by apply headerLine_one_line.
  rewrite <- (map_map Spec.recordLine (fun l => l ++ [newline])).
  rewrite split_lines.
  - cbn [skipn]. rewrite filter_app.
    change (filter _ [[]]) with (@nil jsstring). rewrite app_nil_r.
    apply filter_all. apply Forall_forall. intros l Hl.
    apply in_map_iff in Hl. destruct Hl as [r [<- Hr]].
    now rewrite recordLine_not_blank by (now apply H).
  - apply Forall_forall. intros l Hl.
    apply in_map_iff in Hl. destruct Hl as [r [<- Hr]].
    apply recordLine_one_line. now apply H.
Qed.

Lemma parsed_lines (rs : list CleanedTrendData) :
  forallb Spec.plainRecord rs = true ->
  map Spec.coreFields (flat_map parsedOf (map Spec.recordLine rs))
  = map Spec.coreFields rs.
Proof.
  induction rs as [|r rs IH]; intros H; [reflexivity|].
  cbn [forallb] in H. apply andb_true_iff in H. destruct H as [Hr H].
  cbn [map flat_map]. rewrite map_app, IH by assumption.
  unfold parsedOf.
  destruct (parseLine_recordLine r Hr) as [parsed [-> E]].
  cbn [map app]. now rewrite E.
Qed.

(** C1 as the specification states it fails: a record whose growth
    percentage is 1,000%, the record of Scenario A, comes back from the
    file with the growth percentage 1. *)
Lemma round_trip_fails :
  map growthPercentage
      (evaluateTopics (convertCleanedDataToCSV [groupedExample]))
  = [lit "1"]
  /\ ~ Spec.roundTrips [groupedExample].
Proof.
  split; [vm_compute; reflexivity|].
  unfold Spec.roundTrips. intros H. vm_compute in H. discriminate H.
Qed.

(** A record without a trend name is skipped by the parser, and white
    space at the ends of a value is trimmed away. *)
Example round_trip_drops_unnamed :
  evaluateTopics (convertCleanedDataToCSV [withTrendName [] plainExample])
  = [].
Proof. vm_compute. reflexivity. Qed.

Example round_trip_trims :
  map timeAgo
      (evaluateTopics
         (convertCleanedDataToCSV [withTimeAgo (lit " 20h ago ") plainExample]))
  = [lit "20h ago"].
Proof. vm_compute. reflexivity. Qed.

(** C1 (amended). For every sequence of records whose trend name is not
    empty, whose trend name, search volume, elapsed time and growth
    percentage hold no comma and no line feed and have no white space at
    either end, and whose related searches hold no line feed, serializing
    the sequence and parsing every line after the header as the evaluator
    does gives back, record by record and in order, the same trend name,
    search volume, elapsed time and growth percentage. *)
Theorem round_trip_plain (rs : list CleanedTrendData) :
  forallb Spec.plainRecord rs = true ->
  map Spec.coreFields (evaluateTopics (convertCleanedDataToCSV rs))
  = map Spec.coreFields rs.
Proof.
  intros H. unfold evaluateTopics.
  rewrite convert_table, table_lines, parse_loop by assumption.
  now apply parsed_lines.
Qed.

End RoundTripTheorems.

(** ** The cleaner that splits on every comma *)

Section SimpleMode.

Ltac by_cases :=
  repeat match goal with
         | |- context [match ?x with _ => _ end] => destruct x
         end;
  try reflexivity.

Lemma simple_trendName (rawData : jsstring) :
  trendName (Simple.cleanTrendsData rawData)
  = orEmpty (nth_error (Simple.splitFields rawData) 0).
Proof.
  unfold Simple.cleanTrendsData.
  rewrite (proj1 (extractRelated_fields _ _)).
  unfold Simple.extractGrowth, Simple.extractTime, extractVolume, ifTruthy.
  by_cases.
Qed.

(** Its first field is never missing: [split] gives at least one piece. *)
Lemma simple_first_field (rawData : jsstring) :
  exists first rest, Simple.splitFields rawData = first :: rest.
Proof.
  unfold Simple.splitFields.
  destruct rawData as [|c t]; cbn [split map]; [now eexists; eexists|].
  destruct (c =? comma)%N; [now eexists; eexists|].
  destruct (split comma t); now eexists; eexists.
Qed.

(** The bound, the absence of duplicates and the filter hold for it as
    they do for the quote-aware cleaner: the loop is the same text. *)
Lemma simple_related_invariant (rawData : jsstring) :
  length (relatedSearches (Simple.cleanTrendsData rawData)) <= 5
  /\ NoDup (relatedSearches (Simple.cleanTrendsData rawData))
  /\ forall entry,
      In entry (relatedSearches (Simple.cleanTrendsData rawData)) ->
      includes entry (trendName (Simple.cleanTrendsData rawData)) = false
      /\ (forall noise, In noise noiseWords -> includes entry noise = false)
      /\ includes entry (lit "%") = false
      /\ includes entry (lit "searches") = false
      /\ includes entry (lit "ago") = false.
Proof.
  unfold Simple.cleanTrendsData.
  match goal with
  | |- context [extractRelated ?f ?r] =>
      destruct (extractRelated_invariant f r) as [Hlen [Hnd Hall]];
      rewrite (proj1 (extractRelated_fields f r))
  end.
  split; [assumption|]. split; [assumption|].
  intros entry Hin. rewrite Forall_forall in Hall.
  apply keepsField_true. now apply Hall.
Qed.

Lemma simple_empty_name (rawData : jsstring) :
  trendName (Simple.cleanTrendsData rawData) = [] ->
  relatedSearches (Simple.cleanTrendsData rawData) = [].
Proof.
  unfold Simple.cleanTrendsData.
  rewrite (proj1 (extractRelated_fields _ _)).
  apply extractRelated_empty_name.
Qed.

Lemma simple_batch_length (rows : list rawRow) :
  length (Simple.cleanTrendsDataArray rows) = length rows.
Proof. apply length_map. Qed.

Lemma simple_empty_row :
  Simple.cleanTrendsData (join [comma] []) = initialResult.
Proof. vm_compute. reflexivity. Qed.

End SimpleMode.

(** ** The theorems at concrete rows *)

Section Witnesses.

Import QuoteAware.

Lemma round_trip_plain_witness :
  forallb Spec.plainRecord [plainExample] = true
  /\ map Spec.coreFields (evaluateTopics (convertCleanedDataToCSV [plainExample]))
     = map Spec.coreFields [plainExample].
Proof.
  split; [vm_compute; reflexivity|].
  apply (round_trip_plain [plainExample]). vm_compute. reflexivity.
Defined.

Lemma relatedSearches_invariant_witness :
  In (lit "plane crash") (relatedSearches (cleanTrendsData twoFields))
  /\ includes (lit "plane crash") (trendName (cleanTrendsData twoFields))
     = false
  /\ includes (lit "plane crash") (lit "Active") = false
  /\ includes (lit "plane crash") (lit "ago") = false.
Proof.
  assert (Hin : In (lit "plane crash")
                   (relatedSearches (cleanTrendsData twoFields)))
    by (vm_compute; left; reflexivity).
  destruct (relatedSearches_invariant twoFields) as [_ [_ H]].
  destruct (H (lit "plane crash") Hin) as [Hname [Hnoise [_ [_ Hago]]]].
  split; [exact Hin|]. split; [exact Hname|]. split; [|exact Hago].
  apply Hnoise. vm_compute. tauto.
Defined.

Lemma batch_one_record_per_row_witness :
  length (cleanTrendsDataArray scenarioC) = 3
  /\ nth_error (cleanTrendsDataArray scenarioC) 0
     = Some (cleanTrendsData scenarioA)
  /\ nth_error (cleanTrendsDataArray scenarioC) 1 = Some initialResult
  /\ nth_error (cleanTrendsDataArray scenarioC) 2
     = Some (cleanTrendsData
               (join [comma] [lit "brett james"; lit "plane crash"])).
Proof.
  destruct (batch_one_record_per_row scenarioC)
    as [Hlen [Hblob [Hfrag [_ Hnone]]]].
  split; [exact Hlen|].
  split; [apply Hblob; reflexivity|].
  split; [apply Hnone; reflexivity|].
  apply Hfrag. reflexivity.
Defined.

Lemma trendName_first_field_witness :
  trendName (cleanTrendsData scenarioA) = lit "brett james"
  /\ trendName (cleanTrendsData []) = [].
Proof.
  split.
  - apply (proj1 (trendName_first_field scenarioA) (lit "brett james")
                 (skipn 1 (splitFields scenarioA))).
    + vm_compute. reflexivity.
    + discriminate.
  - apply (proj2 (trendName_first_field [])). reflexivity.
Defined.

Lemma empty_name_no_related_witness :
  trendName (cleanTrendsData noName) = []
  /\ relatedSearches (cleanTrendsData noName) = [].
Proof.
  split; [vm_compute; reflexivity|].
  apply (empty_name_no_related noName). vm_compute. reflexivity.
Defined.

End Witnesses.

(** * Further properties of the code *)

(** ** What the matcher captures *)

Section MatcherSoundness.

Variable ignoreCase : bool.
Variable A : Type.

Lemma step_sound (p : codeUnit -> bool) :
  soundFor (fun w => exists x, w = [x] /\ p x = true) (step (A:=A) p).
Proof.
  intros k [|x t] a H; cbn [step] in H; [discriminate|].
  destruct (p x) eqn:E; [|discriminate].
  exists [x], t. repeat split; [now exists x | exact H].
Qed.

Lemma repeatK_sound (L : jsstring -> Prop) m (k : jsstring -> option A) :
  soundFor L m ->
  forall fuel min max s a,
    repeatK m k fuel min max s = Some a ->
    exists ws s',
      s = concat ws ++ s' /\ Forall L ws
      /\ Lang.iterations min max (length ws) /\ k s' = Some a.
Proof.
  intros Hm. induction fuel as [|fuel IH]; intros min max s a H;
    [discriminate|].
  cbn [repeatK] in H.
  assert (Stop : k s = Some a ->
                 Lang.iterations 0 max 0 ->
                 (min = 0 \/ max = Some 0) ->
                 exists ws s',
                   s = concat ws ++ s' /\ Forall L ws
                   /\ Lang.iterations min max (length ws) /\ k s' = Some a).
  { intros Hk Hi Hz. exists [], s. repeat split; try assumption.
    - constructor.
    - destruct Hz as [-> | ->]; [exact Hi|]. cbn. split; [lia | now right]. }
  assert (More : forall min' w s1,
             L w ->
             repeatK m k fuel min' (option_map pred max) s1 = Some a ->
             max <> Some 0 -> (min = S min' \/ (min = 0 /\ min' = 0)) ->
             exists ws s',
               w ++ s1 = concat ws ++ s' /\ Forall L ws
               /\ Lang.iterations min max (length ws) /\ k s' = Some a).
  { intros min' w s1 Hw Hr Hmax Hmin.
    destruct (IH _ _ _ _ Hr) as [ws [s' [-> [Hall [Hi Hk]]]]].
    exists (w :: ws), s'. cbn [concat length].
    split; [now rewrite app_assoc|]. split; [now constructor|].
    split; [|exact Hk].
    destruct max as [[|top]|]; cbn in Hi |- *; [congruence| |];
      destruct Hmin as [-> | [-> ->]]; lia. }
  destruct max as [[|top]|].
  - apply Stop; [exact H | cbn; lia | now right].
  - cbv zeta in H. destruct min as [|min'].
    + destruct (m _ s) as [a'|] eqn:E.
      * injection H as ->. apply Hm in E.
        destruct E as [w [s1 [-> [Hw E']]]].
        destruct (length s1 <? length (w ++ s1)); [|discriminate].
        apply (More 0 w s1 Hw E'); [discriminate | now right].
      * apply Stop; [exact H | cbn; lia | now left].
    + apply Hm in H. destruct H as [w [s1 [-> [Hw E]]]].
      apply (More min' w s1 Hw E); [discriminate | now left].
  - cbv zeta in H. destruct min as [|min'].
    + destruct (m _ s) as [a'|] eqn:E.
      * injection H as ->. apply Hm in E.
        destruct E as [w [s1 [-> [Hw E']]]].
        destruct (length s1 <? length (w ++ s1)); [|discriminate].
        apply (More 0 w s1 Hw E'); [discriminate | now right].
      * apply Stop; [exact H | cbn; lia | now left].
    + apply Hm in H. destruct H as [w [s1 [-> [Hw E]]]].
      apply (More min' w s1 Hw E); [discriminate | now left].
Qed.

Lemma matchK_sound (r : regex) :
  soundFor (Lang.lang ignoreCase r) (matchK ignoreCase (A:=A) r).
Proof.
  induction r as [|c|cs| | |r1 IH1 r2 IH2|r1 IH1 r2 IH2|min max r IH];
    intros k s a H; cbn [matchK] in H; cbn [Lang.lang].
  - now exists [], s.
  - now apply step_sound in H.
  - now apply step_sound in H.
  - now apply step_sound in H.
  - now apply step_sound in H.
  - apply IH1 in H. destruct H as [w1 [s1 [-> [H1 H]]]].
    apply IH2 in H. destruct H as [w2 [s2 [-> [H2 H]]]].
    exists (w1 ++ w2), s2. split; [now rewrite app_assoc|].
    split; [now exists w1, w2 | exact H].
  - destruct (matchK ignoreCase r1 k s) as [a'|] eqn:E.
    + injection H as ->. apply IH1 in E.
      destruct E as [w [s' [-> [Hw E']]]]. exists w, s'. now repeat split; auto.
    + apply IH2 in H.
      destruct H as [w [s' [-> [Hw H]]]]. exists w, s'. now repeat split; auto.
  - eapply repeatK_sound in H; [|exact IH].
    destruct H as [ws [s' [-> [Hall [Hi Hk]]]]].
    exists (concat ws), s'. split; [reflexivity|].
    split; [now exists ws | exact Hk].
Qed.

End MatcherSoundness.

Section CaptureFacts.

Lemma lang_mayHold (ignoreCase : bool) (r : regex) (w : jsstring) :
  Lang.lang ignoreCase r w ->
  Forall (fun x => Lang.mayHold ignoreCase r x = true) w.
Proof.
  revert w.
  induction r as [|c|cs| | |r1 IH1 r2 IH2|r1 IH1 r2 IH2|min max r IH];
    intros w H; cbn [Lang.lang Lang.mayHold] in *.
  - subst. constructor.
  - destruct H as [x [-> H]]. now repeat constructor.
  - destruct H as [x [-> H]]. now repeat constructor.
  - destruct H as [x [-> H]]. now repeat constructor.
  - destruct H as [x [-> H]]. now repeat constructor.
  - destruct H as [w1 [w2 [-> [H1 H2]]]]. apply Forall_app. split.
    + eapply Forall_impl; [|apply (IH1 _ H1)].
      intros x Hx. cbv beta in Hx. now rewrite Hx.
    + eapply Forall_impl; [|apply (IH2 _ H2)].
      intros x Hx. cbv beta in Hx. now rewrite Hx, orb_true_r.
  - destruct H as [H | H].
    + eapply Forall_impl; [|apply (IH1 _ H)].
      intros x Hx. cbv beta in Hx. now rewrite Hx.
    + eapply Forall_impl; [|apply (IH2 _ H)].
      intros x Hx. cbv beta in Hx. now rewrite Hx, orb_true_r.
  - destruct H as [ws [-> [Hall _]]].
    induction Hall as [|v ws Hv _ IHws]; cbn [concat]; [constructor|].
    apply Forall_app. split; [now apply IH | exact IHws].
Qed.

Lemma matchAt_sound (p : pattern) (s c : jsstring) :
  matchAt p s = Some c ->
  exists w0 w2 rest,
    s = w0 ++ c ++ w2 ++ rest
    /\ Lang.lang (ignoreCase p) (before p) w0
    /\ Lang.lang (ignoreCase p) (group p) c
    /\ Lang.lang (ignoreCase p) (after p) w2.
Proof.
  unfold matchAt. intros H.
  apply matchK_sound in H. destruct H as [w0 [s1 [-> [H0 H]]]].
  apply matchK_sound in H. destruct H as [w1 [s2 [-> [H1 H]]]].
  apply matchK_sound in H. destruct H as [w2 [rest [-> [H2 H]]]].
  injection H as <-.
  rewrite length_app.
  replace (length w1 + length (w2 ++ rest) - length (w2 ++ rest))
    with (length w1 + 0) by lia.
  rewrite firstn_app_2, firstn_O, app_nil_r.
  now exists w0, w2, rest.
Qed.

Lemma exec_sound (p : pattern) (s c : jsstring) :
  exec p s = Some c ->
  exists pre w0 w2 rest,
    s = pre ++ w0 ++ c ++ w2 ++ rest
    /\ Lang.lang (ignoreCase p) (before p) w0
    /\ Lang.lang (ignoreCase p) (group p) c
    /\ Lang.lang (ignoreCase p) (after p) w2.
Proof.
  induction s as [|x s IH]; cbn [exec]; intros H.
  - destruct (matchAt p []) as [c'|] eqn:E; [|discriminate].
    injection H as ->. apply matchAt_sound in E.
    destruct E as [w0 [w2 [rest E]]]. now exists [], w0, w2, rest.
  - destruct (matchAt p (x :: s)) as [c'|] eqn:E.
    + injection H as ->. apply matchAt_sound in E.
      destruct E as [w0 [w2 [rest E]]]. now exists [], w0, w2, rest.
    + destruct (IH H) as [pre [w0 [w2 [rest [-> Hl]]]]].
      now exists (x :: pre), w0, w2, rest.
Qed.

(** [exec] fails at every start position when it fails. *)
Lemma exec_none (p : pattern) (pre s : jsstring) :
  exec p (pre ++ s) = None -> matchAt p s = None.
Proof.
  induction pre as [|x pre IH]; cbn [app].
  - destruct s; cbn [exec]; now destruct (matchAt p _).
  - cbn [exec]. destruct (matchAt p (x :: pre ++ s)); [discriminate|].
    exact IH.
Qed.

Lemma exec_includes (p : pattern) (s c : jsstring) :
  exec p s = Some c -> includes s c = true.
Proof.
  intros H. apply exec_sound in H.
  destruct H as [pre [w0 [w2 [rest [-> _]]]]].
  apply includes_infix. exists (pre ++ w0), (w2 ++ rest).
  now rewrite <- !app_assoc.
Qed.

End CaptureFacts.

(** ** Fields are pieces of the blob *)

Section Substrings.

Import QuoteAware.

Lemma includes_self (s : jsstring) : includes s s = true.
Proof. apply includes_infix. exists [], []. now rewrite app_nil_r. Qed.

Lemma includes_trans (a b c : jsstring) :
  includes c b = true -> includes b a = true -> includes c a = true.
Proof.
  rewrite !includes_infix.
  intros [pre [post ->]] [pre' [post' ->]].
  exists (pre ++ pre'), (post' ++ post). now rewrite <- !app_assoc.
Qed.

Lemma includes_suffix (pre s : jsstring) : includes (pre ++ s) s = true.
Proof. apply includes_infix. exists pre, []. now rewrite app_nil_r. Qed.

Lemma includes_prefix (s post : jsstring) : includes (s ++ post) s = true.
Proof. apply includes_infix. now exists [], post. Qed.

Lemma dropWhile_suffix (p : codeUnit -> bool) (s : jsstring) :
  exists pre, s = pre ++ dropWhile p s.
Proof.
  induction s as [|x s [pre IH]]; cbn [dropWhile]; [now exists []|].
  destruct (p x); [|now exists []].
  exists (x :: pre). cbn [app]. now rewrite <- IH.
Qed.

Lemma dropWhileEnd_prefix (p : codeUnit -> bool) (s : jsstring) :
  exists post, s = dropWhileEnd p s ++ post.
Proof.
  unfold dropWhileEnd.
  destruct (dropWhile_suffix p (rev s)) as [pre H].
  exists (rev pre). rewrite <- rev_app_distr, <- H. now rewrite rev_involutive.
Qed.

Lemma stripLeading_suffix (c : codeUnit) (s : jsstring) :
  exists pre, s = pre ++ stripLeading c s.
Proof.
  destruct s as [|x s]; cbn [stripLeading]; [now exists []|].
  destruct (x =? c)%N; [now exists [x] | now exists []].
Qed.

Lemma stripTrailing_prefix (c : codeUnit) (s : jsstring) :
  exists post, s = stripTrailing c s ++ post.
Proof.
  unfold stripTrailing.
  destruct (stripLeading_suffix c (rev s)) as [pre H].
  exists (rev pre). rewrite <- rev_app_distr, <- H. now rewrite rev_involutive.
Qed.

Lemma trim_includes (s : jsstring) : includes s (trim s) = true.
Proof.
  unfold trim.
  destruct (dropWhile_suffix isWhiteSpace s) as [pre H].
  destruct (dropWhileEnd_prefix isWhiteSpace (dropWhile isWhiteSpace s))
    as [post G].
  apply includes_infix. exists pre, post. now rewrite <- G.
Qed.

Lemma stripWrappingQuotes_includes (s : jsstring) :
  includes s (stripWrappingQuotes s) = true.
Proof.
  unfold stripWrappingQuotes.
  destruct (stripLeading_suffix quote s) as [pre H].
  destruct (stripTrailing_prefix quote (stripLeading quote s)) as [post G].
  apply includes_infix. exists pre, post. now rewrite <- G.
Qed.

Lemma fieldOf_includes (s : jsstring) : includes s (fieldOf s) = true.
Proof.
  unfold fieldOf.
  apply (includes_trans _ (trim s));
    [apply trim_includes | apply stripWrappingQuotes_includes].
Qed.

Lemma slice_includes (rawData : jsstring) (a b : nat) :
  includes rawData (Spec.slice rawData a b) = true.
Proof.
  unfold Spec.slice. apply includes_infix.
  exists (firstn a rawData), (skipn (b - a) (skipn a rawData)).
  now rewrite !firstn_skipn.
Qed.

Lemma closedSegments_slices (rawData : jsstring) (ds : list nat)
      (start : nat) (segment : jsstring) :
  In segment (Spec.closedSegments rawData start ds) ->
  includes rawData segment = true.
Proof.
  revert start. induction ds as [|d ds IH]; intros start; cbn; [intros []|].
  intros [<- | H]; [apply slice_includes | now apply (IH (S d))].
Qed.

Lemma splitFields_pieces (rawData field : jsstring) :
  In field (splitFields rawData) ->
  exists segment,
    includes rawData segment = true /\ field = fieldOf segment.
Proof.
  unfold splitFields.
  destruct (splitLoop_invariant rawData (n := length rawData)
                                (Nat.le_refl _)) as [_ [Hf [Hc _]]].
  rewrite Hf, Hc. intros H.
  assert (G : In field
                 (map fieldOf
                    (Spec.closedSegments rawData 0
                       (Spec.delimitersBefore rawData (length rawData))))
              \/ field = fieldOf
                           (Spec.slice rawData
                              (Spec.tailStart 0
                                 (Spec.delimitersBefore rawData
                                    (length rawData)))
                              (length rawData))).
  { destruct (isEmpty _); [now left|].
    apply in_app_iff in H.
    destruct H as [H | [<- | []]]; [now left | now right]. }
  destruct G as [G | ->].
  - apply in_map_iff in G. destruct G as [segment [<- G]].
    exists segment. split; [|reflexivity].
    now apply closedSegments_slices in G.
  - eexists. split; [apply slice_includes | reflexivity].
Qed.

Lemma fields_are_substrings_lemma (rawData field : jsstring) :
  In field (splitFields rawData) -> includes rawData field = true.
Proof.
  intros H. apply splitFields_pieces in H.
  destruct H as [segment [Hs ->]].
  apply (includes_trans _ segment); [exact Hs | apply fieldOf_includes].
Qed.

End Substrings.

(** ** Growth percentage *)

Section Growth.

Import QuoteAware.

Lemma last_of_all (P : codeUnit -> Prop) (w : jsstring) :
  Forall P w -> w <> [] -> exists u d, w = u ++ [d] /\ P d.
Proof.
  intros Hall Hne. destruct (exists_last Hne) as [u [d ->]].
  exists u, d. split; [reflexivity|].
  apply Forall_app in Hall. destruct Hall as [_ Hd]. now inversion Hd.
Qed.

(** One or more digits. *)
Lemma digits_word (ic : bool) (min : nat) (max : option nat) (w : jsstring) :
  1 <= min -> max <> Some 0 ->
  Lang.lang ic (Quant min max Digit) w ->
  Forall (fun x => isDigit x = true) w /\ w <> [].
Proof.
  intros Hmin Hmax H. split.
  - apply (lang_mayHold ic (Quant min max Digit) w H).
  - cbn [Lang.lang] in H. destruct H as [ws [-> [Hall Hi]]].
    destruct ws as [|v ws].
    + exfalso. destruct max as [[|top]|]; cbn in Hi; [congruence| |]; lia.
    + apply Forall_inv in Hall. destruct Hall as [x [-> _]]. discriminate.
Qed.

(** Nothing, or commas and digits that end in a digit. *)
Lemma groups_word (min : nat) (max : option nat) (w : jsstring) :
  1 <= min -> max <> Some 0 ->
  Lang.lang false (star (Seq (Char comma) (Quant min max Digit))) w ->
  Forall (fun x => isDigit x = true \/ x = comma) w
  /\ (w = [] \/ endsWithDigit w).
Proof.
  intros Hmin Hmax H. split.
  - eapply Forall_impl; [|apply (lang_mayHold _ _ _ H)].
    intros x Hx. cbn in Hx. apply orb_true_iff in Hx.
    destruct Hx as [Hx | Hx]; [right; now apply N.eqb_eq | now left].
  - cbn [Lang.lang star] in H. destruct H as [ws [-> [Hall _]]].
    induction Hall as [|v ws Hv _ IH]; [now left|]. right.
    cbn [concat].
    destruct IH as [E | [u [d [E Hd]]]].
    + rewrite E, app_nil_r.
      destruct Hv as [w1 [w2 [-> [_ H2]]]].
      destruct (digits_word (ic := false) Hmin Hmax H2) as [Hall Hne].
      destruct (last_of_all Hall Hne) as [u [d [-> Hd]]].
      exists (w1 ++ u), d. now rewrite app_assoc.
    + exists (v ++ u), d. now rewrite E, app_assoc.
Qed.

(** What the three percentage patterns capture. *)
Lemma percent_word (a a' : nat) (b b' : option nat) (c : jsstring) :
  1 <= a -> b <> Some 0 -> 1 <= a' -> b' <> Some 0 ->
  Lang.lang false
    (seqs [Quant a b Digit; star (Seq (Char comma) (Quant a' b' Digit));
           Char percent]) c ->
  percentageShaped c /\ hasDigitPercent c.
Proof.
  intros Ha Hb Ha' Hb' H. cbn [seqs fold_right Lang.lang] in H.
  destruct H as [w1 [t1 [-> [H1 [w2 [t2 [-> [H2 [w3 [t3 [-> [H3 ->]]]]]]]]]]]].
  destruct H3 as [x [-> Hx]]. cbn in Hx. apply N.eqb_eq in Hx. subst x.
  rewrite app_nil_r.
  destruct (digits_word (ic := false) Ha Hb H1) as [D1 N1].
  fold (star (Seq (Char comma) (Quant a' b' Digit))) in H2.
  destruct (groups_word Ha' Hb' H2) as [D2 E2].
  split.
  - destruct w1 as [|d w1]; [congruence|].
    exists d, (w1 ++ w2). split; [now rewrite <- app_assoc|].
    split; [now inversion D1|].
    apply Forall_app. split; [|exact D2].
    apply Forall_inv_tail in D1.
    eapply Forall_impl; [|exact D1]. intros x Hx. now left.
  - assert (E : endsWithDigit (w1 ++ w2)).
    { destruct E2 as [-> | [u [d [-> Hd]]]].
      - rewrite app_nil_r. destruct (last_of_all D1 N1) as [u [d [-> Hd]]].
        now exists u, d.
      - exists (w1 ++ u), d. now rewrite app_assoc. }
    destruct E as [u [d [E Hd]]].
    exists u, d, []. split; [|exact Hd].
    rewrite app_assoc, E, <- app_assoc. reflexivity.
Qed.

Lemma capture_percentage (p : pattern) (s c : jsstring) :
  In p [percentagePattern; arrowPattern; anyDigitsPattern] ->
  exec p s = Some c ->
  percentageShaped c /\ hasDigitPercent c /\ includes s c = true.
Proof.
  intros Hp H. pose proof (exec_includes _ _ H) as Hin.
  apply exec_sound in H. destruct H as [_ [_ [_ [_ [_ [_ [H _]]]]]]].
  assert (G : percentageShaped c /\ hasDigitPercent c).
  { destruct Hp as [<- | [<- | [<- | []]]]; cbn [group ignoreCase] in H.
    - apply (percent_word (a := 1) (b := Some 3) (a' := 3) (b' := Some 3));
        try lia; try discriminate. exact H.
    - apply (percent_word (a := 1) (b := Some 3) (a' := 3) (b' := Some 3));
        try lia; try discriminate. exact H.
    - apply (percent_word (a := 1) (b := None) (a' := 1) (b' := None));
        try lia; try discriminate. exact H. }
  now destruct G.
Qed.

(** The grouped pattern matches at a digit that stands before a percent
    sign. *)
Lemma percentage_matches_at (d : codeUnit) (post : jsstring) :
  isDigit d = true ->
  matchAt percentagePattern (d :: percent :: post) <> None.
Proof.
  intros Hd. unfold matchAt, percentagePattern, groupedPercent.
  cbn [before group after ignoreCase seqs fold_right matchK].
  cbn [length Nat.add repeatK option_map pred step matchK].
  rewrite Hd.
  cbn [length Nat.add repeatK option_map pred step matchK].
  change (isDigit percent) with false. cbv iota.
  cbn [length Nat.add repeatK option_map pred step matchK canonicalize andb].
  change ((percent =? comma)%N) with false. cbv iota.
  change ((percent =? percent)%N) with true. cbv iota.
  discriminate.
Qed.

Lemma percentage_found (s : jsstring) :
  hasDigitPercent s -> exec percentagePattern s <> None.
Proof.
  intros [pre [d [post [-> Hd]]]] H.
  apply exec_none in H. now apply (@percentage_matches_at d post Hd).
Qed.

Lemma hasDigitPercent_includes (s c : jsstring) :
  includes s c = true -> hasDigitPercent c -> hasDigitPercent s.
Proof.
  rewrite includes_infix.
  intros [pre [post ->]] [u [d [v [-> Hd]]]].
  exists (pre ++ u), d, (v ++ post). split; [|exact Hd].
  now rewrite <- !app_assoc.
Qed.

(** When the grouped pattern fails on the whole blob, the three patterns
    of the fallback fail on every field. *)
Lemma fallback_fails (rawData field : jsstring) (p : pattern) :
  exec percentagePattern rawData = None ->
  In field (splitFields rawData) ->
  In p [arrowPattern; percentagePattern; anyDigitsPattern] ->
  exec p field = None.
Proof.
  intros Hraw Hf Hp.
  destruct (exec p field) as [c|] eqn:E; [exfalso | reflexivity].
  assert (Hp' : In p [percentagePattern; arrowPattern; anyDigitsPattern])
    by (cbn in Hp |- *; tauto).
  destruct (@capture_percentage p field c Hp' E) as [_ [Hadj Hin]].
  apply (@percentage_found rawData); [|exact Hraw].
  apply (@hasDigitPercent_includes rawData c); [|exact Hadj].
  apply (includes_trans _ field); [|exact Hin].
  now apply fields_are_substrings_lemma.
Qed.

End Growth.

Section GroupedShape.

Import QuoteAware.

(** A repetition of single digits has as many characters as
    iterations. *)
Lemma digits_counted (ic : bool) (min : nat) (max : option nat)
      (w : jsstring) :
  Lang.lang ic (Quant min max Digit) w ->
  Forall (fun x => isDigit x = true) w
  /\ Lang.iterations min max (length w).
Proof.
  intros H. split; [apply (lang_mayHold ic (Quant min max Digit) w H)|].
  cbn [Lang.lang] in H. destruct H as [ws [-> [Hall Hi]]].
  replace (length (concat ws)) with (length ws); [exact Hi|].
  clear Hi. induction Hall as [|v ws [x [-> _]] _ IH]; [reflexivity|].
  cbn [concat length app]. now rewrite IH.
Qed.

Lemma grouped_word (c : jsstring) :
  Lang.lang false groupedPercent c -> groupedShaped c.
Proof.
  unfold groupedPercent. cbn [seqs fold_right]. intros H.
  cbn [Lang.lang] in H.
  destruct H as [w1 [t1 [-> [H1 [w2 [t2 [-> [H2 [w3 [t3 [-> [H3 ->]]]]]]]]]]]].
  destruct H3 as [x [-> Hx]]. cbn in Hx. apply N.eqb_eq in Hx. subst x.
  rewrite app_nil_r.
  destruct (digits_counted (ic := false) (min := 1) (max := Some 3)
                           (w := w1)) as [D1 I1];
    [exact H1|].
  destruct H2 as [ws [-> [Hall _]]].
  assert (G : exists groups,
             concat ws = concat (map (fun g => comma :: g) groups)
             /\ Forall (fun g => length g = 3
                                 /\ Forall (fun x => isDigit x = true) g)
                       groups).
  { induction Hall as [|v ws Hv _ [groups [E Hg]]]; [now exists []|].
    destruct Hv as [v1 [v2 [-> [[x [-> Hx]] Hv2]]]].
    cbn in Hx. apply N.eqb_eq in Hx. subst x.
    destruct (digits_counted (ic := false) (min := 3) (max := Some 3)
                             (w := v2)) as [D2 I2];
      [exact Hv2|].
    exists (v2 :: groups). cbn [map concat app]. rewrite E.
    split; [reflexivity|]. constructor; [|exact Hg].
    split; [cbn in I2; lia | exact D2]. }
  destruct G as [groups [E Hg]].
  exists w1, groups. rewrite E. repeat split; try assumption;
    cbn in I1; lia.
Qed.

End GroupedShape.

Section GrowthTheorems.

Import QuoteAware.

Lemma cleanTrendsData_growth (rawData : jsstring) :
  growthPercentage (cleanTrendsData rawData)
  = Spec.growth rawData (splitFields rawData).
Proof.
  unfold cleanTrendsData.
  rewrite (proj2 (proj2 (proj2 (extractRelated_fields _ _)))).
  rewrite extractGrowth_value; [reflexivity|].
  rewrite (proj2 (proj2 (extractTime_keeps _ _))).
  now rewrite (proj2 (proj2 (extractVolume_keeps _ _))).
Qed.

(** X1. The per-field fallback of the growth percentage never gives a
    value: for every blob the growth percentage is the capture of the
    grouped pattern on the whole blob, and empty when that pattern does
    not match there. *)
Theorem growth_only_from_whole_blob (rawData : jsstring) :
  growthPercentage (cleanTrendsData rawData)
  = match exec percentagePattern rawData with
    | Some capture => capture
    | None => []
    end.
Proof.
  rewrite cleanTrendsData_growth. unfold Spec.growth.
  destruct (exec percentagePattern rawData) as [c|] eqn:E; [reflexivity|].
  destruct (find _ (splitFields rawData)) as [field|] eqn:F; [|reflexivity].
  apply find_some in F. destruct F as [F _].
  cbn [Spec.firstCapture].
  rewrite !(fallback_fails rawData field E F) by (cbn; tauto).
  reflexivity.
Qed.

(** X2. For every blob the growth percentage is empty or it is one to
    three digits, then groups of a comma and three digits, then a percent
    sign. *)
Theorem growthPercentage_shape (rawData : jsstring) :
  growthPercentage (cleanTrendsData rawData) = []
  \/ groupedShaped (growthPercentage (cleanTrendsData rawData)).
Proof.
  rewrite cleanTrendsData_growth. unfold Spec.growth.
  destruct (exec percentagePattern rawData) as [c|] eqn:E.
  - right. apply exec_sound in E.
    destruct E as [_ [_ [_ [_ [_ [_ [E _]]]]]]].
    now apply grouped_word.
  - destruct (find _ (splitFields rawData)) as [field|] eqn:F; [|now left].
    apply find_some in F. destruct F as [F _].
    cbn [Spec.firstCapture].
    rewrite !(fallback_fails rawData field E F) by (cbn; tauto).
    now left.
Qed.

End GrowthTheorems.

(** ** Search volume and elapsed time *)

Section VolumeAndTime.

Import QuoteAware.

(** An optional part is there once or not at all. *)
Lemma opt_word (ic : bool) (r : regex) (w : jsstring) :
  Lang.lang ic (opt r) w -> w = [] \/ Lang.lang ic r w.
Proof.
  cbn [Lang.lang opt]. intros [ws [-> [Hall [Hle _]]]].
  destruct ws as [|v [|v' ws]]; cbn [length] in Hle; [now left | | lia].
  right. cbn [concat]. rewrite app_nil_r. now apply Forall_inv in Hall.
Qed.

(** With the [i] flag a character below [a] in the pattern matches
    itself and, when it is an upper-case letter, its lower-case form. *)
Lemma canonical_match (x c : codeUnit) :
  (c < 97)%N ->
  (canonicalize true x =? canonicalize true c)%N = true ->
  x = c \/ (x = (c + 32)%N /\ (97 <= x)%N).
Proof.
  intros Hc H. apply N.eqb_eq in H. unfold canonicalize in H.
  cbn [andb] in H.
  destruct (N.leb_spec 97 x), (N.leb_spec x 122), (N.leb_spec 97 c),
    (N.leb_spec c 122); cbn [andb] in H; lia.
Qed.

Lemma volume_word (c : jsstring) :
  Lang.lang true (group volumePattern) c -> volumeShaped c.
Proof.
  cbn [group volumePattern seqs fold_right].
  change (lit "KM") with [75%N; 77%N].
  intros H. cbn [Lang.lang] in H.
  destruct H as [w1 [t1 [-> [H1 [w2 [t2 [-> [H2 [w3 [t3 [-> [H3 ->]]]]]]]]]]]].
  rewrite app_nil_r.
  destruct (digits_word (ic := true) (min := 1) (max := None)
                        (w := w1)) as [D1 N1];
    [lia | discriminate | exact H1 |].
  exists w1, w2, w3. repeat split; try assumption.
  - apply (opt_word (ic := true)) in H2. destruct H2 as [-> | H2];
      [now left|].
    cbn [Lang.lang] in H2. destruct H2 as [x [-> Hx]].
    cbn [existsb] in Hx. rewrite orb_false_r in Hx.
    apply orb_true_iff in Hx.
    destruct Hx as [Hx | Hx]; apply canonical_match in Hx; try lia;
      destruct Hx as [-> | [-> _]]; cbn; tauto.
  - apply (opt_word (ic := true)) in H3. destruct H3 as [-> | H3];
      [now left|].
    cbn [Lang.lang] in H3. destruct H3 as [x [-> Hx]].
    apply canonical_match in Hx; [|lia].
    destruct Hx as [-> | [-> Hx]]; [cbn; tauto | lia].
Qed.

Lemma extractVolume_value (fields : list jsstring) (r : CleanedTrendData) :
  searchVolume r = [] ->
  searchVolume (extractVolume fields r) = []
  \/ exists field,
      In field fields
      /\ exec volumePattern field
         = Some (searchVolume (extractVolume fields r)).
Proof.
  intros Hr. unfold extractVolume.
  destruct (find _ fields) as [[|x field]|] eqn:F; cbn [ifTruthy];
    try (now left).
  apply find_some in F. destruct F as [F _].
  cbn [searchVolume withSearchVolume].
  destruct (exec volumePattern (x :: field)) as [c|] eqn:E; [|now left].
  right. now exists (x :: field).
Qed.

Lemma cleanTrendsData_volume (rawData : jsstring) :
  searchVolume (cleanTrendsData rawData)
  = searchVolume
      (extractVolume (splitFields rawData)
         (withTrendName (orEmpty (nth_error (splitFields rawData) 0))
                        initialResult)).
Proof.
  unfold cleanTrendsData.
  rewrite (proj1 (proj2 (extractRelated_fields _ _))).
  rewrite (proj1 (proj2 (extractGrowth_keeps _ _ _))).
  now rewrite (proj1 (proj2 (extractTime_keeps _ _))).
Qed.

Lemma simple_volume (rawData : jsstring) :
  searchVolume (Simple.cleanTrendsData rawData)
  = searchVolume
      (extractVolume (Simple.splitFields rawData)
         (withTrendName (orEmpty (nth_error (Simple.splitFields rawData) 0))
                        initialResult)).
Proof.
  unfold Simple.cleanTrendsData.
  rewrite (proj1 (proj2 (extractRelated_fields _ _))).
  unfold Simple.extractGrowth, Simple.extractTime, ifTruthy.
  repeat match goal with
         | |- context [match ?x with _ => _ end] => destruct x
         end; reflexivity.
Qed.

(** X3. For every blob, in both versions of the cleaner, the search
    volume is empty or it is one or more digits, then at most one of K
    and M in either case, then at most one plus sign. *)
Theorem searchVolume_shape (rawData : jsstring) :
  (searchVolume (cleanTrendsData rawData) = []
   \/ volumeShaped (searchVolume (cleanTrendsData rawData)))
  /\ (searchVolume (Simple.cleanTrendsData rawData) = []
      \/ volumeShaped (searchVolume (Simple.cleanTrendsData rawData))).
Proof.
  split.
  - rewrite cleanTrendsData_volume.
    destruct (extractVolume_value (splitFields rawData)
                (withTrendName (orEmpty (nth_error (splitFields rawData) 0))
                               initialResult) eq_refl)
      as [E | [field [_ E]]]; [now left | right].
    apply exec_sound in E. destruct E as [_ [_ [_ [_ [_ [_ [E _]]]]]]].
    now apply volume_word.
  - rewrite simple_volume.
    destruct (extractVolume_value (Simple.splitFields rawData)
                (withTrendName
                   (orEmpty (nth_error (Simple.splitFields rawData) 0))
                   initialResult) eq_refl)
      as [E | [field [_ E]]]; [now left | right].
    apply exec_sound in E. destruct E as [_ [_ [_ [_ [_ [_ [E _]]]]]]].
    now apply volume_word.
Qed.

Lemma cleanTrendsData_time (rawData : jsstring) :
  timeAgo (cleanTrendsData rawData)
  = Spec.elapsedTime (splitFields rawData).
Proof.
  unfold cleanTrendsData.
  rewrite (proj1 (proj2 (proj2 (extractRelated_fields _ _)))).
  rewrite (proj2 (proj2 (extractGrowth_keeps _ _ _))).
  rewrite extractTime_value; [reflexivity|].
  now rewrite (proj1 (proj2 (extractVolume_keeps _ _))).
Qed.

Lemma time_capture_not_empty (c : jsstring) :
  Lang.lang true (group timePattern) c -> c <> [].
Proof.
  cbn [group timePattern seqs fold_right]. intros H. cbn [Lang.lang] in H.
  destruct H as [w1 [t1 [-> [H1 _]]]].
  destruct (digits_word (ic := true) (min := 1) (max := None)
                        (w := w1)) as [_ N1];
    [lia | discriminate | exact H1 |].
  destruct w1; [congruence | discriminate].
Qed.

Lemma stripLeading_keeps (c x : codeUnit) (s : jsstring) :
  x <> c -> In x s -> In x (stripLeading c s).
Proof.
  intros Hx. destruct s as [|y s]; [intros []|]. cbn [stripLeading].
  destruct (y =? c)%N eqn:E; [|trivial].
  apply N.eqb_eq in E. subst y. intros [H | H]; [congruence | exact H].
Qed.

Lemma includes_holds (s needle : jsstring) (x : codeUnit) :
  includes s needle = true -> In x needle -> In x s.
Proof.
  rewrite includes_infix. intros [pre [post ->]] H.
  apply in_app_iff. right. apply in_app_iff. now left.
Qed.

(** X4. For every blob the elapsed time is empty exactly when no field
    includes [ago]. *)
Theorem timeAgo_empty_iff (rawData : jsstring) :
  timeAgo (cleanTrendsData rawData) = []
  <-> forall field,
      In field (splitFields rawData) -> includes field (lit "ago") = false.
Proof.
  rewrite cleanTrendsData_time. unfold Spec.elapsedTime.
  destruct (find _ (splitFields rawData)) as [field|] eqn:F.
  - apply find_some in F. destruct F as [Hin F]. split.
    + intros H. exfalso.
      destruct (exec timePattern field) as [c|] eqn:E.
      * apply exec_sound in E. destruct E as [_ [_ [_ [_ [_ [_ [E _]]]]]]].
        now apply time_capture_not_empty in E.
      * assert (G : isEmpty (trim (stripLeadingDot field)) = false).
        { apply trim_not_blank with (c := 97%N); [reflexivity|].
          apply stripLeading_keeps; [discriminate|].
          apply (@includes_holds field (lit "ago") 97%N F). now left. }
        rewrite H in G. discriminate.
    + intros H. rewrite (H field Hin) in F. discriminate.
  - split; [|reflexivity]. intros _ field Hin.
    now apply (find_none _ _ F).
Qed.

End VolumeAndTime.

(** ** Related searches *)

Section RelatedFacts.

Import QuoteAware.

Lemma relatedTerms_from_fields (P : jsstring -> Prop) (name : jsstring)
      (fields set : list jsstring) :
  Forall P set ->
  (forall field,
      In field fields -> keepsField name (cleanedField field) = true ->
      P (cleanedField field)) ->
  Forall P (relatedTermsOf name fields set).
Proof.
  revert set. induction fields as [|f fs IH]; intros set Hset HP;
    [exact Hset|].
  cbn [relatedTermsOf fold_left]. apply IH.
  - fold (cleanedField f).
    destruct (keepsField name (cleanedField f)) eqn:E; [|exact Hset].
    apply setAdd_Forall; [|exact Hset]. apply HP; [now left | exact E].
  - intros field Hin. apply HP. now right.
Qed.

Lemma extractRelated_from_fields (P : jsstring -> Prop)
      (fields : list jsstring) (r : CleanedTrendData) :
  (forall field,
      In field fields ->
      keepsField (trendName r) (cleanedField field) = true ->
      P (cleanedField field)) ->
  Forall P (relatedSearches (extractRelated fields r)).
Proof.
  intros HP. unfold extractRelated. cbn [relatedSearches withRelatedSearches].
  fold (relatedTermsOf (trendName r) fields []).
  pose proof (@relatedTerms_from_fields P (trendName r) fields []
                (Forall_nil P) HP) as H.
  rewrite <- (firstn_skipn 5 (relatedTermsOf _ _ _)) in H.
  now apply Forall_app in H.
Qed.

Lemma dropWhile_head (p : codeUnit -> bool) (s t : jsstring) (x : codeUnit) :
  dropWhile p s = x :: t -> p x = false.
Proof.
  induction s as [|y s IH]; cbn [dropWhile]; [discriminate|].
  destruct (p y) eqn:E; [exact IH|]. intros H. injection H as -> _. exact E.
Qed.

Lemma dropWhileEnd_last (p : codeUnit -> bool) (s u : jsstring)
      (x : codeUnit) :
  dropWhileEnd p s = u ++ [x] -> p x = false.
Proof.
  unfold dropWhileEnd. intros H.
  apply (f_equal (@rev codeUnit)) in H.
  rewrite rev_involutive, rev_app_distr in H. cbn [rev app] in H.
  now apply dropWhile_head in H.
Qed.

Lemma dropWhileEnd_first (p : codeUnit -> bool) (s t : jsstring)
      (x : codeUnit) :
  dropWhileEnd p (dropWhile p s) = x :: t -> p x = false.
Proof.
  intros H.
  destruct (dropWhileEnd_prefix p (dropWhile p s)) as [post G].
  rewrite H in G. cbn [app] in G. now apply dropWhile_head in G.
Qed.

(** A trimmed string has no white space at either end. *)
Lemma trim_ends (s : jsstring) :
  (forall x t, trim s = x :: t -> isWhiteSpace x = false)
  /\ (forall u x, trim s = u ++ [x] -> isWhiteSpace x = false).
Proof.
  unfold trim. split.
  - intros x t. apply dropWhileEnd_first.
  - intros u x. apply dropWhileEnd_last.
Qed.

Lemma kept_entry_shape (name field : jsstring) :
  keepsField name (cleanedField field) = true ->
  3 < length (cleanedField field)
  /\ forallb (fun c => isLetter c || isWhiteSpace c) (cleanedField field)
     = true
  /\ isLetter (hd 0%N (cleanedField field)) = true
  /\ isLetter (last (cleanedField field) 0%N) = true.
Proof.
  unfold keepsField. rewrite !andb_true_iff.
  intros [[[[[[Hlen _] _] _] _] _] Hls].
  apply Nat.ltb_lt in Hlen.
  unfold lettersAndSpaces in Hls. apply andb_true_iff in Hls.
  destruct Hls as [_ Hall].
  split; [exact Hlen|]. split; [exact Hall|].
  rewrite forallb_forall in Hall.
  destruct (trim_ends (stripDots field)) as [Hfirst Hlast].
  fold (cleanedField field) in Hfirst, Hlast.
  destruct (cleanedField field) as [|x t] eqn:E; [cbn in Hlen; lia|].
  split.
  - cbn [hd]. specialize (Hall x (or_introl eq_refl)).
    rewrite (Hfirst x t eq_refl), orb_false_r in Hall. exact Hall.
  - assert (Hne : x :: t <> []) by discriminate.
    destruct (exists_last Hne) as [u [y Hu]].
    rewrite Hu, last_last.
    assert (Hy : In y (x :: t))
      by (rewrite Hu; apply in_app_iff; right; now left).
    specialize (Hall y Hy).
    rewrite (Hlast u y Hu), orb_false_r in Hall. exact Hall.
Qed.

(** X5. For every blob, in both versions of the cleaner, every related
    search has more than three characters, holds only ASCII letters and
    white space, and begins and ends with a letter. *)
Theorem relatedSearches_entries (rawData entry : jsstring) :
  In entry (relatedSearches (cleanTrendsData rawData))
  \/ In entry (relatedSearches (Simple.cleanTrendsData rawData)) ->
  3 < length entry
  /\ forallb (fun c => isLetter c || isWhiteSpace c) entry = true
  /\ isLetter (hd 0%N entry) = true
  /\ isLetter (last entry 0%N) = true.
Proof.
  intros H.
  assert (G : exists fields r,
             In entry (relatedSearches (extractRelated fields r))).
  { destruct H as [H | H]; unfold cleanTrendsData, Simple.cleanTrendsData in H;
      eauto. }
  destruct G as [fields [r G]]. clear H. revert entry G.
  apply Forall_forall.
  apply extractRelated_from_fields.
  intros field _. apply kept_entry_shape.
Qed.

Lemma filter_twice {X : Type} (p q : X -> bool) (l : list X) :
  filter p (filter q l) = filter (fun x => q x && p x) l.
Proof.
  induction l as [|x l IH]; cbn [filter]; [reflexivity|].
  destruct (q x); cbn [filter andb]; [|exact IH].
  destruct (p x); now rewrite IH.
Qed.

Lemma filter_same {X : Type} (p q : X -> bool) (l : list X) :
  (forall x, p x = q x) -> filter p l = filter q l.
Proof.
  intros H. induction l as [|x l IH]; cbn [filter]; [reflexivity|].
  now rewrite H, IH.
Qed.

Lemma eqbString_sym (a b : jsstring) : eqbString a b = eqbString b a.
Proof.
  destruct (eqbString a b) eqn:E, (eqbString b a) eqn:F; try reflexivity.
  - apply eqbString_true in E. subst.
    assert (eqbString b b = true) by now apply eqbString_true.
    congruence.
  - apply eqbString_true in F. subst.
    assert (eqbString a a = true) by now apply eqbString_true.
    congruence.
Qed.

(** Adding the elements of a list to a set one by one. *)
Lemma setAdd_all (l set : list jsstring) :
  fold_left (fun set x => setAdd x set) l set
  = set ++ filter (fun y => negb (existsb (eqbString y) set)) (firstSeen l).
Proof.
  revert set. induction l as [|x l IH]; intros set; cbn [fold_left firstSeen].
  - now rewrite app_nil_r.
  - rewrite IH. unfold setAdd at 1 2. cbn [filter].
    destruct (existsb (eqbString x) set) eqn:E; cbn [negb].
    + f_equal. rewrite filter_twice. apply filter_same. intros y.
      destruct (eqbString y x) eqn:F; [|reflexivity].
      apply eqbString_true in F. subst y. now rewrite E.
    + rewrite <- app_assoc. cbn [app]. do 2 f_equal.
      rewrite filter_twice. apply filter_same. intros y.
      rewrite existsb_app. cbn [existsb]. rewrite orb_false_r, negb_orb.
      apply andb_comm.
Qed.

Lemma relatedTerms_firstSeen (name : jsstring) (fields set : list jsstring) :
  relatedTermsOf name fields set
  = fold_left (fun set x => setAdd x set)
              (filter (keepsField name) (map cleanedField fields)) set.
Proof.
  revert set. induction fields as [|f fs IH]; intros set; [reflexivity|].
  cbn [relatedTermsOf fold_left map filter]. fold (cleanedField f).
  destruct (keepsField name (cleanedField f)); cbn [fold_left]; apply IH.
Qed.

Lemma extractRelated_firstSeen (fields : list jsstring)
      (r : CleanedTrendData) :
  relatedSearches (extractRelated fields r)
  = firstn 5 (firstSeen (filter (keepsField (trendName r))
                                (map cleanedField fields))).
Proof.
  unfold extractRelated. cbn [relatedSearches withRelatedSearches].
  fold (relatedTermsOf (trendName r) fields []).
  rewrite relatedTerms_firstSeen, setAdd_all. cbn [app existsb negb].
  f_equal. clear. induction (firstSeen _) as [|x l IH]; [reflexivity|].
  cbn [filter]. now rewrite IH.
Qed.

(** X6. For every blob the related searches are the first five, in the
    order of the fields, of the distinct cleaned fields that pass the
    filter: a field seen before is not added again, and what comes after
    the fifth is dropped. *)
Theorem relatedSearches_first_five (rawData : jsstring) :
  relatedSearches (cleanTrendsData rawData)
  = firstn 5
      (firstSeen
         (filter (keepsField (trendName (cleanTrendsData rawData)))
                 (map (fun field => trim (stripDots field))
                      (splitFields rawData)))).
Proof.
  destruct (cleanTrendsData_related rawData) as [r [Hname ->]].
  rewrite extractRelated_firstSeen, Hname. reflexivity.
Qed.

End RelatedFacts.

(** ** The cleaner invents no text *)

Section Provenance.

Import QuoteAware.

Lemma stripDots_includes (s : jsstring) : includes s (stripDots s) = true.
Proof.
  unfold stripDots.
  destruct (dropWhile_suffix (fun c => (c =? middleDot)%N) s) as [pre H].
  destruct (dropWhileEnd_prefix (fun c => (c =? middleDot)%N)
              (dropWhile (fun c => (c =? middleDot)%N) s)) as [post G].
  apply includes_infix. exists pre, post. now rewrite <- G.
Qed.

Lemma cleanedField_includes (s : jsstring) :
  includes s (cleanedField s) = true.
Proof.
  unfold cleanedField.
  apply (includes_trans _ (stripDots s));
    [apply stripDots_includes | apply trim_includes].
Qed.

Lemma stripLeadingDot_includes (s : jsstring) :
  includes s (stripLeadingDot s) = true.
Proof.
  unfold stripLeadingDot.
  destruct (stripLeading_suffix middleDot s) as [pre H].
  rewrite H at 1. apply includes_suffix.
Qed.

(** X7. For every blob every value of the record stands in the blob as it
    is: the trend name, the search volume, the elapsed time, the growth
    percentage and every related search are substrings of the blob. *)
Theorem values_are_substrings (rawData : jsstring) :
  includes rawData (trendName (cleanTrendsData rawData)) = true
  /\ includes rawData (searchVolume (cleanTrendsData rawData)) = true
  /\ includes rawData (timeAgo (cleanTrendsData rawData)) = true
  /\ includes rawData (growthPercentage (cleanTrendsData rawData)) = true
  /\ forall entry,
      In entry (relatedSearches (cleanTrendsData rawData)) ->
      includes rawData entry = true.
Proof.
  assert (Hfield : forall field,
             In field (splitFields rawData) ->
             includes rawData field = true)
    by apply fields_are_substrings_lemma.
  repeat split.
  - rewrite cleanTrendsData_trendName.
    destruct (splitFields rawData) as [|f fs]; [apply includes_empty|].
    cbn [nth_error]. rewrite orEmpty_some. apply Hfield. now left.
  - rewrite cleanTrendsData_volume.
    destruct (extractVolume_value (splitFields rawData)
                (withTrendName (orEmpty (nth_error (splitFields rawData) 0))
                               initialResult) eq_refl)
      as [-> | [field [Hin E]]]; [apply includes_empty|].
    apply exec_includes in E.
    apply (includes_trans _ field); [now apply Hfield | exact E].
  - rewrite cleanTrendsData_time. unfold Spec.elapsedTime.
    destruct (find _ (splitFields rawData)) as [field|] eqn:F;
      [|apply includes_empty].
    apply find_some in F. destruct F as [Hin _].
    apply (includes_trans _ field); [now apply Hfield|].
    destruct (exec timePattern field) as [c|] eqn:E;
      [now apply exec_includes in E|].
    apply (includes_trans _ (stripLeadingDot field));
      [apply stripLeadingDot_includes | apply trim_includes].
  - rewrite cleanTrendsData_growth. unfold Spec.growth.
    destruct (exec percentagePattern rawData) as [c|] eqn:E;
      [now apply exec_includes in E|].
    destruct (find _ (splitFields rawData)) as [field|] eqn:F;
      [|apply includes_empty].
    apply find_some in F. destruct F as [F _].
    cbn [Spec.firstCapture].
    rewrite !(fallback_fails rawData field E F) by (cbn; tauto).
    apply includes_empty.
  - destruct (cleanTrendsData_related rawData) as [r [_ ->]].
    apply Forall_forall. apply extractRelated_from_fields.
    intros field Hin _.
    apply (includes_trans _ field);
      [now apply Hfield | apply cleanedField_includes].
Qed.

End Provenance.

(** ** The two splitters on blobs without double quotes *)

Section QuoteFree.

Import QuoteAware.

Lemma split_not_nil (sep : codeUnit) (s : jsstring) : split sep s <> [].
Proof.
  destruct s as [|c t]; cbn [split]; [discriminate|].
  destruct (c =? sep)%N; [discriminate|].
  destruct (split sep t); discriminate.
Qed.

Lemma split_snoc (sep c : codeUnit) (l : jsstring) :
  split sep (l ++ [c])
  = if (c =? sep)%N then split sep l ++ [[]]
    else removelast (split sep l) ++ [last (split sep l) [] ++ [c]].
Proof.
  induction l as [|x l IH].
  - cbn. now destruct (c =? sep)%N.
  - cbn [app split]. rewrite IH.
    pose proof (split_not_nil sep l) as Hne.
    destruct (split sep l) as [|p r] eqn:E; [congruence|].
    destruct (x =? sep)%N, (c =? sep)%N; try reflexivity.
    all: destruct r as [|q r]; try reflexivity.
    all: cbn [removelast last app].
    all: destruct (removelast (q :: r) ++ [last (q :: r) [] ++ [c]]) eqn:F;
      try reflexivity.
    all: apply app_eq_nil in F; destruct F as [_ F]; discriminate.
Qed.

Lemma split_pieces_chars (sep x : codeUnit) (s piece : jsstring) :
  In piece (split sep s) -> In x piece -> In x s /\ x <> sep.
Proof.
  revert piece. induction s as [|c t IH]; intros piece; cbn [split].
  - intros [<- | []] [].
  - destruct (c =? sep)%N eqn:E.
    + intros [<- | H] Hx; [destruct Hx|].
      destruct (IH piece H Hx). split; [now right | assumption].
    + apply N.eqb_neq in E.
      pose proof (split_not_nil sep t) as Hne.
      destruct (split sep t) as [|p r]; [congruence|].
      intros [<- | H] Hx.
      * destruct Hx as [<- | Hx]; [split; [now left | assumption]|].
        destruct (IH p (or_introl eq_refl) Hx). split; [now right | assumption].
      * destruct (IH piece (or_intror H) Hx). split; [now right | assumption].
Qed.

Lemma stripLeading_absent (c : codeUnit) (s : jsstring) :
  ~ In c s -> stripLeading c s = s.
Proof.
  destruct s as [|x s]; [reflexivity|]. cbn [stripLeading].
  destruct (x =? c)%N eqn:E; [|reflexivity].
  apply N.eqb_eq in E. subst. intros H. exfalso. apply H. now left.
Qed.

Lemma stripWrappingQuotes_absent (s : jsstring) :
  ~ In quote s -> stripWrappingQuotes s = s.
Proof.
  intros H. unfold stripWrappingQuotes, stripTrailing.
  rewrite (@stripLeading_absent quote s H).
  rewrite stripLeading_absent; [apply rev_involutive|].
  intros G. apply H. now apply in_rev.
Qed.

Lemma fieldOf_quote_free (s : jsstring) :
  ~ In quote s -> fieldOf s = trim s.
Proof.
  intros H. unfold fieldOf. apply stripWrappingQuotes_absent.
  intros G. apply H.
  apply (@includes_holds s (trim s) quote (trim_includes s)) in G.
  exact G.
Qed.

Lemma firstn_charAt (rawData : jsstring) (n : nat) :
  n < length rawData ->
  firstn (S n) rawData = firstn n rawData ++ [charAt rawData n].
Proof. intros H. symmetry. now apply firstn_snoc. Qed.

(** Without double quotes the loop is the split on every comma, the last
    piece still open. *)
Lemma splitLoop_quote_free (rawData : jsstring) (n : nat) :
  ~ In quote rawData -> n <= length rawData ->
  inQuotes (splitLoop rawData n) = false
  /\ fields (splitLoop rawData n)
     = map fieldOf (removelast (split comma (firstn n rawData)))
  /\ current (splitLoop rawData n)
     = last (split comma (firstn n rawData)) [].
Proof.
  intros Hq. induction n as [|n IH]; intros Hn; [now repeat split|].
  destruct IH as [Hi [Hf Hc]]; [lia|].
  rewrite splitLoop_S, firstn_charAt, split_snoc by lia.
  unfold splitStep.
  assert (Q : (charAt rawData n =? quote)%N = false).
  { apply N.eqb_neq. intros E. apply Hq. rewrite <- E.
    apply nth_In. lia. }
  rewrite Q, Hi. cbn [andb negb].
  pose proof (split_not_nil comma (firstn n rawData)) as Hne.
  destruct (charAt rawData n =? comma)%N; cbn [fields current inQuotes].
  - rewrite removelast_last, last_last, Hf, Hc, <- map_last.
    now rewrite <- app_removelast_last.
  - rewrite removelast_last, last_last, Hf, Hc. now repeat split.
Qed.

Lemma pieces_quote_free (rawData piece : jsstring) :
  ~ In quote rawData -> In piece (split comma rawData) -> ~ In quote piece.
Proof.
  intros Hq Hin Hx.
  now destruct (split_pieces_chars comma quote rawData piece Hin Hx).
Qed.

Lemma splitFields_quote_free (rawData : jsstring) :
  ~ In quote rawData ->
  splitFields rawData = map trim (withoutEmptyTail (split comma rawData)).
Proof.
  intros Hq. unfold splitFields, withoutEmptyTail.
  destruct (@splitLoop_quote_free rawData (length rawData) Hq
                                  (Nat.le_refl _)) as [_ [Hf Hc]].
  rewrite firstn_all in Hf, Hc. rewrite Hf, Hc.
  pose proof (split_not_nil comma rawData) as Hne.
  destruct (isEmpty (last (split comma rawData) [])).
  - apply map_ext_in. intros piece Hin. apply fieldOf_quote_free.
    apply (@pieces_quote_free rawData _ Hq).
    rewrite (app_removelast_last [] Hne).
    apply in_app_iff. now left.
  - rewrite <- map_last, <- app_removelast_last by assumption.
    apply map_ext_in. intros piece Hin. apply fieldOf_quote_free.
    now apply (@pieces_quote_free rawData _ Hq).
Qed.

(** X8. For every blob without a double quote the quote-aware cleaner
    sees the fields the simple cleaner sees, except that it drops a last
    field that is empty before trimming: both split on every comma and
    trim each piece. *)
Theorem splitters_agree_without_quotes (rawData : jsstring) :
  ~ In quote rawData ->
  splitFields rawData = map trim (withoutEmptyTail (split comma rawData))
  /\ Simple.splitFields rawData = map trim (split comma rawData).
Proof.
  intros Hq. split; [now apply splitFields_quote_free|].
  unfold Simple.splitFields. apply map_ext_in. intros piece Hin.
  f_equal. unfold removeQuotes. apply filter_all. apply Forall_forall.
  intros x Hx. apply negb_true_iff, N.eqb_neq. intros ->.
  now apply (@pieces_quote_free rawData piece Hq Hin).
Qed.

Lemma split_join (sep : codeUnit) (parts : list jsstring) :
  parts <> [] -> Forall (fun p => ~ In sep p) parts ->
  split sep (join [sep] parts) = parts.
Proof.
  induction parts as [|p rest IH]; intros Hne Hall; [congruence|].
  apply Forall_cons_iff in Hall. destruct Hall as [Hp Hall].
  destruct rest as [|q rest].
  - cbn [join]. now apply split_whole.
  - change (join [sep] (p :: q :: rest))
      with (p ++ sep :: join [sep] (q :: rest)).
    rewrite split_at by assumption. f_equal.
    apply IH; [discriminate | exact Hall].
Qed.

(** X9. A row given as fragments that are not empty and hold no comma
    and no double quote is split back into its fragments: the fields are
    the fragments, each trimmed. *)
Theorem fragments_become_fields (fragments : list jsstring) :
  Forall (fun fragment =>
            fragment <> [] /\ ~ In comma fragment /\ ~ In quote fragment)
         fragments ->
  splitFields (join [comma] fragments) = map trim fragments.
Proof.
  intros Hall. destruct fragments as [|f fs]; [reflexivity|].
  assert (Hne : f :: fs <> []) by discriminate.
  rewrite splitFields_quote_free.
  - rewrite split_join; [|exact Hne|].
    + unfold withoutEmptyTail.
      destruct (isEmpty (last (f :: fs) [])) eqn:E; [|reflexivity].
      exfalso. rewrite Forall_forall in Hall.
      assert (Hl : In (last (f :: fs) []) (f :: fs)).
      { rewrite (app_removelast_last [] Hne) at 2.
        apply in_app_iff. right. now left. }
      destruct (Hall _ Hl) as [Hl' _].
      now destruct (last (f :: fs) []).
    + eapply Forall_impl; [|exact Hall]. now intros p [_ [Hp _]].
  - intros Hq. apply in_join in Hq. destruct Hq as [[Hq | []] | [p [Hp Hq]]].
    + discriminate.
    + rewrite Forall_forall in Hall. now destruct (Hall p Hp) as [_ [_ Hp']].
Qed.

End QuoteFree.

(** ** The fields of the simple cleaner *)

Section SimpleFields.

Lemma dropWhile_id (p : codeUnit -> bool) (s : jsstring) :
  (forall x t, s = x :: t -> p x = false) -> dropWhile p s = s.
Proof.
  destruct s as [|x t]; [reflexivity|]. intros H. cbn [dropWhile].
  now rewrite (H x t eq_refl).
Qed.

Lemma dropWhileEnd_id (p : codeUnit -> bool) (s : jsstring) :
  (forall u x, s = u ++ [x] -> p x = false) -> dropWhileEnd p s = s.
Proof.
  intros H. unfold dropWhileEnd. rewrite dropWhile_id; [apply rev_involutive|].
  intros x t E. apply (H (rev t) x).
  rewrite <- (rev_involutive s), E. reflexivity.
Qed.

Lemma trim_idempotent (s : jsstring) : trim (trim s) = trim s.
Proof.
  destruct (trim_ends s) as [Hfirst Hlast].
  unfold trim at 1. rewrite dropWhile_id by exact Hfirst.
  now apply dropWhileEnd_id.
Qed.

Lemma split_length (sep : codeUnit) (s : jsstring) :
  length (split sep s) = S (count_occ N.eq_dec s sep).
Proof.
  induction s as [|c t IH]; [reflexivity|]. cbn [split count_occ].
  pose proof (split_not_nil sep t) as Hne.
  destruct (N.eq_dec c sep) as [-> | Hc].
  - rewrite N.eqb_refl. cbn [length]. now rewrite IH.
  - apply N.eqb_neq in Hc. rewrite Hc.
    destruct (split sep t) as [|p r]; [congruence|]. exact IH.
Qed.

Lemma simple_field_no_comma (rawData field : jsstring) :
  In field (Simple.splitFields rawData) -> ~ In comma field.
Proof.
  unfold Simple.splitFields. intros Hin Hx. apply in_map_iff in Hin.
  destruct Hin as [piece [<- Hin]].
  apply (@includes_holds _ _ comma (trim_includes _)) in Hx.
  unfold removeQuotes in Hx. apply filter_In in Hx.
  destruct Hx as [Hx _].
  now destruct (split_pieces_chars comma comma rawData piece Hin Hx).
Qed.

(** X10. The simple cleaner gives one field more than the blob has
    commas, never none, and no field holds a comma or a double quote or
    has white space at either end. *)
Theorem simple_fields (rawData : jsstring) :
  length (Simple.splitFields rawData)
  = S (count_occ N.eq_dec rawData comma)
  /\ forall field,
      In field (Simple.splitFields rawData) ->
      ~ In comma field /\ ~ In quote field /\ trim field = field.
Proof.
  split.
  - unfold Simple.splitFields. rewrite length_map. apply split_length.
  - intros field Hin.
    split; [now apply (@simple_field_no_comma rawData)|].
    unfold Simple.splitFields in Hin. apply in_map_iff in Hin.
    destruct Hin as [piece [<- Hin]].
    split; [|apply trim_idempotent].
    intros Hx.
    apply (@includes_holds _ _ quote (trim_includes _)) in Hx.
    unfold removeQuotes in Hx. apply filter_In in Hx.
    destruct Hx as [_ Hx]. now rewrite N.eqb_refl in Hx.
Qed.

Lemma simple_growth (rawData : jsstring) :
  growthPercentage (Simple.cleanTrendsData rawData) = []
  \/ exists field,
      In field (Simple.splitFields rawData)
      /\ exec Simple.growthPattern field
         = Some (growthPercentage (Simple.cleanTrendsData rawData)).
Proof.
  unfold Simple.cleanTrendsData.
  rewrite (proj2 (proj2 (proj2 (extractRelated_fields _ _)))).
  unfold Simple.extractGrowth.
  match goal with
  | |- context [ifTruthy ?o _ ?r] =>
      assert (G : growthPercentage r = []);
      [|destruct o as [[|x field]|] eqn:F; cbn [ifTruthy]; try (now left)]
  end.
  - unfold Simple.extractTime, extractVolume, ifTruthy.
    repeat match goal with
           | |- context [match ?x with _ => _ end] => destruct x
           end; reflexivity.
  - apply find_some in F. destruct F as [F _].
    cbn [growthPercentage withGrowthPercentage].
    destruct (exec Simple.growthPattern (x :: field)) as [c|] eqn:E;
      [|now left].
    right. now exists (x :: field).
Qed.

(** X17. The simple cleaner never returns a grouped percentage: for
    every blob its growth percentage is empty or it is one or more
    digits and a percent sign, without any comma. *)
Theorem simple_growth_has_no_comma (rawData : jsstring) :
  growthPercentage (Simple.cleanTrendsData rawData) = []
  \/ exists digits,
      growthPercentage (Simple.cleanTrendsData rawData)
      = digits ++ [percent]
      /\ digits <> []
      /\ Forall (fun x => isDigit x = true) digits.
Proof.
  destruct (simple_growth rawData) as [E | [field [Hin E]]]; [now left|].
  right. pose proof (exec_includes _ _ E) as Hinc.
  apply exec_sound in E. destruct E as [_ [_ [_ [_ [_ [_ [E _]]]]]]].
  cbn [group Simple.growthPattern seqs fold_right ignoreCase] in E.
  cbn [Lang.lang] in E.
  destruct E as [w1 [t1 [E1 [H1 [w2 [t2 [-> [H2 E]]]]]]]].
  destruct E as [w3 [t3 [-> [H3 [w4 [t4 [-> [H4 ->]]]]]]]].
  destruct H4 as [x [-> Hx]]. cbn in Hx. apply N.eqb_eq in Hx. subst x.
  rewrite app_nil_r in E1.
  assert (Hc : ~ In comma (growthPercentage (Simple.cleanTrendsData rawData))).
  { intros Hx. apply (@simple_field_no_comma rawData field Hin).
    now apply (@includes_holds _ _ comma Hinc). }
  destruct (digits_word (ic := false) (min := 1) (max := None)
                        (w := w1)) as [D1 N1];
    [lia | discriminate | exact H1 |].
  assert (D3 : Forall (fun x => isDigit x = true) w3)
    by apply (lang_mayHold false (Quant 0 None Digit) w3 H3).
  fold (opt (Char comma)) in H2.
  apply (opt_word (ic := false)) in H2. destruct H2 as [-> | H2].
  - exists (w1 ++ w3). rewrite E1. split; [now rewrite <- app_assoc|].
    split; [now destruct w1 | now apply Forall_app].
  - exfalso. apply Hc. rewrite E1. cbn [Lang.lang] in H2.
    destruct H2 as [x [-> Hx]]. cbn in Hx. apply N.eqb_eq in Hx. subst x.
    apply in_app_iff. right. now left.
Qed.

End SimpleFields.

(** ** What the line parser returns *)

Section ParsedTrends.

Lemma orEmpty_cases (o : option jsstring) :
  orEmpty o = [] \/ o = Some (orEmpty o).
Proof. destruct o as [[|c t]|]; cbn; auto. Qed.

Lemma evaluateTopics_lines (csvContent : jsstring) (r : CleanedTrendData) :
  In r (evaluateTopics csvContent) ->
  exists line,
    In line (split newline csvContent) /\ parseLine line = Some r.
Proof.
  unfold evaluateTopics. rewrite parse_loop. cbn [app].
  intros H. apply in_flat_map in H. destruct H as [line [Hl H]].
  apply filter_In in Hl. destruct Hl as [Hl _].
  exists line. split.
  - destruct (split newline csvContent) as [|h t]; [destruct Hl|].
    now right.
  - unfold parsedOf in H. destruct (parseLine line) as [r'|]; [|destruct H].
    destruct H as [-> | []]. reflexivity.
Qed.

(** A part of a line: trimmed, and with the characters of the line
    except the comma. *)
Lemma part_plain (line part : jsstring) :
  ~ In newline line ->
  In part (map (fun field => trim (stripWrappingQuotes field))
               (split comma line)) ->
  Spec.plainValue part = true.
Proof.
  intros Hn Hin. apply in_map_iff in Hin. destruct Hin as [piece [<- Hin]].
  assert (Hc : forall x,
             In x (trim (stripWrappingQuotes piece)) -> In x piece).
  { intros x Hx.
    apply (@includes_holds _ _ x (trim_includes _)) in Hx.
    now apply (@includes_holds _ _ x (stripWrappingQuotes_includes _)) in Hx. }
  unfold Spec.plainValue. rewrite !andb_true_iff, !negb_true_iff.
  repeat split.
  - apply existsb_eqb_false. intros Hx. apply Hc in Hx.
    now destruct (split_pieces_chars comma comma line piece Hin Hx).
  - apply existsb_eqb_false. intros Hx. apply Hc in Hx.
    now destruct (split_pieces_chars comma newline line piece Hin Hx).
  - apply eqbString_true, trim_idempotent.
Qed.

Lemma value_plain (parts : list jsstring) (i : nat) :
  (forall part, In part parts -> Spec.plainValue part = true) ->
  Spec.plainValue (orEmpty (nth_error parts i)) = true.
Proof.
  intros H. destruct (orEmpty_cases (nth_error parts i)) as [-> | E];
    [reflexivity|].
  apply H. now apply nth_error_In in E.
Qed.

Lemma plainRecord_intro (name volume time growth : jsstring)
      (related : list jsstring) :
  name <> [] ->
  Spec.plainValue name = true -> Spec.plainValue volume = true ->
  Spec.plainValue time = true -> Spec.plainValue growth = true ->
  forallb (fun term => negb (existsb (N.eqb newline) term)) related = true ->
  Spec.plainRecord {| trendName := name; searchVolume := volume;
                      timeAgo := time; growthPercentage := growth;
                      relatedSearches := related |} = true.
Proof.
  intros Hne Hn Hv Ht Hg Hr. unfold Spec.plainRecord.
  cbn [trendName searchVolume timeAgo growthPercentage relatedSearches].
  rewrite Hn, Hv, Ht, Hg, Hr. now destruct name.
Qed.

Lemma parseLine_plain (line : jsstring) (r : CleanedTrendData) :
  ~ In newline line -> parseLine line = Some r -> Spec.plainRecord r = true.
Proof.
  intros Hn H. unfold parseLine in H. cbv zeta in H.
  set (parts := map (fun field => trim (stripWrappingQuotes field))
                    (split comma line)) in H.
  assert (Hp : forall part, In part parts -> Spec.plainValue part = true)
    by (intros part; apply part_plain; exact Hn).
  destruct (truthy (nth_error parts 0)) eqn:T; [|discriminate H].
  change (negb true) with false in H. cbv iota in H.
  apply (f_equal (fun o => match o with Some x => x | None => r end)) in H.
  cbv beta iota in H. rewrite <- H.
  apply plainRecord_intro; try (apply value_plain; exact Hp).
  - destruct (nth_error parts 0) as [[|c t]|]; discriminate.
  - destruct (nth_error parts 4) as [[|c t]|] eqn:E; cbn [ifTruthy];
      try reflexivity.
    apply forallb_forall. intros term Hterm.
    apply in_map_iff in Hterm. destruct Hterm as [piece [<- Hpiece]].
    apply negb_true_iff, existsb_eqb_false. intros Hx.
    apply (@includes_holds _ _ newline (trim_includes _)) in Hx.
    destruct (split_pieces_chars semicolon newline (c :: t) piece Hpiece Hx)
      as [Hx' _].
    apply nth_error_In in E. apply Hp in E.
    apply plainValue_true in E. now destruct E as [_ [E _]].
Qed.

Lemma evaluateTopics_plain (csvContent : jsstring) :
  forallb Spec.plainRecord (evaluateTopics csvContent) = true.
Proof.
  apply forallb_forall. intros r Hr.
  apply evaluateTopics_lines in Hr. destruct Hr as [line [Hl Hr]].
  apply (@parseLine_plain line); [|exact Hr].
  intros Hx.
  now destruct (split_pieces_chars newline newline csvContent line Hl Hx).
Qed.

(** X11. Whatever the text of the file, every trend the evaluator reads
    from it has a trend name that is not empty, and its trend name, search
    volume, elapsed time and growth percentage hold no comma and no line
    feed and have no white space at either end. *)
Theorem parsed_trends_are_plain (csvContent : jsstring)
        (r : CleanedTrendData) :
  In r (evaluateTopics csvContent) ->
  trendName r <> []
  /\ Forall (fun v => ~ In comma v /\ ~ In newline v /\ trim v = v)
            [trendName r; searchVolume r; timeAgo r; growthPercentage r].
Proof.
  intros Hr.
  pose proof (evaluateTopics_plain csvContent) as H.
  rewrite forallb_forall in H. specialize (H r Hr).
  destruct (plainRecord_true r H) as [Hn [H1 [H2 [H3 [H4 _]]]]].
  split; [exact Hn|]. now repeat constructor.
Qed.

(** X12. Writing the trends read from a file back with the serializer and
    reading them again gives the same trend names, search volumes,
    elapsed times and growth percentages: one pass through the parser
    makes the round trip exact. *)
Theorem parse_serialize_parse (csvContent : jsstring) :
  map Spec.coreFields
      (evaluateTopics (convertCleanedDataToCSV (evaluateTopics csvContent)))
  = map Spec.coreFields (evaluateTopics csvContent).
Proof.
  pose proof (evaluateTopics_plain csvContent) as H.
  generalize dependent (evaluateTopics csvContent). intros rs H.
  unfold evaluateTopics.
  rewrite convert_table, table_lines, parse_loop by assumption.
  now apply parsed_lines.
Qed.

End ParsedTrends.

(** ** The whole record through the file *)

Section FullRoundTrip.

Lemma trim_leading_space (t : jsstring) : trim (32%N :: t) = trim t.
Proof. reflexivity. Qed.

Lemma split_terms (t : jsstring) (rest : list jsstring) :
  Forall (fun term => ~ In semicolon term) (t :: rest) ->
  split semicolon (join (lit "; ") (t :: rest))
  = t :: map (fun term => 32%N :: term) rest.
Proof.
  revert t. induction rest as [|q rest IH]; intros t Hall;
    apply Forall_cons_iff in Hall; destruct Hall as [Ht Hall].
  - cbn [join map]. now apply split_whole.
  - change (join (lit "; ") (t :: q :: rest))
      with (t ++ semicolon :: 32%N :: join (lit "; ") (q :: rest)).
    rewrite split_at by assumption. f_equal.
    cbn [split]. change ((32 =? semicolon)%N) with false. cbv iota.
    now rewrite IH.
Qed.

Lemma join_starts (sep t : jsstring) (rest : list jsstring) :
  exists tail, join sep (t :: rest) = t ++ tail.
Proof.
  destruct rest as [|q rest]; [exists []; now rewrite app_nil_r|].
  now exists (sep ++ join sep (q :: rest)).
Qed.

Lemma join_ends (sep : jsstring) (parts : list jsstring) :
  parts <> [] -> exists front, join sep parts = front ++ last parts [].
Proof.
  induction parts as [|p rest IH]; intros Hne; [congruence|].
  destruct rest as [|q rest]; [now exists []|].
  destruct IH as [front E]; [discriminate|].
  exists (p ++ sep ++ front).
  change (join sep (p :: q :: rest)) with (p ++ sep ++ join sep (q :: rest)).
  rewrite E, <- !app_assoc. reflexivity.
Qed.

Lemma plainTerm_true (term : jsstring) :
  plainTerm term = true ->
  term <> [] /\ ~ In comma term /\ ~ In semicolon term
  /\ ~ In newline term /\ trim term = term.
Proof.
  unfold plainTerm. rewrite !andb_true_iff, !negb_true_iff.
  intros [[[[Hne Hc] Hs] Hn] Ht].
  apply existsb_eqb_false in Hc. apply existsb_eqb_false in Hs.
  apply existsb_eqb_false in Hn. apply eqbString_true in Ht.
  repeat split; try assumption. now destruct term.
Qed.

(** The cell of the related searches is trimmed when its terms are. *)
Lemma join_trimmed (t : jsstring) (rest : list jsstring) :
  forallb plainTerm (t :: rest) = true ->
  trim (join (lit "; ") (t :: rest)) = join (lit "; ") (t :: rest)
  /\ join (lit "; ") (t :: rest) <> [].
Proof.
  intros Hall. rewrite forallb_forall in Hall.
  destruct (plainTerm_true _ (Hall t (or_introl eq_refl)))
    as [Hne [_ [_ [_ Ht]]]].
  destruct (join_starts (lit "; ") t rest) as [tail E].
  assert (Hl : In (last (t :: rest) []) (t :: rest)).
  { assert (N : t :: rest <> []) by discriminate.
    rewrite (app_removelast_last [] N) at 2.
    apply in_app_iff. right. now left. }
  destruct (plainTerm_true _ (Hall _ Hl)) as [Hlne [_ [_ [_ Hlt]]]].
  destruct (@join_ends (lit "; ") (t :: rest)) as [front F]; [discriminate|].
  split.
  - unfold trim. rewrite dropWhile_id.
    + apply dropWhileEnd_id. intros u x G. rewrite F in G.
      destruct (exists_last Hlne) as [u' [x' L]]. rewrite L in G.
      rewrite app_assoc in G. apply app_inj_tail in G. destruct G as [_ <-].
      apply (proj2 (trim_ends (last (t :: rest) [])) u'). now rewrite Hlt.
    + intros x s G. rewrite E in G. destruct t as [|y t']; [congruence|].
      injection G as <- _.
      apply (proj1 (trim_ends (y :: t')) y t'). exact Ht.
  - rewrite E. destruct t; [congruence | discriminate].
Qed.

Lemma recordLine_parsed (r : CleanedTrendData) :
  Spec.plainRecord r = true ->
  forallb plainTerm (relatedSearches r) = true ->
  parseLine (Spec.recordLine r) = Some r.
Proof.
  intros plain terms.
  destruct (plainRecord_true r plain)
    as [Hne [[C1 [_ T1]] [[C2 [_ T2]] [[C3 [_ T3]] [[C4 [_ T4]] _]]]]].
  assert (Q : comma <> quote) by discriminate.
  assert (CJ : ~ In comma (join (lit "; ") (relatedSearches r))).
  { intros H. apply in_join in H. destruct H as [H | [t [Ht H]]].
    - cbn in H. intuition discriminate.
    - rewrite forallb_forall in terms.
      now destruct (plainTerm_true _ (terms t Ht)) as [_ [Hc _]]. }
  unfold parseLine, Spec.recordLine. cbn [app].
  rewrite !split_at by (now apply in_quoted).
  rewrite split_whole by (now apply in_quoted).
  cbn [map nth_error].
  rewrite !strip_quoted, T1, T2, T3, T4, !orEmpty_some.
  destruct r as [name volume time growth related].
  cbn [trendName searchVolume timeAgo growthPercentage relatedSearches] in *.
  destruct name as [|c t]; [congruence|]. cbn [truthy negb].
  do 2 f_equal.
  destruct related as [|term rest]; [reflexivity|].
  destruct (join_trimmed term rest terms) as [TJ NJ].
  rewrite TJ, ifTruthy_found by exact NJ.
  rewrite split_terms.
  - cbn [map]. rewrite forallb_forall in terms. f_equal.
    + now destruct (plainTerm_true _ (terms term (or_introl eq_refl)))
        as [_ [_ [_ [_ H]]]].
    + rewrite map_map. rewrite <- (map_id rest) at 2.
      apply map_ext_in. intros x Hx. rewrite trim_leading_space.
      now destruct (plainTerm_true _ (terms x (or_intror Hx)))
        as [_ [_ [_ [_ H]]]].
  - apply Forall_forall. intros x Hx. rewrite forallb_forall in terms.
    now destruct (plainTerm_true _ (terms x Hx)) as [_ [_ [Hs _]]].
Qed.

(** X13. For every sequence of records whose four values are plain (the
    trend name not empty, no comma, no line feed, no white space at the
    ends) and whose related searches are not empty and hold no comma, no
    semicolon, no line feed and no white space at the ends, the evaluator
    reads from the serializer's text the very records that were written,
    related searches included. *)
Theorem round_trip_whole_records (rs : list CleanedTrendData) :
  forallb (fun r => Spec.plainRecord r
                    && forallb plainTerm (relatedSearches r)) rs = true ->
  evaluateTopics (convertCleanedDataToCSV rs) = rs.
Proof.
  intros H.
  assert (Hp : forallb Spec.plainRecord rs = true).
  { rewrite forallb_forall in H. apply forallb_forall. intros r Hr.
    specialize (H r Hr). now apply andb_true_iff in H. }
  unfold evaluateTopics.
  rewrite convert_table, table_lines, parse_loop by assumption.
  cbn [app]. clear Hp.
  induction rs as [|r rs IH]; [reflexivity|].
  cbn [forallb] in H. apply andb_true_iff in H. destruct H as [Hr H].
  apply andb_true_iff in Hr. destruct Hr as [Hr Ht].
  cbn [map flat_map]. rewrite IH by assumption.
  unfold parsedOf. now rewrite (recordLine_parsed r Hr Ht).
Qed.

End FullRoundTrip.

(** ** The writer of the raw rows loses nothing *)

Section RawWriter.

Import Scraper.

Lemma readField_escaped (field acc tail : jsstring) :
  readField acc (escapeQuotes field ++ tail) = readField (acc ++ field) tail.
Proof.
  revert acc. induction field as [|c field IH]; intros acc.
  - cbn [escapeQuotes flat_map app]. now rewrite app_nil_r.
  - cbn [escapeQuotes flat_map]. fold (escapeQuotes field).
    destruct (c =? quote)%N eqn:E.
    + apply N.eqb_eq in E. subst c. cbn [app readField].
      rewrite !N.eqb_refl, IH, <- app_assoc. reflexivity.
    + cbn [app readField]. rewrite E, IH, <- app_assoc. reflexivity.
Qed.

Lemma csvLine_cons (field : jsstring) (row : list jsstring) :
  csvLine (field :: row)
  = quote :: escapeQuotes field
    ++ quote :: match row with
                | [] => []
                | _ :: _ => comma :: csvLine row
                end.
Proof.
  unfold csvLine. destruct row as [|f row]; cbn [map join quoted app].
  - unfold quoted. reflexivity.
  - unfold quoted at 1. cbn [app]. now rewrite <- app_assoc.
Qed.

Lemma readLine_csvLine (row : list jsstring) : readLine (csvLine row) = row.
Proof.
  destruct row as [|field row]; [reflexivity|].
  revert field. induction row as [|next row IH]; intros field;
    rewrite csvLine_cons; cbn [readLine]; rewrite readField_escaped;
    cbn [app readField]; rewrite N.eqb_refl.
  - reflexivity.
  - change ((comma =? quote)%N) with false. cbv iota.
    specialize (IH next). rewrite csvLine_cons in IH |- *.
    cbn [readLine] in IH. now rewrite IH.
Qed.

(** X14. The writer of the raw rows, which doubles every double quote of
    a field before wrapping it, writes different rows as different lines:
    no row is lost in the line it is written as. *)
Theorem raw_line_injective (row row' : list jsstring) :
  csvLine row = csvLine row' -> row = row'.
Proof.
  intros H. rewrite <- (readLine_csvLine row), <- (readLine_csvLine row').
  now rewrite H.
Qed.

(** X15. The serializer of the cleaned records wraps without escaping,
    so it is not injective: two different sequences of records are
    written as the same text. *)
Theorem serializer_not_injective :
  exists rs rs' : list CleanedTrendData,
    rs <> rs'
    /\ convertCleanedDataToCSV rs = convertCleanedDataToCSV rs'.
Proof.
  exists [splitCell], [twoCells]. split; [discriminate|].
  vm_compute. reflexivity.
Qed.

End RawWriter.

(** ** The best match of the evaluator *)

Section BestMatch.

Import Evaluator.

Variable number : Type.
Variable gtb : number -> number -> bool.

(** What [>] is on numbers that are not NaN. *)
Hypothesis gtb_asym : forall a b, gtb a b = true -> gtb b a = false.
Hypothesis gtb_above :
  forall a b c, gtb a b = true -> gtb c b = false -> gtb a c = true.

Lemma bestMatch_from (rest seen post : list (DomainEvaluation number))
      (best : DomainEvaluation number) :
  (forall e, In e seen -> gtb (relevance best) (relevance e) = true) ->
  (forall e, In e post -> gtb (relevance e) (relevance best) = false) ->
  exists seen' post' best',
    fold_left (fun best current =>
                 if gtb (relevance current) (relevance best)
                 then current else best) rest best
    = best'
    /\ seen ++ best :: post ++ rest = seen' ++ best' :: post'
    /\ (forall e, In e seen' -> gtb (relevance best') (relevance e) = true)
    /\ (forall e, In e post' -> gtb (relevance e) (relevance best') = false).
Proof.
  revert seen post best.
  induction rest as [|c rest IH]; intros seen post best Hseen Hpost.
  - exists seen, post, best. now rewrite app_nil_r.
  - cbn [fold_left].
    destruct (gtb (relevance c) (relevance best)) eqn:E.
    + destruct (IH (seen ++ best :: post) [] c) as [s' [p' [b' [Eb [Eq H]]]]].
      * intros e He. apply in_app_iff in He.
        destruct He as [He | [<- | He]].
        -- apply (gtb_above E). apply gtb_asym. now apply Hseen.
        -- exact E.
        -- apply (gtb_above E). now apply Hpost.
      * intros e [].
      * exists s', p', b'. split; [exact Eb|]. split; [|exact H].
        rewrite <- Eq, <- !app_assoc. reflexivity.
    + destruct (IH seen (post ++ [c]) best) as [s' [p' [b' [Eb [Eq H]]]]].
      * exact Hseen.
      * intros e He. apply in_app_iff in He.
        destruct He as [He | [<- | []]]; [now apply Hpost | exact E].
      * exists s', p', b'. split; [exact Eb|]. split; [|exact H].
        rewrite <- Eq, <- !app_assoc. reflexivity.
Qed.

(** X16. When [>] is the order of numbers that are not NaN, the best
    match is the first evaluation of the highest relevance: every
    evaluation before it has a lower relevance and none after it has a
    higher one; only on an empty list is there no best match. *)
Theorem bestMatch_first_maximum
        (evaluations : list (DomainEvaluation number)) :
  (bestMatch gtb evaluations = None <-> evaluations = [])
  /\ forall best,
      bestMatch gtb evaluations = Some best ->
      exists before after,
        evaluations = before ++ best :: after
        /\ (forall e, In e before ->
                      gtb (relevance best) (relevance e) = true)
        /\ (forall e, In e after ->
                      gtb (relevance e) (relevance best) = false).
Proof.
  split.
  - destruct evaluations; cbn [bestMatch]; split; congruence.
  - intros best H. destruct evaluations as [|first rest]; [discriminate|].
    cbn [bestMatch] in H. injection H as H.
    destruct (bestMatch_from rest [] [] first) as [s' [p' [b' [Eb [Eq G]]]]];
      try (intros e []).
    rewrite Eb in H. subst b'.
    exists s', p'. split; [exact Eq | exact G].
Qed.

End BestMatch.

(** ** The name of the file *)

Section FileName.

Import Scraper.

Lemma digitsValue_snoc (digits : jsstring) (d : codeUnit) :
  digitsValue (digits ++ [d])
  = 10 * digitsValue digits + (N.to_nat d - 48).
Proof. unfold digitsValue. now rewrite fold_left_app. Qed.

Lemma decimalFuel_value (fuel n : nat) :
  n < fuel -> digitsValue (decimalFuel fuel n) = n.
Proof.
  revert n. induction fuel as [|fuel IH]; intros n Hn; [lia|].
  cbn [decimalFuel]. destruct (n <? 10) eqn:E.
  - apply Nat.ltb_lt in E. unfold digitsValue. cbn [fold_left].
    rewrite Nat2N.id. lia.
  - apply Nat.ltb_ge in E. rewrite digitsValue_snoc, Nat2N.id.
    assert (Hd : n / 10 < fuel).
    { pose proof (Nat.div_lt n 10). lia. }
    rewrite (IH _ Hd).
    pose proof (Nat.div_mod_eq n 10). lia.
Qed.

Lemma decimal_value (n : nat) : digitsValue (decimal n) = n.
Proof. apply decimalFuel_value. lia. Qed.

Lemma digitsValue_zeros (k : nat) (s : jsstring) :
  digitsValue (repeat 48%N k ++ s) = digitsValue s.
Proof.
  induction k as [|k IH]; [reflexivity|].
  cbn [repeat app]. unfold digitsValue in *. cbn [fold_left]. exact IH.
Qed.

Lemma pad2_value (n : nat) : digitsValue (pad2 n) = n.
Proof.
  unfold pad2, padStart2. now rewrite digitsValue_zeros, decimal_value.
Qed.

Lemma pad2_length (n : nat) : n < 100 -> length (pad2 n) = 2.
Proof.
  intros Hn. unfold pad2, padStart2, decimal. cbn [decimalFuel].
  destruct (n <? 10) eqn:E; [reflexivity|].
  apply Nat.ltb_ge in E.
  destruct n as [|n]; [lia|]. cbn [decimalFuel].
  assert (F : (S n / 10 <? 10) = true).
  { apply Nat.ltb_lt. apply Nat.Div0.div_lt_upper_bound. lia. }
  rewrite F. reflexivity.
Qed.

Lemma app_same_head (a b c d : jsstring) :
  a ++ b = c ++ d -> length a = length c -> a = c /\ b = d.
Proof.
  revert c. induction a as [|x a IH]; intros [|y c] H L;
    cbn [length] in L; try discriminate; [now split|].
  cbn [app] in H. injection H as -> H.
  destruct (IH c H) as [-> ->]; [lia | now split].
Qed.

Lemma app_same_tail (a b c d : jsstring) :
  a ++ b = c ++ d -> length b = length d -> a = c /\ b = d.
Proof.
  intros H L. apply app_same_head; [exact H|].
  apply (f_equal (@length codeUnit)) in H. rewrite !length_app in H. lia.
Qed.

(** X18. The name of the file tells the second it was made in: two
    names are the same only when the year, the month, the day, the hour,
    the minute and the second are, for months, days, hours, minutes and
    seconds below 100 as the getters of a date return them. *)
Theorem filename_injective
        (year month day hours minutes seconds : nat)
        (year' month' day' hours' minutes' seconds' : nat) :
  month + 1 < 100 -> day < 100 -> hours < 100 -> minutes < 100 ->
  seconds < 100 ->
  month' + 1 < 100 -> day' < 100 -> hours' < 100 -> minutes' < 100 ->
  seconds' < 100 ->
  filename year month day hours minutes seconds
  = filename year' month' day' hours' minutes' seconds' ->
  year = year' /\ month = month' /\ day = day' /\ hours = hours'
  /\ minutes = minutes' /\ seconds = seconds'.
Proof.
  intros Hm Hd Hh Hi Hs Hm' Hd' Hh' Hi' Hs' H.
  unfold filename in H. cbv zeta in H.
  apply app_inv_head in H. rewrite <- !app_assoc in H.
  apply app_same_tail in H;
    [|rewrite !length_app, !pad2_length by assumption; reflexivity].
  destruct H as [Hy H].
  apply (f_equal digitsValue) in Hy. rewrite !decimal_value in Hy.
  apply app_inv_head in H.
  apply app_same_head in H; [|now rewrite !pad2_length].
  destruct H as [Hmo H].
  apply (f_equal digitsValue) in Hmo. rewrite !pad2_value in Hmo.
  apply app_inv_head in H.
  apply app_same_head in H; [|now rewrite !pad2_length].
  destruct H as [Hda H].
  apply (f_equal digitsValue) in Hda. rewrite !pad2_value in Hda.
  apply app_inv_head in H.
  apply app_same_head in H; [|now rewrite !pad2_length].
  destruct H as [Hho H].
  apply (f_equal digitsValue) in Hho. rewrite !pad2_value in Hho.
  apply app_inv_head in H.
  apply app_same_head in H; [|now rewrite !pad2_length].
  destruct H as [Hmi H].
  apply (f_equal digitsValue) in Hmi. rewrite !pad2_value in Hmi.
  apply app_inv_head in H.
  apply app_same_head in H; [|now rewrite !pad2_length].
  destruct H as [Hse _].
  apply (f_equal digitsValue) in Hse. rewrite !pad2_value in Hse.
  repeat split; lia.
Qed.

End FileName.

(** ** The two versions of the cleaner side by side *)

Section TwoVersions.

Import QuoteAware.

Lemma simple_related (rawData : jsstring) :
  exists r,
    trendName r = trendName (Simple.cleanTrendsData rawData)
    /\ relatedSearches (Simple.cleanTrendsData rawData)
       = relatedSearches (extractRelated (Simple.splitFields rawData) r).
Proof.
  unfold Simple.cleanTrendsData. eexists. split; [|reflexivity].
  now rewrite (proj1 (extractRelated_fields _ _)).
Qed.

Lemma simple_time (rawData : jsstring) :
  timeAgo (Simple.cleanTrendsData rawData)
  = match find (fun field => includes field (lit "ago"))
               (Simple.splitFields rawData) with
    | None => []
    | Some field =>
        match exec Simple.timePattern field with
        | Some capture => capture
        | None => trim (stripLeadingDot field)
        end
    end.
Proof.
  unfold Simple.cleanTrendsData.
  rewrite (proj1 (proj2 (proj2 (extractRelated_fields _ _)))).
  match goal with
  | |- timeAgo (Simple.extractGrowth ?f ?r) = _ =>
      assert (G : timeAgo (Simple.extractGrowth f r) = timeAgo r)
  end.
  { unfold Simple.extractGrowth, ifTruthy.
    repeat match goal with
           | |- context [match ?x with _ => _ end] => destruct x
           end; reflexivity. }
  rewrite G. unfold Simple.extractTime.
  rewrite (find_same _ (fun field => includes field (lit "ago"))
                     (Simple.splitFields rawData)).
  - destruct (find _ (Simple.splitFields rawData)) as [field|] eqn:F.
    + apply find_some in F. destruct F as [_ F].
      rewrite ifTruthy_found; [reflexivity|].
      apply (includes_nonempty F). discriminate.
    + cbn [ifTruthy]. unfold extractVolume, ifTruthy.
      repeat match goal with
             | |- context [match ?x with _ => _ end] => destruct x
             end; reflexivity.
  - intros field. destruct (includes field (lit "ago")) eqn:E;
      [reflexivity|]. cbn [orb].
    assert (H : forall a, includes field (a ++ lit "ago") = false).
    { intros a. destruct (includes field (a ++ lit "ago")) eqn:F;
        [|reflexivity].
      apply includes_longer in F. congruence. }
    change (lit "hours ago") with (lit "hours " ++ lit "ago").
    change (lit "h ago") with (lit "h " ++ lit "ago").
    now rewrite !H.
Qed.

Lemma simple_time_capture_not_empty (c : jsstring) :
  Lang.lang true (group Simple.timePattern) c -> c <> [].
Proof.
  cbn [group Simple.timePattern seqs fold_right]. intros H.
  cbn [Lang.lang] in H. destruct H as [w1 [t1 [-> [H1 _]]]].
  destruct (digits_word (ic := true) (min := 1) (max := None)
                        (w := w1)) as [_ N1];
    [lia | discriminate | exact H1 |].
  destruct w1; [congruence | discriminate].
Qed.

(** X19. In the simple cleaner too the elapsed time is empty exactly
    when no field includes [ago]. *)
Theorem simple_timeAgo_empty_iff (rawData : jsstring) :
  timeAgo (Simple.cleanTrendsData rawData) = []
  <-> forall field,
      In field (Simple.splitFields rawData) ->
      includes field (lit "ago") = false.
Proof.
  rewrite simple_time.
  destruct (find _ (Simple.splitFields rawData)) as [field|] eqn:F.
  - apply find_some in F. destruct F as [Hin F]. split.
    + intros H. exfalso.
      destruct (exec Simple.timePattern field) as [c|] eqn:E.
      * apply exec_sound in E. destruct E as [_ [_ [_ [_ [_ [_ [E _]]]]]]].
        now apply simple_time_capture_not_empty in E.
      * assert (G : isEmpty (trim (stripLeadingDot field)) = false).
        { apply trim_not_blank with (c := 97%N); [reflexivity|].
          apply stripLeading_keeps; [discriminate|].
          apply (@includes_holds field (lit "ago") 97%N F). now left. }
        rewrite H in G. discriminate.
    + intros H. rewrite (H field Hin) in F. discriminate.
  - split; [|reflexivity]. intros _ field Hin.
    now apply (find_none _ _ F).
Qed.

(** Without double quotes the simple cleaner sees the fields of the
    quote-aware one and at most one empty field after them. *)
Lemma fields_side_by_side (rawData : jsstring) :
  ~ In quote rawData ->
  exists tail,
    (tail = [] \/ tail = [[]])
    /\ Simple.splitFields rawData = splitFields rawData ++ tail.
Proof.
  intros Hq. rewrite (@splitFields_quote_free rawData Hq).
  assert (E : Simple.splitFields rawData = map trim (split comma rawData)).
  { unfold Simple.splitFields. apply map_ext_in. intros piece Hin.
    f_equal. unfold removeQuotes. apply filter_all. apply Forall_forall.
    intros x Hx. apply negb_true_iff, N.eqb_neq. intros ->.
    now apply (@pieces_quote_free rawData piece Hq Hin). }
  rewrite E. unfold withoutEmptyTail.
  pose proof (split_not_nil comma rawData) as Hne.
  destruct (last (split comma rawData) []) as [|c t] eqn:L; cbn [isEmpty].
  - exists [[]]. split; [now right|].
    rewrite (app_removelast_last [] Hne) at 1. rewrite map_app.
    cbn [map]. do 2 f_equal.
    transitivity (trim []); [f_equal; exact L | reflexivity].
  - exists []. split; [now left|]. now rewrite app_nil_r.
Qed.

Lemma find_before_empty (p : jsstring -> bool) (fields tail : list jsstring) :
  p [] = false -> tail = [] \/ tail = [[]] ->
  find p (fields ++ tail) = find p fields.
Proof.
  intros Hp [-> | ->]; [now rewrite app_nil_r|].
  induction fields as [|f fs IH]; cbn [app find]; [now rewrite Hp|].
  destruct (p f); [reflexivity | exact IH].
Qed.

Lemma extractVolume_before_empty (fields tail : list jsstring)
      (r r' : CleanedTrendData) :
  tail = [] \/ tail = [[]] ->
  searchVolume r = searchVolume r' ->
  searchVolume (extractVolume (fields ++ tail) r)
  = searchVolume (extractVolume fields r').
Proof.
  intros Ht Hr. unfold extractVolume.
  rewrite find_before_empty by (reflexivity || exact Ht).
  destruct (find _ fields) as [[|c t]|]; cbn [ifTruthy]; try exact Hr.
  reflexivity.
Qed.

Lemma kept_before_empty (name : jsstring) (fields tail : list jsstring) :
  tail = [] \/ tail = [[]] ->
  filter (keepsField name) (map cleanedField (fields ++ tail))
  = filter (keepsField name) (map cleanedField fields).
Proof.
  intros [-> | ->]; [now rewrite app_nil_r|].
  rewrite map_app, filter_app. cbn [map filter].
  change (cleanedField []) with (@nil codeUnit).
  change (keepsField name []) with false. cbv iota.
  now rewrite app_nil_r.
Qed.

(** X20. On every blob without a double quote the two versions of the
    cleaner return the same trend name, the same search volume and the
    same related searches. *)
Theorem cleaners_agree_without_quotes (rawData : jsstring) :
  ~ In quote rawData ->
  trendName (Simple.cleanTrendsData rawData)
  = trendName (cleanTrendsData rawData)
  /\ searchVolume (Simple.cleanTrendsData rawData)
     = searchVolume (cleanTrendsData rawData)
  /\ relatedSearches (Simple.cleanTrendsData rawData)
     = relatedSearches (cleanTrendsData rawData).
Proof.
  intros Hq. destruct (@fields_side_by_side rawData Hq) as [tail [Ht E]].
  assert (Hname : trendName (Simple.cleanTrendsData rawData)
                  = trendName (cleanTrendsData rawData)).
  { rewrite simple_trendName, cleanTrendsData_trendName, E.
    destruct (splitFields rawData) as [|f fs]; [|reflexivity].
    destruct Ht as [-> | ->]; reflexivity. }
  split; [exact Hname|]. split.
  - rewrite simple_volume, cleanTrendsData_volume, E.
    now apply extractVolume_before_empty.
  - destruct (simple_related rawData) as [r [Hr ->]].
    destruct (cleanTrendsData_related rawData) as [r' [Hr' ->]].
    rewrite !extractRelated_firstSeen, E, Hr, Hr', Hname.
    now rewrite kept_before_empty.
Qed.

End TwoVersions.

(** ** The further theorems at concrete inputs *)

Section FurtherWitnesses.

Import QuoteAware.

Lemma relatedSearches_entries_witness :
  3 < length (lit "plane crash")
  /\ forallb (fun c => isLetter c || isWhiteSpace c) (lit "plane crash")
     = true
  /\ isLetter (hd 0%N (lit "plane crash")) = true
  /\ isLetter (last (lit "plane crash") 0%N) = true.
Proof.
  apply (relatedSearches_entries twoFields (lit "plane crash")).
  left. vm_compute. left. reflexivity.
Defined.

Lemma splitters_agree_without_quotes_witness :
  splitFields noName = map trim (withoutEmptyTail (split comma noName))
  /\ Simple.splitFields noName = map trim (split comma noName).
Proof.
  apply (splitters_agree_without_quotes noName).
  intros H. vm_compute in H. intuition discriminate.
Defined.

Lemma cleaners_agree_without_quotes_witness :
  trendName (Simple.cleanTrendsData agreeingBlob)
  = trendName (cleanTrendsData agreeingBlob)
  /\ searchVolume (Simple.cleanTrendsData agreeingBlob)
     = searchVolume (cleanTrendsData agreeingBlob)
  /\ relatedSearches (Simple.cleanTrendsData agreeingBlob)
     = relatedSearches (cleanTrendsData agreeingBlob).
Proof.
  apply (@cleaners_agree_without_quotes agreeingBlob).
  intros H. vm_compute in H. intuition discriminate.
Defined.

(** The values the two versions agree on there. *)
Example agreeingBlob_values :
  trendName (cleanTrendsData agreeingBlob) = lit "Zed"
  /\ searchVolume (cleanTrendsData agreeingBlob) = lit "5K+"
  /\ relatedSearches (cleanTrendsData agreeingBlob)
     = [lit "alpha beta"; lit "gamma delta"]
  /\ Simple.splitFields agreeingBlob
     = [lit "Zed"; lit "5K+ searches"; lit "alpha beta"; lit "gamma delta";
        []].
Proof. vm_compute. repeat split; reflexivity. Qed.

Lemma fragments_become_fields_witness :
  splitFields (join [comma] plainRow) = map trim plainRow.
Proof.
  apply (@fragments_become_fields plainRow).
  repeat constructor; try discriminate;
    intros H; vm_compute in H; intuition discriminate.
Defined.

Lemma parsed_trends_are_plain_witness :
  trendName plainExample <> []
  /\ Forall (fun v => ~ In comma v /\ ~ In newline v /\ trim v = v)
            [trendName plainExample; searchVolume plainExample;
             timeAgo plainExample; growthPercentage plainExample].
Proof.
  apply (parsed_trends_are_plain (convertCleanedDataToCSV [plainExample])).
  vm_compute. left. reflexivity.
Defined.

Lemma round_trip_whole_records_witness :
  evaluateTopics (convertCleanedDataToCSV [plainExample]) = [plainExample].
Proof.
  apply (round_trip_whole_records [plainExample]). vm_compute. reflexivity.
Defined.

Lemma raw_line_injective_witness :
  plainRow = [lit "brett james"; lit "plane crash"].
Proof.
  apply (raw_line_injective plainRow [lit "brett james"; lit "plane crash"]).
  reflexivity.
Defined.

Lemma bestMatch_first_maximum_witness :
  exists before after,
    threeEvaluations
    = before
      ++ {| Evaluator.domain := lit "Technology & AI";
            Evaluator.relevance := 8%N;
            Evaluator.reasoning := []; Evaluator.isMatch := true |}
      :: after
    /\ (forall e, In e before -> (Evaluator.relevance e <? 8)%N = true)
    /\ (forall e, In e after -> (8 <? Evaluator.relevance e)%N = false).
Proof.
  apply (proj2 (@bestMatch_first_maximum N (fun a b => (b <? a)%N)
                  (fun a b H => proj2 (N.ltb_ge a b)
                                  (N.lt_le_incl _ _ (proj1 (N.ltb_lt b a) H)))
                  (fun a b c H G =>
                     proj2 (N.ltb_lt c a)
                       (N.le_lt_trans _ _ _ (proj1 (N.ltb_ge b c) G)
                                      (proj1 (N.ltb_lt b a) H)))
                  threeEvaluations)).
  reflexivity.
Defined.

Lemma filename_injective_witness :
  2025 = 2025 /\ 0 = 0 /\ 5 = 5 /\ 9 = 9 /\ 3 = 3 /\ 7 = 7.
Proof.
  apply (@filename_injective 2025 0 5 9 3 7 2025 0 5 9 3 7);
    try lia. reflexivity.
Defined.

End FurtherWitnesses.

(** The raw writer and the file name on the values of a run. *)
Section ScraperExamples.

Example filename_of_a_morning :
  Scraper.filename 2025 0 5 9 3 7
  = lit "trending_topics_2025-01-05_09-03-07.csv".
Proof. vm_compute. reflexivity. Qed.

Example csvLine_doubles_quotes :
  Scraper.csvLine [lit "a"; [quote; 98%N; quote]]
  = quoted (lit "a") ++ [comma]
    ++ quoted ([quote; quote; 98%N; quote; quote]).
Proof. vm_compute. reflexivity. Qed.

End ScraperExamples.

(** * The rules in words of their own *)

(** ** The built-ins do what the words say *)

Section Vocabulary.

Lemma digit_isDigit (x : codeUnit) : isDigit x = true <-> Wording.digit x.
Proof.
  unfold isDigit, Wording.digit.
  rewrite andb_true_iff, !N.leb_le. tauto.
Qed.

Lemma whiteSpace_isWhiteSpace (x : codeUnit) :
  isWhiteSpace x = true <-> Wording.whiteSpace x.
Proof.
  unfold Wording.whiteSpace, Wording.whiteSpaceCodes, isWhiteSpace. split.
  - rewrite !orb_true_iff, !andb_true_iff, !N.leb_le, !N.eqb_eq.
    cbn [In]. lia.
  - cbn [In]. intros H.
    repeat (destruct H as [<- | H]; [reflexivity|]). contradiction.
Qed.

Lemma digits_all (w : jsstring) :
  Forall (fun x => isDigit x = true) w <-> Forall Wording.digit w.
Proof.
  split; intros H; (eapply Forall_impl; [|exact H]); intros x;
    apply digit_isDigit.
Qed.

Lemma whiteSpace_all (w : jsstring) :
  Forall (fun x => isWhiteSpace x = true) w <-> Forall Wording.whiteSpace w.
Proof.
  split; intros H; (eapply Forall_impl; [|exact H]); intros x;
    apply whiteSpace_isWhiteSpace.
Qed.

Lemma includes_contains (s needle : jsstring) :
  includes s needle = true <-> Wording.contains s needle.
Proof. apply includes_infix. Qed.

Lemma includes_one (s : jsstring) (c : codeUnit) :
  includes s [c] = true <-> In c s.
Proof.
  rewrite includes_infix. split.
  - intros [pre [post ->]]. apply in_app_iff. right. now left.
  - intros H. apply in_split in H. destruct H as [pre [post ->]].
    now exists pre, post.
Qed.

Lemma hasDigit_exists (s : jsstring) :
  hasDigit s = true <-> Exists Wording.digit s.
Proof.
  unfold hasDigit. rewrite existsb_exists, Exists_exists.
  split; intros [x [Hin Hx]]; exists x; (split; [exact Hin|]);
    now apply digit_isDigit.
Qed.

(** [find] gives the first element with the property, or tells that
    there is none. *)
Lemma find_firstWith (p : jsstring -> bool) (P : jsstring -> Prop)
      (l : list jsstring) :
  (forall field, p field = true <-> P field) ->
  match find p l with
  | Some x => Wording.firstWith P l x
  | None => Wording.noneWith P l
  end.
Proof.
  intros HP. induction l as [|y l IH]; cbn [find]; [constructor|].
  destruct (p y) eqn:E.
  - exists [], l. repeat split; [now apply HP | constructor].
  - assert (Hy : ~ P y) by (intros Hy; apply HP in Hy; congruence).
    destruct (find p l) as [x|].
    + destruct IH as [earlier [later [-> [Hx Hall]]]].
      exists (y :: earlier), later. repeat split; [exact Hx|].
      now constructor.
    + now constructor.
Qed.

Lemma dropWhile_split (p : codeUnit -> bool) (s : jsstring) :
  exists pre, s = pre ++ dropWhile p s /\ Forall (fun x => p x = true) pre.
Proof.
  induction s as [|x s [pre [IH Hall]]]; cbn [dropWhile].
  - exists []. split; [reflexivity | constructor].
  - destruct (p x) eqn:E.
    + exists (x :: pre). cbn [app]. split; [now rewrite <- IH|].
      now constructor.
    + exists []. split; [reflexivity | constructor].
Qed.

Lemma dropWhileEnd_split (p : codeUnit -> bool) (s : jsstring) :
  exists post,
    s = dropWhileEnd p s ++ post /\ Forall (fun x => p x = true) post.
Proof.
  unfold dropWhileEnd.
  destruct (dropWhile_split p (rev s)) as [pre [H Hall]].
  exists (rev pre). split.
  - rewrite <- rev_app_distr, <- H. now rewrite rev_involutive.
  - now apply Forall_rev.
Qed.

(** [trim] removes the white space at the two ends and nothing else. *)
Lemma trim_trimmed (s : jsstring) : Wording.trimmed s (trim s).
Proof.
  destruct (trim_ends s) as [Hfirst Hlast].
  unfold trim in *.
  destruct (dropWhile_split isWhiteSpace s) as [left [Hs Hl]].
  destruct (dropWhileEnd_split isWhiteSpace (dropWhile isWhiteSpace s))
    as [right [Ht Hr]].
  exists left, right. split; [now rewrite <- Ht|].
  split; [now apply whiteSpace_all|]. split; [now apply whiteSpace_all|].
  split.
  - intros x rest E Hx. apply whiteSpace_isWhiteSpace in Hx.
    rewrite (Hfirst x rest E) in Hx. discriminate.
  - intros front x E Hx. apply whiteSpace_isWhiteSpace in Hx.
    rewrite (Hlast front x E) in Hx. discriminate.
Qed.

Lemma dropWhile_all (p : codeUnit -> bool) (l r : jsstring) :
  Forall (fun x => p x = true) l -> dropWhile p (l ++ r) = dropWhile p r.
Proof.
  induction 1 as [|x l Hx _ IH]; [reflexivity|].
  cbn [app dropWhile]. now rewrite Hx.
Qed.

Lemma dropWhile_stops (p : codeUnit -> bool) (t r : jsstring) :
  (forall x rest, t = x :: rest -> p x = false) ->
  t <> [] -> dropWhile p (t ++ r) = t ++ r.
Proof.
  intros H Hne. destruct t as [|x t]; [congruence|].
  cbn [app dropWhile]. now rewrite (H x t eq_refl).
Qed.

(** The words determine the trimmed text. *)
Lemma trimmed_is_trim (s t : jsstring) : Wording.trimmed s t -> t = trim s.
Proof.
  intros [left [right [-> [Hl [Hr [Hfirst Hlast]]]]]].
  apply whiteSpace_all in Hl. apply whiteSpace_all in Hr.
  assert (Hf : forall x rest, t = x :: rest -> isWhiteSpace x = false).
  { intros x rest E. destruct (isWhiteSpace x) eqn:W; [|reflexivity].
    exfalso. apply (Hfirst x rest E). now apply whiteSpace_isWhiteSpace. }
  assert (Hb : forall x rest, rev t = x :: rest -> isWhiteSpace x = false).
  { intros x rest E. destruct (isWhiteSpace x) eqn:W; [|reflexivity].
    exfalso. apply (Hlast (rev rest) x).
    - apply (f_equal (@rev codeUnit)) in E.
      now rewrite rev_involutive in E.
    - now apply whiteSpace_isWhiteSpace. }
  unfold trim, dropWhileEnd. rewrite dropWhile_all by exact Hl.
  destruct t as [|x t].
  - cbn [app]. rewrite <- (app_nil_r right) at 1.
    rewrite dropWhile_all by exact Hr. cbn [dropWhile rev].
    reflexivity.
  - rewrite dropWhile_stops by (exact Hf || discriminate).
    rewrite rev_app_distr, dropWhile_all by (now apply Forall_rev).
    rewrite <- (app_nil_r (rev (x :: t))), dropWhile_stops.
    + now rewrite app_nil_r, rev_involutive.
    + exact Hb.
    + intros E. apply (f_equal (@rev codeUnit)) in E.
      rewrite rev_involutive in E. discriminate.
Qed.

Lemma stripLeading_withoutLeading (c : codeUnit) (s : jsstring) :
  Wording.withoutLeading c s (stripLeading c s).
Proof.
  destruct s as [|x t]; cbn [stripLeading].
  - right. split; [reflexivity | discriminate].
  - destruct (N.eqb_spec x c) as [-> | Hx]; [now left|].
    right. split; [reflexivity|]. intros rest E. injection E as E _.
    contradiction.
Qed.

Lemma stripTrailing_withoutTrailing (c : codeUnit) (s : jsstring) :
  Wording.withoutTrailing c s (stripTrailing c s).
Proof.
  unfold stripTrailing.
  destruct (stripLeading_withoutLeading c (rev s)) as [H | [H Hn]].
  - left. apply (f_equal (@rev codeUnit)) in H.
    rewrite rev_involutive in H. exact H.
  - right. rewrite H, rev_involutive. split; [reflexivity|].
    intros front E. apply (Hn (rev front)).
    rewrite E, rev_app_distr. reflexivity.
Qed.

Lemma fieldOf_cleanedUp (segment : jsstring) :
  Wording.cleanedUp segment (QuoteAware.fieldOf segment).
Proof.
  exists (trim segment), (stripLeading quote (trim segment)).
  split; [apply trim_trimmed|].
  split; [apply stripLeading_withoutLeading|].
  apply stripTrailing_withoutTrailing.
Qed.

End Vocabulary.

(** ** The matcher misses no word *)

Section MatcherCompleteness.

Variable ignoreCase : bool.
Variable A : Type.

Lemma nullable_word (r : regex) (w : jsstring) :
  nullable r = false -> Lang.lang ignoreCase r w -> w <> [].
Proof.
  revert w.
  induction r as [|c|cs| | |r1 IH1 r2 IH2|r1 IH1 r2 IH2|min max r IH];
    intros w Hn H; cbn [nullable] in Hn; cbn [Lang.lang] in H.
  - discriminate.
  - destruct H as [x [-> _]]. discriminate.
  - destruct H as [x [-> _]]. discriminate.
  - destruct H as [x [-> _]]. discriminate.
  - destruct H as [x [-> _]]. discriminate.
  - destruct H as [w1 [w2 [-> [H1 H2]]]]. intros E.
    apply app_eq_nil in E. destruct E as [-> ->].
    apply andb_false_iff in Hn.
    destruct Hn as [Hn | Hn];
      [now apply (IH1 [] Hn H1) | now apply (IH2 [] Hn H2)].
  - apply orb_false_iff in Hn. destruct Hn as [Hn1 Hn2].
    destruct H as [H | H]; [now apply IH1 | now apply IH2].
  - apply orb_false_iff in Hn. destruct Hn as [Hn Hr].
    apply orb_false_iff in Hn. destruct Hn as [Hmin Hmax].
    apply Nat.eqb_neq in Hmin.
    destruct H as [ws [-> [Hall Hi]]].
    destruct ws as [|v ws].
    + exfalso. destruct max as [[|top]|]; cbn in Hi, Hmax;
        [discriminate | lia | lia].
    + cbn [concat]. apply Forall_inv in Hall. intros E.
      apply app_eq_nil in E. destruct E as [-> _].
      now apply (IH [] Hr Hall).
Qed.

Lemma repeatK_complete (L : jsstring -> Prop) m (k : jsstring -> option A) :
  completeFor L m ->
  (forall w, L w -> w <> []) ->
  forall ws,
    Forall L ws ->
    forall fuel min max s',
      Lang.iterations min max (length ws) ->
      k s' <> None ->
      min + length (concat ws ++ s') < fuel ->
      repeatK m k fuel min max (concat ws ++ s') <> None.
Proof.
  intros Hm Hne ws Hall.
  induction Hall as [|v ws Hv Hall IH]; intros fuel min max s' Hi Hk Hf.
  - cbn [concat app length] in *.
    destruct fuel as [|fuel]; [lia|]. cbn [repeatK].
    destruct max as [[|top]|]; [exact Hk | |]; cbv zeta.
    + assert (E : min = 0) by (cbn in Hi; lia). subst min.
      destruct (m _ s'); [discriminate | exact Hk].
    + assert (E : min = 0) by (cbn in Hi; lia). subst min.
      destruct (m _ s'); [discriminate | exact Hk].
  - cbn [concat length] in *. rewrite <- app_assoc in *.
    specialize (Hne v Hv).
    assert (Hlen : length (concat ws ++ s')
                   < length (v ++ concat ws ++ s')).
    { rewrite (length_app v). destruct v; [congruence | cbn [length]; lia]. }
    destruct fuel as [|fuel]; [lia|]. cbn [repeatK].
    destruct max as [[|top]|]; [cbn in Hi; lia | |]; cbv zeta;
      cbn [option_map pred].
    + destruct min as [|min'].
      * match goal with
        | |- match m ?k' ?s0 with _ => _ end <> None =>
            assert (G : m k' s0 <> None)
        end.
        { apply Hm; [exact Hv|].
          rewrite (proj2 (Nat.ltb_lt _ _) Hlen).
          apply IH; [cbn in Hi |- *; lia | exact Hk | lia]. }
        destruct (m _ _); [discriminate | congruence].
      * apply Hm; [exact Hv|].
        apply IH; [cbn in Hi |- *; lia | exact Hk | lia].
    + destruct min as [|min'].
      * match goal with
        | |- match m ?k' ?s0 with _ => _ end <> None =>
            assert (G : m k' s0 <> None)
        end.
        { apply Hm; [exact Hv|].
          rewrite (proj2 (Nat.ltb_lt _ _) Hlen).
          apply IH; [cbn in Hi |- *; lia | exact Hk | lia]. }
        destruct (m _ _); [discriminate | congruence].
      * apply Hm; [exact Hv|].
        apply IH; [cbn in Hi |- *; lia | exact Hk | lia].
Qed.

Lemma matchK_complete (r : regex) :
  loopsConsume r = true ->
  completeFor (Lang.lang ignoreCase r) (matchK ignoreCase (A:=A) r).
Proof.
  induction r as [|c|cs| | |r1 IH1 r2 IH2|r1 IH1 r2 IH2|min max r IH];
    intros Hl k w s' Hw Hk; cbn [matchK]; cbn [Lang.lang] in Hw;
    cbn [loopsConsume] in Hl.
  - subst w. exact Hk.
  - destruct Hw as [x [-> Hx]]. cbn [app step]. now rewrite Hx.
  - destruct Hw as [x [-> Hx]]. cbn [app step]. now rewrite Hx.
  - destruct Hw as [x [-> Hx]]. cbn [app step]. now rewrite Hx.
  - destruct Hw as [x [-> Hx]]. cbn [app step]. now rewrite Hx.
  - apply andb_true_iff in Hl. destruct Hl as [Hl1 Hl2].
    destruct Hw as [w1 [w2 [-> [H1 H2]]]]. rewrite <- app_assoc.
    apply (IH1 Hl1); [exact H1|]. now apply (IH2 Hl2).
  - apply andb_true_iff in Hl. destruct Hl as [Hl1 Hl2].
    destruct (matchK ignoreCase r1 k (w ++ s')) eqn:E; [discriminate|].
    destruct Hw as [H | H].
    + exfalso. now apply (IH1 Hl1 k w s' H Hk).
    + now apply (IH2 Hl2).
  - apply andb_true_iff in Hl. destruct Hl as [Hn Hl].
    apply negb_true_iff in Hn.
    destruct Hw as [ws [-> [Hall Hi]]].
    apply (@repeatK_complete (Lang.lang ignoreCase r)
             (matchK ignoreCase r) k (IH Hl)
             (fun w Hw => @nullable_word r w Hn Hw) ws Hall);
      [exact Hi | exact Hk | lia].
Qed.

End MatcherCompleteness.

Section SearchFacts.

Lemma matchAt_complete (p : pattern) (w0 c w2 rest : jsstring) :
  loopsConsume (before p) = true ->
  loopsConsume (group p) = true ->
  loopsConsume (after p) = true ->
  Lang.lang (ignoreCase p) (before p) w0 ->
  Lang.lang (ignoreCase p) (group p) c ->
  Lang.lang (ignoreCase p) (after p) w2 ->
  matchAt p (w0 ++ c ++ w2 ++ rest) <> None.
Proof.
  intros L0 L1 L2 H0 H1 H2. unfold matchAt.
  apply (matchK_complete (ignoreCase p) (A:=jsstring) _ L0); [exact H0|].
  apply (matchK_complete (ignoreCase p) (A:=jsstring) _ L1); [exact H1|].
  apply (matchK_complete (ignoreCase p) (A:=jsstring) _ L2); [exact H2|].
  discriminate.
Qed.

(** [exec] stops at the first start position where the pattern
    matches. *)
Lemma exec_leftmost (p : pattern) (s c : jsstring) :
  exec p s = Some c ->
  exists pre rest,
    s = pre ++ rest /\ matchAt p rest = Some c
    /\ forall pre' rest',
        s = pre' ++ rest' -> length pre' < length pre ->
        matchAt p rest' = None.
Proof.
  induction s as [|x s IH]; cbn [exec]; intros H.
  - destruct (matchAt p []) as [c'|] eqn:E; [|discriminate].
    injection H as ->. exists [], []. repeat split; [exact E|].
    intros pre' rest' _ Hl. cbn [length] in Hl. lia.
  - destruct (matchAt p (x :: s)) as [c'|] eqn:E.
    + injection H as ->. exists [], (x :: s). repeat split; [exact E|].
      intros pre' rest' _ Hl. cbn [length] in Hl. lia.
    + destruct (IH H) as [pre [rest [-> [Hm Hmin]]]].
      exists (x :: pre), rest. repeat split; [exact Hm|].
      intros [|y pre'] rest' Hs Hl; cbn [app] in Hs.
      * now subst rest'.
      * injection Hs as _ Hs. apply (Hmin pre' rest' Hs).
        cbn [length] in Hl. lia.
Qed.

End SearchFacts.

(** A pattern with nothing after its group, whose words are those of [B]
    and [L]: [exec] stores the capture of a leftmost match, and fails
    only when there is no match at all. *)
Section FirstMatch.

Variable p : pattern.
Variables B L : jsstring -> Prop.
Hypothesis loops :
  loopsConsume (before p) = true /\ loopsConsume (group p) = true.
Hypothesis nothingAfter : after p = Eps.
Hypothesis beforeComplete :
  forall w, B w -> Lang.lang (ignoreCase p) (before p) w.
Hypothesis groupComplete :
  forall w, L w -> Lang.lang (ignoreCase p) (group p) w.

Lemma occurrence_matches (s pre c : jsstring) :
  Wording.occurs B L s pre c ->
  exists rest, s = pre ++ rest /\ matchAt p rest <> None.
Proof.
  intros [b [post [-> [Hb Hc]]]]. exists (b ++ c ++ post).
  split; [reflexivity|].
  change (b ++ c ++ post) with (b ++ c ++ [] ++ post).
  destruct loops as [L0 L1].
  apply matchAt_complete; auto; now rewrite nothingAfter.
Qed.

Lemma exec_noMatch (s : jsstring) :
  exec p s = None -> Wording.noMatch B L s.
Proof.
  intros H pre c Ho.
  destruct (occurrence_matches Ho) as [rest [-> Hm]].
  apply Hm. now apply (exec_none p pre rest).
Qed.

Hypothesis beforeSound :
  forall w, Lang.lang (ignoreCase p) (before p) w -> B w.
Hypothesis groupSound :
  forall w, Lang.lang (ignoreCase p) (group p) w -> L w.

Lemma exec_firstMatch (s c : jsstring) :
  exec p s = Some c -> Wording.firstMatch B L s c.
Proof.
  intros H. destruct (exec_leftmost _ _ H) as [pre [rest [-> [Hm Hmin]]]].
  exists pre. split.
  - apply matchAt_sound in Hm.
    destruct Hm as [w0 [w2 [tail [-> [H0 [H1 H2]]]]]].
    rewrite nothingAfter in H2. cbn [Lang.lang] in H2. subst w2.
    exists w0, tail. repeat split; auto.
  - intros pre' c' Ho.
    destruct (Nat.le_gt_cases (length pre) (length pre')) as [Hle | Hlt];
      [exact Hle|].
    exfalso. destruct (occurrence_matches Ho) as [rest' [E Hm']].
    apply Hm'. now apply (Hmin pre' rest').
Qed.

End FirstMatch.

(** ** The words of the groups *)

Section GroupWords.

Lemma seq_words (ic : bool) (r1 r2 : regex) (w : jsstring) :
  Lang.lang ic (Seq r1 r2) w
  <-> exists w1 w2, w = w1 ++ w2 /\ Lang.lang ic r1 w1 /\ Lang.lang ic r2 w2.
Proof. reflexivity. Qed.

(** A repetition of a one-character class. *)
Lemma class_run (ic : bool) (r : regex) (P : codeUnit -> Prop)
      (min : nat) (max : option nat) (w : jsstring) :
  (forall v, Lang.lang ic r v <-> exists x, v = [x] /\ P x) ->
  Lang.lang ic (Quant min max r) w
  <-> Forall P w /\ Lang.iterations min max (length w).
Proof.
  intros Hr. cbn [Lang.lang]. split.
  - intros [ws [-> [Hall Hi]]].
    assert (G : Forall P (concat ws) /\ length (concat ws) = length ws).
    { clear Hi. induction Hall as [|v ws Hv _ [IH1 IH2]]; [now split|].
      apply Hr in Hv. destruct Hv as [x [-> Hx]]. cbn [concat app length].
      split; [now constructor | now rewrite IH2]. }
    destruct G as [G1 G2]. split; [exact G1 | now rewrite G2].
  - intros [Hall Hi]. exists (map (fun x => [x]) w). split; [|split].
    + clear. induction w as [|x w IH]; [reflexivity|].
      cbn [map concat app]. now rewrite <- IH.
    + apply Forall_map. eapply Forall_impl; [|exact Hall].
      intros x Hx. apply Hr. now exists x.
    + now rewrite length_map.
Qed.

Lemma digit_run (ic : bool) (min : nat) (max : option nat) (w : jsstring) :
  Lang.lang ic (Quant min max Digit) w
  <-> Forall Wording.digit w /\ Lang.iterations min max (length w).
Proof.
  apply class_run. intros v. cbn [Lang.lang].
  split; intros [x [E Hx]]; exists x; (split; [exact E|]);
    now apply digit_isDigit.
Qed.

Lemma space_run (ic : bool) (w : jsstring) :
  Lang.lang ic (star Space) w <-> Forall Wording.whiteSpace w.
Proof.
  unfold star.
  rewrite (@class_run ic Space Wording.whiteSpace 0 None w).
  - cbn [Lang.iterations]. split; [now intros [H _]|].
    intros H. split; [exact H | lia].
  - intros v. cbn [Lang.lang].
    split; intros [x [E Hx]]; exists x; (split; [exact E|]);
      now apply whiteSpace_isWhiteSpace.
Qed.

Lemma digits_plus (ic : bool) (w : jsstring) :
  Lang.lang ic (plus Digit) w <-> Wording.digits w.
Proof.
  unfold plus, Wording.digits. rewrite digit_run. cbn [Lang.iterations].
  split; intros [H1 H2]; split; try assumption.
  - intros ->. cbn [length] in H2. lia.
  - destruct w; [congruence | cbn [length]; lia].
Qed.

Lemma char_exact (c : codeUnit) (w : jsstring) :
  Lang.lang false (Char c) w <-> w = [c].
Proof.
  cbn. split.
  - intros [x [-> Hx]]. apply N.eqb_eq in Hx. now subst.
  - intros ->. exists c. split; [reflexivity | apply N.eqb_refl].
Qed.

Lemma opt_words (ic : bool) (r : regex) (w : jsstring) :
  Lang.lang ic (opt r) w <-> w = [] \/ Lang.lang ic r w.
Proof.
  split; [apply opt_word|]. intros [-> | H]; cbn [Lang.lang opt].
  - exists []. repeat split; [constructor | cbn; lia | cbn; lia].
  - exists [w]. cbn [concat]. rewrite app_nil_r.
    repeat split; [now constructor | cbn; lia | cbn; lia].
Qed.

Lemma word_letters (ic : bool) (s w : jsstring) :
  Lang.lang ic (word s) w
  <-> Forall2 (fun c x => (canonicalize ic x =? canonicalize ic c)%N = true)
              s w.
Proof.
  revert w. induction s as [|c s IH]; intros w.
  - cbn. split; [intros ->; constructor | intros H; now inversion H].
  - change (word (c :: s)) with (Seq (Char c) (word s)).
    rewrite seq_words. split.
    + intros [w1 [w2 [-> [[x [-> Hx]] H2]]]].
      constructor; [exact Hx | now apply IH].
    + intros H. inversion H as [|c' x s' w' Hx H2]; subst.
      exists [x], w'. repeat split; [now exists x | now apply IH].
Qed.

(** Without the [i] flag a literal text matches itself only. *)
Lemma word_exact (s w : jsstring) : Lang.lang false (word s) w <-> w = s.
Proof.
  rewrite word_letters. split.
  - induction 1 as [|c x s w Hx _ IH]; [reflexivity|].
    cbn in Hx. apply N.eqb_eq in Hx. now subst.
  - intros ->. induction s as [|c s IH]; constructor;
      [cbn; apply N.eqb_refl | exact IH].
Qed.

(** With the [i] flag a lower-case letter of the pattern matches itself
    and its upper-case form. *)
Lemma letter_anyCase (c x : codeUnit) :
  (97 <=? c)%N && (c <=? 122)%N = true ->
  (canonicalize true x =? canonicalize true c)%N = true
  <-> x = c \/ (x + 32)%N = c.
Proof.
  intros Hc. apply andb_true_iff in Hc. destruct Hc as [H1 H2].
  apply N.leb_le in H1, H2.
  rewrite N.eqb_eq. unfold canonicalize. cbn [andb].
  destruct (N.leb_spec 97 x), (N.leb_spec x 122), (N.leb_spec 97 c),
    (N.leb_spec c 122); cbn [andb]; lia.
Qed.

Lemma word_anyCase (s w : jsstring) :
  forallb (fun c => (97 <=? c)%N && (c <=? 122)%N) s = true ->
  Lang.lang true (word s) w <-> Wording.anyCase s w.
Proof.
  intros Hs. rewrite word_letters. unfold Wording.anyCase.
  revert w Hs. induction s as [|c s IH]; intros w Hs.
  - split; intros H; inversion H; constructor.
  - cbn [forallb] in Hs. apply andb_true_iff in Hs. destruct Hs as [Hc Hs].
    split; intros H; inversion H as [|c' x s' w' Hx Hw]; subst;
      constructor; try (now apply (IH w' Hs));
      now apply (@letter_anyCase c x Hc).
Qed.

Lemma char_anyCase (c : codeUnit) (w : jsstring) :
  (97 <=? c)%N && (c <=? 122)%N = true ->
  Lang.lang true (Char c) w <-> Wording.anyCase [c] w.
Proof.
  intros Hc. cbn [Lang.lang]. split.
  - intros [x [-> Hx]].
    constructor; [now apply letter_anyCase | constructor].
  - intros H. inversion H as [|c' x s' w' Hx Hw]; subst.
    inversion Hw; subst. exists x.
    split; [reflexivity | now apply letter_anyCase].
Qed.

(** A unit and its plural. *)
Lemma plural_anyCase (s w : jsstring) :
  forallb (fun c => (97 <=? c)%N && (c <=? 122)%N) s = true ->
  Lang.lang true (Seq (word s) (opt (Char 115%N))) w
  <-> Wording.anyCase s w \/ Wording.anyCase (s ++ [115%N]) w.
Proof.
  intros Hs. rewrite seq_words. split.
  - intros [w1 [w2 [-> [H1 H2]]]].
    apply (@word_anyCase s w1 Hs) in H1. apply opt_words in H2.
    destruct H2 as [-> | H2].
    + left. now rewrite app_nil_r.
    + right. apply char_anyCase in H2; [|reflexivity].
      now apply Forall2_app.
  - intros [H | H].
    + exists w, []. rewrite app_nil_r.
      repeat split; [now apply word_anyCase | apply opt_words; now left].
    + apply Forall2_app_inv_l in H.
      destruct H as [w1 [w2 [H1 [H2 ->]]]]. exists w1, w2.
      repeat split; [now apply word_anyCase|].
      apply opt_words. right. now apply char_anyCase.
Qed.

Lemma hours_words (w : jsstring) :
  Lang.lang true
    (Alt (Seq (word (lit "hour")) (opt (Char 115%N))) (Char 104%N)) w
  <-> exists u, In u Wording.hoursOnly /\ Wording.anyCase u w.
Proof.
  change (Lang.lang true (Seq (word (lit "hour")) (opt (Char 115%N))) w
          \/ Lang.lang true (Char 104%N) w
          <-> exists u, In u Wording.hoursOnly /\ Wording.anyCase u w).
  rewrite plural_anyCase, char_anyCase by reflexivity.
  unfold Wording.hoursOnly.
  change (lit "hours") with (lit "hour" ++ [115%N]).
  change (lit "h") with [104%N].
  split.
  - intros [[H | H] | H]; eexists; (split; [|exact H]); cbn [In]; tauto.
  - intros [u [Hin H]]. cbn [In] in Hin.
    destruct Hin as [<- | [<- | [<- | []]]]; tauto.
Qed.

Lemma hours_and_minutes_words (w : jsstring) :
  Lang.lang true
    (Alt (Seq (word (lit "hour")) (opt (Char 115%N)))
         (Alt (Char 104%N)
              (Alt (Seq (word (lit "minute")) (opt (Char 115%N)))
                   (Char 109%N)))) w
  <-> exists u, In u Wording.hoursAndMinutes /\ Wording.anyCase u w.
Proof.
  change (Lang.lang true (Seq (word (lit "hour")) (opt (Char 115%N))) w
          \/ Lang.lang true (Char 104%N) w
          \/ Lang.lang true (Seq (word (lit "minute")) (opt (Char 115%N))) w
          \/ Lang.lang true (Char 109%N) w
          <-> exists u, In u Wording.hoursAndMinutes /\ Wording.anyCase u w).
  rewrite !plural_anyCase, !char_anyCase by reflexivity.
  unfold Wording.hoursAndMinutes.
  change (lit "hours") with (lit "hour" ++ [115%N]).
  change (lit "minutes") with (lit "minute" ++ [115%N]).
  change (lit "h") with [104%N]. change (lit "m") with [109%N].
  split.
  - intros [[H | H] | [H | [[H | H] | H]]]; eexists; (split; [|exact H]);
      cbn [In]; tauto.
  - intros [u [Hin H]]. cbn [In] in Hin.
    destruct Hin as [<- | [<- | [<- | [<- | [<- | [<- | []]]]]]]; tauto.
Qed.

(** The group of the two elapsed-time patterns, for the units [U]
    matches. *)
Lemma elapsed_words (U : regex) (units : list jsstring) (c : jsstring) :
  (forall w,
      Lang.lang true U w <-> exists u, In u units /\ Wording.anyCase u w) ->
  Lang.lang true
    (seqs [plus Digit; star Space; U; star Space; word (lit "ago")]) c
  <-> Wording.elapsed units c.
Proof.
  intros HU. cbn [seqs fold_right]. split.
  - intros H. cbn [Lang.lang] in H.
    destruct H as [w1 [t1 [-> [H1 [w2 [t2 [-> [H2 [w3 [t3 [-> [H3
                  [w4 [t4 [-> [H4 [w5 [t5 [-> [H5 ->]]]]]]]]]]]]]]]]]]]].
    rewrite app_nil_r.
    apply digits_plus in H1. apply space_run in H2. apply space_run in H4.
    apply HU in H3. destruct H3 as [u [Hu H3]].
    apply word_anyCase in H5; [|reflexivity].
    exists w1, w2, w3, w4, w5, u. repeat split; try assumption; apply H1.
  - intros [number [gap [unit [gap' [ago [u H]]]]]].
    destruct H as [-> [Hn [Hg [Hu [Hc [Hg' Ha]]]]]].
    apply seq_words. exists number, (gap ++ unit ++ gap' ++ ago).
    split; [reflexivity|]. split; [now apply digits_plus|].
    apply seq_words. exists gap, (unit ++ gap' ++ ago).
    split; [reflexivity|]. split; [now apply space_run|].
    apply seq_words. exists unit, (gap' ++ ago).
    split; [reflexivity|]. split; [apply HU; now exists u|].
    apply seq_words. exists gap', ago.
    split; [reflexivity|]. split; [now apply space_run|].
    apply seq_words. exists ago, [].
    split; [now rewrite app_nil_r|].
    split; [now apply word_anyCase | reflexivity].
Qed.

(** Groups of a comma and digits, any number of them. *)
Lemma comma_groups (min : nat) (max : option nat) (P : jsstring -> Prop)
      (groups : list jsstring) :
  (forall g, P g -> Lang.lang false (Quant min max Digit) g) ->
  Forall P groups ->
  Lang.lang false (star (Seq (Char comma) (Quant min max Digit)))
            (concat (map (fun g => comma :: g) groups)).
Proof.
  intros HP Hall. unfold star. cbn [Lang.lang].
  exists (map (fun g => comma :: g) groups).
  split; [reflexivity|]. split; [|cbn; lia].
  apply Forall_map. eapply Forall_impl; [|exact Hall].
  intros g Hg. exists [comma], g.
  split; [reflexivity|]. split; [|now apply HP].
  exists comma. split; [reflexivity | apply N.eqb_refl].
Qed.

Lemma grouped_words (c : jsstring) :
  Lang.lang false groupedPercent c <-> Wording.grouped c.
Proof.
  split.
  - intros H. apply grouped_word in H.
    destruct H as [head [groups [-> [Hlen [Hh Hg]]]]].
    exists head, groups.
    split; [reflexivity|]. split; [exact Hlen|].
    split; [now apply digits_all|].
    eapply Forall_impl; [|exact Hg].
    intros g [Hl Hd]. split; [exact Hl | now apply digits_all].
  - intros [head [groups [-> [Hlen [Hh Hg]]]]].
    unfold groupedPercent. cbn [seqs fold_right].
    apply seq_words. eexists. eexists. split; [reflexivity|].
    split; [apply digit_run; split; [exact Hh | cbn; lia]|].
    apply seq_words. eexists. eexists. split; [reflexivity|].
    split.
    + apply (comma_groups (P := fun g => length g = 3
                                        /\ Forall Wording.digit g));
        [|exact Hg].
      intros g [Hl Hd]. apply digit_run. split; [exact Hd | cbn; lia].
    + apply seq_words. exists [percent], [].
      repeat split. now apply char_exact.
Qed.

(** Every word the words call loose is a word of the loose pattern. *)
Lemma loose_words (c : jsstring) :
  Wording.loose c ->
  Lang.lang false
    (seqs [plus Digit; star (Seq (Char comma) (plus Digit)); Char percent]) c.
Proof.
  intros [head [groups [-> [Hh Hg]]]]. cbn [seqs fold_right].
  apply seq_words. eexists. eexists. split; [reflexivity|].
  split; [now apply digits_plus|].
  apply seq_words. eexists. eexists. split; [reflexivity|].
  split.
  - apply (comma_groups (P := Wording.digits)); [|exact Hg].
    intros g Hd. now apply (digits_plus false).
  - apply seq_words. exists [percent], [].
    repeat split. now apply char_exact.
Qed.

End GroupWords.

(** ** What the patterns of the cleaner find *)

Section PatternWords.

Import QuoteAware.

Lemma percentage_first (s c : jsstring) :
  exec percentagePattern s = Some c ->
  Wording.firstMatch Wording.nothing Wording.grouped s c.
Proof.
  apply (@exec_firstMatch percentagePattern Wording.nothing Wording.grouped).
  - split; reflexivity.
  - reflexivity.
  - intros w Hw. exact Hw.
  - intros w Hw. now apply grouped_words.
  - intros w Hw. exact Hw.
  - intros w Hw. now apply grouped_words.
Qed.

Lemma percentage_none (s : jsstring) :
  exec percentagePattern s = None ->
  Wording.noMatch Wording.nothing Wording.grouped s.
Proof.
  apply (@exec_noMatch percentagePattern Wording.nothing Wording.grouped).
  - split; reflexivity.
  - reflexivity.
  - intros w Hw. exact Hw.
  - intros w Hw. now apply grouped_words.
Qed.

Lemma arrow_none (s : jsstring) :
  exec arrowPattern s = None ->
  Wording.noMatch (Wording.exactly (lit "arrow_upward")) Wording.grouped s.
Proof.
  apply (@exec_noMatch arrowPattern (Wording.exactly (lit "arrow_upward"))
                       Wording.grouped).
  - split; reflexivity.
  - reflexivity.
  - intros w Hw. now apply word_exact.
  - intros w Hw. now apply grouped_words.
Qed.

Lemma loose_none (s : jsstring) :
  exec anyDigitsPattern s = None ->
  Wording.noMatch Wording.nothing Wording.loose s.
Proof.
  apply (@exec_noMatch anyDigitsPattern Wording.nothing Wording.loose).
  - split; reflexivity.
  - reflexivity.
  - intros w Hw. exact Hw.
  - intros w Hw. now apply loose_words.
Qed.

Lemma time_words (c : jsstring) :
  Lang.lang true (group timePattern) c
  <-> Wording.elapsed Wording.hoursAndMinutes c.
Proof. apply elapsed_words. apply hours_and_minutes_words. Qed.

Lemma simple_time_words (c : jsstring) :
  Lang.lang true (group Simple.timePattern) c
  <-> Wording.elapsed Wording.hoursOnly c.
Proof. apply elapsed_words. apply hours_words. Qed.

Lemma time_first (s c : jsstring) :
  exec timePattern s = Some c ->
  Wording.firstMatch Wording.nothing
                     (Wording.elapsed Wording.hoursAndMinutes) s c.
Proof.
  apply (@exec_firstMatch timePattern Wording.nothing
                          (Wording.elapsed Wording.hoursAndMinutes)).
  - split; reflexivity.
  - reflexivity.
  - intros w Hw. exact Hw.
  - intros w Hw. now apply time_words.
  - intros w Hw. exact Hw.
  - intros w Hw. now apply time_words.
Qed.

Lemma time_none (s : jsstring) :
  exec timePattern s = None ->
  Wording.noMatch Wording.nothing
                  (Wording.elapsed Wording.hoursAndMinutes) s.
Proof.
  apply (@exec_noMatch timePattern Wording.nothing
                       (Wording.elapsed Wording.hoursAndMinutes)).
  - split; reflexivity.
  - reflexivity.
  - intros w Hw. exact Hw.
  - intros w Hw. now apply time_words.
Qed.

Lemma simple_time_first (s c : jsstring) :
  exec Simple.timePattern s = Some c ->
  Wording.firstMatch Wording.nothing (Wording.elapsed Wording.hoursOnly) s c.
Proof.
  apply (@exec_firstMatch Simple.timePattern Wording.nothing
                          (Wording.elapsed Wording.hoursOnly)).
  - split; reflexivity.
  - reflexivity.
  - intros w Hw. exact Hw.
  - intros w Hw. now apply simple_time_words.
  - intros w Hw. exact Hw.
  - intros w Hw. now apply simple_time_words.
Qed.

Lemma simple_time_none (s : jsstring) :
  exec Simple.timePattern s = None ->
  Wording.noMatch Wording.nothing (Wording.elapsed Wording.hoursOnly) s.
Proof.
  apply (@exec_noMatch Simple.timePattern Wording.nothing
                       (Wording.elapsed Wording.hoursOnly)).
  - split; reflexivity.
  - reflexivity.
  - intros w Hw. exact Hw.
  - intros w Hw. now apply simple_time_words.
Qed.

End PatternWords.

(** ** The field splitter, in words *)

Section SplitterWords.

Import QuoteAware.

Lemma Forall2_map_self {X Y : Type} (R : X -> Y -> Prop) (f : X -> Y)
      (l : list X) :
  (forall x, R x (f x)) -> Forall2 R l (map f l).
Proof.
  intros H. induction l as [|x l IH]; cbn [map]; constructor;
    [apply H | exact IH].
Qed.

(** C5. For every blob the splitter cuts at the commas that have an even
    number of unescaped double quotes before them and at no other place;
    the fields are, one for one and in order, the segments between these
    commas, each without the white space at its two ends and then without
    a double quote at its start and without a double quote at its end,
    each removed when it is there; the text after the last such comma,
    when there is some, is the last segment. *)
Theorem splitter_quote_aware (rawData : jsstring) :
  Forall2 Wording.cleanedUp
    (Spec.closedSegments rawData 0
       (filter (fun i =>
                  (nth i rawData 0 =? comma)%N
                  && negb (Spec.insideQuotes rawData i))
               (seq 0 (length rawData)))
     ++ match Spec.trailing rawData with
        | [] => []
        | _ :: _ => [Spec.trailing rawData]
        end)
    (splitFields rawData).
Proof.
  rewrite splitFields_segments. apply Forall2_app.
  - apply (Forall2_map_self Wording.cleanedUp
             (fun segment => stripWrappingQuotes (trim segment))).
    intros segment. apply fieldOf_cleanedUp.
  - destruct (Spec.trailing rawData) as [|x rest]; cbn [isEmpty];
      constructor; [|constructor].
    exists (trim (x :: rest)), (stripLeading quote (trim (x :: rest))).
    split; [apply trim_trimmed|].
    split; [apply stripLeading_withoutLeading|].
    apply stripTrailing_withoutTrailing.
Qed.

(** A lone double quote is stripped, and white space inside the double
    quotes stays: the field is not the segment trimmed and freed of a
    pair of wrapping double quotes, and not every field is free of white
    space at its ends. *)
Lemma splitter_not_as_worded :
  splitFields loneQuote = [lit "abc"]
  /\ ~ Forall2 Wording.cleanedOfPair [loneQuote] (splitFields loneQuote)
  /\ splitFields spacedQuotes = [lit " a "; lit "b"]
  /\ ~ Forall Wording.edgesFree (splitFields spacedQuotes).
Proof.
  split; [vm_compute; reflexivity|]. split; [|split].
  - change (splitFields loneQuote) with [lit "abc"]. intros H.
    apply Forall2_cons_iff in H. destruct H as [[t [Ht Hp]] _].
    apply trimmed_is_trim in Ht. subst t.
    change (trim loneQuote) with loneQuote in Hp.
    destruct Hp as [E | [E _]]; vm_compute in E; discriminate.
  - vm_compute. reflexivity.
  - change (splitFields spacedQuotes) with [lit " a "; lit "b"]. intros H.
    apply Forall_inv in H. destruct H as [Hfirst _].
    apply (Hfirst 32%N (lit "a ")); [reflexivity|].
    unfold Wording.whiteSpace, Wording.whiteSpaceCodes. cbn [In]. tauto.
Qed.

End SplitterWords.

(** ** The elapsed time, in words *)

Section ElapsedTimeWords.

Import QuoteAware.

Lemma elapsedTime_holds (p : pattern) (units : list jsstring)
      (fields : list jsstring) :
  (forall s c,
      exec p s = Some c ->
      Wording.firstMatch Wording.nothing (Wording.elapsed units) s c) ->
  (forall s,
      exec p s = None ->
      Wording.noMatch Wording.nothing (Wording.elapsed units) s) ->
  Wording.elapsedTime units fields
    (match find (fun field => includes field (lit "ago")) fields with
     | None => []
     | Some field =>
         match exec p field with
         | Some capture => capture
         | None => trim (stripLeadingDot field)
         end
     end).
Proof.
  intros Hsome Hnone.
  generalize (@find_firstWith
                (fun field => includes field (lit "ago"))
                (fun field => Wording.contains field (lit "ago"))
                fields
                (fun field => includes_contains field (lit "ago"))).
  destruct (find _ fields) as [field|]; intros F.
  - right. exists field. split; [exact F|].
    destruct (exec p field) as [c|] eqn:E.
    + left. now apply Hsome.
    + right. split; [now apply Hnone|].
      exists (stripLeadingDot field).
      split; [apply stripLeading_withoutLeading | apply trim_trimmed].
  - left. now split.
Qed.

(** C8. For every blob, in both versions of the cleaner, [timeAgo] comes
    from the first field that contains [ago]: when digits, white space or
    none, a unit in any case, white space or none and [ago] in any case
    stand in that field, it is the leftmost such text, otherwise it is
    the field without a middle dot at its start and without the white
    space at its two ends; it is empty when no field contains [ago].  The
    units are [hour], [hours], [h], [minute], [minutes] and [m] in
    src/unnamed/part_000, and [hour], [hours] and [h] in
    src/src/cleaner.tsx. *)
Theorem timeAgo_rule (rawData : jsstring) :
  Wording.elapsedTime Wording.hoursAndMinutes (splitFields rawData)
                      (timeAgo (cleanTrendsData rawData))
  /\ Wording.elapsedTime Wording.hoursOnly (Simple.splitFields rawData)
                         (timeAgo (Simple.cleanTrendsData rawData)).
Proof.
  split.
  - rewrite cleanTrendsData_time. unfold Spec.elapsedTime.
    apply elapsedTime_holds; [apply time_first | apply time_none].
  - rewrite simple_time.
    apply elapsedTime_holds;
      [apply simple_time_first | apply simple_time_none].
Qed.

Ltac all_digits :=
  match goal with
  | |- Forall Wording.digit ?l =>
      let v := eval vm_compute in l in change (Forall Wording.digit v)
  end;
  repeat (constructor; [unfold Wording.digit; lia|]); constructor.

Lemma digits_50 : Wording.digits (lit "50").
Proof. split; [discriminate | all_digits]. Qed.

Lemma elapsed_50m : Wording.elapsed Wording.hoursAndMinutes (lit "50m ago").
Proof.
  exists (lit "50"), [], (lit "m"), (lit " "), (lit "ago"), (lit "m").
  split; [reflexivity|]. split; [exact digits_50|].
  split; [constructor|].
  split; [unfold Wording.hoursAndMinutes; cbn [In]; tauto|].
  split; [repeat constructor|].
  split.
  - constructor; [|constructor].
    unfold Wording.whiteSpace, Wording.whiteSpaceCodes. cbn [In]. tauto.
  - repeat constructor.
Qed.

(** Minutes are no unit of src/src/cleaner.tsx: on a field that holds
    [50m ago] it stores the whole field, where the pattern with minutes
    gives [50m ago]. *)
Lemma timeAgo_without_minutes :
  timeAgo (Simple.cleanTrendsData minutesBlob) = lit "about 50m ago"
  /\ timeAgo (cleanTrendsData minutesBlob) = lit "50m ago"
  /\ ~ Wording.elapsedTime Wording.hoursAndMinutes
         (Simple.splitFields minutesBlob)
         (timeAgo (Simple.cleanTrendsData minutesBlob)).
Proof.
  split; [vm_compute; reflexivity|]. split; [vm_compute; reflexivity|].
  change (Simple.splitFields minutesBlob)
    with [lit "Zed"; lit "about 50m ago"].
  change (timeAgo (Simple.cleanTrendsData minutesBlob))
    with (lit "about 50m ago").
  intros [[Hnone _] | [field [[earlier [later [E [Hc Hall]]]] Hrule]]].
  - apply Forall_inv_tail in Hnone. apply Forall_inv in Hnone.
    apply Hnone. now exists (lit "about 50m "), [].
  - destruct earlier as [|e1 [|e2 earlier]]; cbn [app] in E.
    + injection E as <- _. apply includes_contains in Hc.
      vm_compute in Hc. discriminate.
    + injection E as _ <- _.
      destruct Hrule as [[pre [[b [post [_ [_ Hel]]]] _]] | [Hno _]].
      * destruct Hel as [number [gap [unit [gap' [ago [u Hel]]]]]].
        destruct Hel as [Ev [[Hne Hd] _]].
        destruct number as [|d number]; [congruence|].
        apply Forall_inv in Hd. cbn [app] in Ev.
        change (lit "about 50m ago")
          with (97%N :: lit "bout 50m ago") in Ev.
        injection Ev as <- _. unfold Wording.digit in Hd. lia.
      * apply (Hno (lit "about ") (lit "50m ago")).
        exists [], []. split; [reflexivity|].
        split; [reflexivity | exact elapsed_50m].
    + injection E as _ _ E. destruct earlier; discriminate.
Qed.

End ElapsedTimeWords.

(** ** The growth percentage, in words *)

Section GrowthWords.

Import QuoteAware.

Lemma percentField_test (field : jsstring) :
  includes field (lit "%") && hasDigit field = true
  <-> Wording.percentField field.
Proof.
  unfold Wording.percentField. rewrite andb_true_iff.
  change (lit "%") with [percent].
  now rewrite includes_one, hasDigit_exists.
Qed.

Lemma grouped_1000 : Wording.grouped (lit "1,000%").
Proof.
  exists (lit "1"), [lit "000"]. split; [reflexivity|].
  split; [cbn; lia|]. split.
  - change (lit "1") with [49%N].
    repeat (constructor; [unfold Wording.digit; lia|]). constructor.
  - constructor; [|constructor]. split; [reflexivity|].
    change (lit "000") with [48; 48; 48]%N.
    repeat (constructor; [unfold Wording.digit; lia|]). constructor.
Qed.

Lemma groupedBlob_units :
  groupedBlob
  = [90; 101; 100; 44; 117; 112; 32; 49; 44; 48; 48; 48; 37]%N.
Proof. reflexivity. Qed.

(** C3. For every blob the cleaner of src/unnamed/part_000 stores as
    [growthPercentage] the leftmost text of the whole blob that is one to
    three digits, groups of a comma and three digits, and a percent sign;
    only when the blob holds no such text does it turn to the first field
    that contains a percent sign and a digit, and tries there, in this
    order, such a text after [arrow_upward], such a text anywhere, and
    digits with groups of a comma and digits before a percent sign; the
    value is empty when there is no such field or nothing is found.  The
    cleaner of src/src/cleaner.tsx does not: on a blob that holds
    [1,000%] it stores [000%]. *)
Theorem growthPercentage_rule :
  (forall rawData : jsstring,
      Wording.growth rawData (splitFields rawData)
                     (growthPercentage (cleanTrendsData rawData)))
  /\ growthPercentage (cleanTrendsData groupedBlob) = lit "1,000%"
  /\ growthPercentage (Simple.cleanTrendsData groupedBlob) = lit "000%"
  /\ ~ Wording.growth groupedBlob (Simple.splitFields groupedBlob)
         (growthPercentage (Simple.cleanTrendsData groupedBlob)).
Proof.
  split; [|split; [vm_compute; reflexivity|split; [vm_compute; reflexivity|]]].
  - intros rawData. rewrite cleanTrendsData_growth. unfold Spec.growth.
    destruct (exec percentagePattern rawData) as [c|] eqn:E;
      [left; now apply percentage_first | right].
    split; [now apply percentage_none|].
    generalize (@find_firstWith
                  (fun field => includes field (lit "%") && hasDigit field)
                  Wording.percentField (splitFields rawData)
                  percentField_test).
    destruct (find _ (splitFields rawData)) as [field|] eqn:Ff; intros F;
      [right | left; now split].
    exists field. split; [exact F|].
    apply find_some in Ff. destruct Ff as [Hin _].
    pose proof (fun p Hp => @fallback_fails rawData field p E Hin Hp)
      as Hfail.
    cbn [Spec.firstCapture]. rewrite !Hfail by (cbn [In]; tauto).
    right. split; [apply arrow_none, Hfail; cbn [In]; tauto|].
    right. split; [apply percentage_none, Hfail; cbn [In]; tauto|].
    right. split; [apply loose_none, Hfail; cbn [In]; tauto | reflexivity].
  - change (growthPercentage (Simple.cleanTrendsData groupedBlob))
      with (lit "000%").
    assert (Hocc : Wording.occurs Wording.nothing Wording.grouped groupedBlob
                                  (lit "Zed,up ") (lit "1,000%")).
    { exists [], []. split; [reflexivity|].
      split; [reflexivity | exact grouped_1000]. }
    intros [[pre [[b [post [E [Hb _]]]] Hmin]] | [Hno _]];
      [|exact (Hno _ _ Hocc)].
    specialize (Hmin _ _ Hocc). unfold Wording.nothing in Hb. subst b.
    rewrite groupedBlob_units in E.
    change (lit "000%") with [48; 48; 48; 37]%N in E.
    change (length (lit "Zed,up ")) with 7 in Hmin.
    do 8 (destruct pre as [|? pre];
          [discriminate E
          | cbn [app] in E; injection E as _ E; cbn [length] in Hmin]).
    lia.
Qed.

End GrowthWords.

(** ** The words determine the values

    The rules above are relations; each of them holds of one value
    only, so a theorem stated with them leaves the cleaner no choice. *)

Section Determined.

Lemma same_start {X : Type} (l1 l2 r1 r2 : list X) :
  l1 ++ r1 = l2 ++ r2 -> length l1 = length l2 -> l1 = l2 /\ r1 = r2.
Proof.
  revert l2. induction l1 as [|x l1 IH]; intros [|y l2] H Hl;
    cbn [app length] in *; try discriminate; [now split|].
  injection H as -> H. destruct (IH l2 H) as [-> ->]; [lia | now split].
Qed.

Lemma longer_start {X : Type} (l1 l2 r1 r2 : list X) :
  l1 ++ r1 = l2 ++ r2 -> length l1 < length l2 ->
  exists y rest, l2 = l1 ++ y :: rest /\ r1 = y :: rest ++ r2.
Proof.
  revert l2. induction l1 as [|x l1 IH]; intros [|y l2] H Hl;
    cbn [app length] in *; try lia.
  - now exists y, l2.
  - injection H as -> H. destruct (IH l2 H) as [z [rest [-> ->]]]; [lia|].
    now exists z, rest.
Qed.

(** A run of characters of one class, followed by a character that is
    not of the class, ends where it ends. *)
Lemma run_determined (P : codeUnit -> Prop) (l l' r r' : jsstring) :
  Forall P l -> Forall P l' ->
  (forall x t, r = x :: t -> ~ P x) ->
  (forall x t, r' = x :: t -> ~ P x) ->
  l ++ r = l' ++ r' -> l = l' /\ r = r'.
Proof.
  intros Hl. revert l'.
  induction Hl as [|x l Hx _ IH]; intros l' Hl' Hr Hr' E.
  - destruct Hl' as [|y l' Hy _]; [now split|]. cbn [app] in E.
    exfalso. now apply (Hr y (l' ++ r') E).
  - destruct Hl' as [|y l' Hy Hl']; cbn [app] in E.
    + exfalso. apply (Hr' x (l ++ r)); [now symmetry | exact Hx].
    + injection E as -> E. destruct (IH l' Hl' Hr Hr' E) as [-> ->].
      now split.
Qed.

Lemma firstWith_determined (P : jsstring -> Prop) (l : list jsstring)
      (x x' : jsstring) :
  Wording.firstWith P l x -> Wording.firstWith P l x' -> x = x'.
Proof.
  intros [e [la [-> [Hx He]]]] [e' [la' [E [Hx' He']]]].
  revert e' E He'. induction He as [|y e Hy _ IH]; intros e' E He'.
  - destruct He' as [|y' e' Hy' _]; cbn [app] in E.
    + now injection E.
    + injection E as -> _. contradiction.
  - destruct He' as [|y' e' Hy' He']; cbn [app] in E.
    + injection E as -> _. contradiction.
    + injection E as _ E. now apply (IH e').
Qed.

Lemma firstWith_some (P : jsstring -> Prop) (l : list jsstring)
      (x : jsstring) :
  Wording.firstWith P l x -> Wording.noneWith P l -> False.
Proof.
  intros [e [la [-> [Hx _]]]] Hn. apply Forall_app in Hn.
  destruct Hn as [_ Hn]. apply Forall_inv in Hn. contradiction.
Qed.

Lemma firstMatch_some (B L : jsstring -> Prop) (s c : jsstring) :
  Wording.firstMatch B L s c -> Wording.noMatch B L s -> False.
Proof. intros [pre [Ho _]] Hn. exact (Hn pre c Ho). Qed.

(** The leftmost match has one capture when the text before the group is
    fixed and no word of the group goes on into another. *)
Lemma firstMatch_determined (B L : jsstring -> Prop) (s c c' : jsstring) :
  (forall b b', B b -> B b' -> b = b') ->
  (forall w w' post post',
      L w -> L w' -> w ++ post = w' ++ post' -> w = w') ->
  Wording.firstMatch B L s c -> Wording.firstMatch B L s c' -> c = c'.
Proof.
  intros HB HL [pre [Ho Hmin]] [pre' [Ho' Hmin']].
  pose proof (Hmin _ _ Ho') as H1. pose proof (Hmin' _ _ Ho) as H2.
  destruct Ho as [b [post [-> [Hb Hc]]]].
  destruct Ho' as [b' [post' [E [Hb' Hc']]]].
  apply same_start in E; [|lia]. destruct E as [_ E].
  rewrite (HB b b' Hb Hb') in E. apply app_inv_head in E.
  exact (HL c c' post post' Hc Hc' E).
Qed.

Lemma nothing_determined (b b' : jsstring) :
  Wording.nothing b -> Wording.nothing b' -> b = b'.
Proof. unfold Wording.nothing. congruence. Qed.

Lemma exactly_determined (text b b' : jsstring) :
  Wording.exactly text b -> Wording.exactly text b' -> b = b'.
Proof. unfold Wording.exactly. congruence. Qed.

(** *** Percentages end at their percent sign *)

Lemma first_percent (body body' post post' : jsstring) :
  ~ In percent body -> ~ In percent body' ->
  body ++ percent :: post = body' ++ percent :: post' -> body = body'.
Proof.
  revert body'. induction body as [|x body IH]; intros [|y body'] H H' E;
    cbn [app] in E.
  - reflexivity.
  - injection E as <- _. exfalso. apply H'. now left.
  - injection E as -> _. exfalso. apply H. now left.
  - injection E as -> E. f_equal. apply (IH body'); [| |exact E].
    + intros Hin. apply H. now right.
    + intros Hin. apply H'. now right.
Qed.

Lemma digit_not_percent (w : jsstring) :
  Forall Wording.digit w -> ~ In percent w.
Proof.
  intros H Hin. rewrite Forall_forall in H. specialize (H _ Hin).
  unfold Wording.digit, percent in H. lia.
Qed.

Lemma groups_not_percent (P : jsstring -> Prop) (groups : list jsstring) :
  (forall g, P g -> Forall Wording.digit g) ->
  Forall P groups ->
  ~ In percent (concat (map (fun g => comma :: g) groups)).
Proof.
  intros HP Hall Hin. apply in_concat in Hin.
  destruct Hin as [piece [Hpiece Hin]].
  apply in_map_iff in Hpiece. destruct Hpiece as [g [<- Hg]].
  rewrite Forall_forall in Hall.
  destruct Hin as [E | Hin]; [discriminate E|].
  exact (digit_not_percent (HP g (Hall g Hg)) Hin).
Qed.

Lemma percent_ended (w w' post post' : jsstring) :
  (exists body, w = body ++ [percent] /\ ~ In percent body) ->
  (exists body, w' = body ++ [percent] /\ ~ In percent body) ->
  w ++ post = w' ++ post' -> w = w'.
Proof.
  intros [body [-> H]] [body' [-> H']] E.
  rewrite <- !app_assoc in E. cbn [app] in E.
  now rewrite (@first_percent body body' post post' H H' E).
Qed.

Lemma grouped_body (w : jsstring) :
  Wording.grouped w ->
  exists body, w = body ++ [percent] /\ ~ In percent body.
Proof.
  intros [head [groups [-> [_ [Hh Hg]]]]].
  exists (head ++ concat (map (fun g => comma :: g) groups)).
  split; [now rewrite <- app_assoc|].
  intros Hin. apply in_app_iff in Hin. destruct Hin as [Hin | Hin].
  - exact (digit_not_percent Hh Hin).
  - apply (groups_not_percent
             (P := fun g => length g = 3 /\ Forall Wording.digit g)
             (groups := groups)); [now intros g [_ Hd] | exact Hg | exact Hin].
Qed.

Lemma loose_body (w : jsstring) :
  Wording.loose w ->
  exists body, w = body ++ [percent] /\ ~ In percent body.
Proof.
  intros [head [groups [-> [[_ Hh] Hg]]]].
  exists (head ++ concat (map (fun g => comma :: g) groups)).
  split; [now rewrite <- app_assoc|].
  intros Hin. apply in_app_iff in Hin. destruct Hin as [Hin | Hin].
  - exact (digit_not_percent Hh Hin).
  - apply (groups_not_percent (P := Wording.digits) (groups := groups));
      [now intros g [_ Hd] | exact Hg | exact Hin].
Qed.

Lemma grouped_first_determined (B : jsstring -> Prop) (s c c' : jsstring) :
  (forall b b', B b -> B b' -> b = b') ->
  Wording.firstMatch B Wording.grouped s c ->
  Wording.firstMatch B Wording.grouped s c' -> c = c'.
Proof.
  intros HB. apply (firstMatch_determined HB).
  intros w w' post post' Hw Hw'.
  apply percent_ended; now apply grouped_body.
Qed.

Lemma loose_first_determined (s c c' : jsstring) :
  Wording.firstMatch Wording.nothing Wording.loose s c ->
  Wording.firstMatch Wording.nothing Wording.loose s c' -> c = c'.
Proof.
  apply (firstMatch_determined nothing_determined).
  intros w w' post post' Hw Hw'.
  apply percent_ended; now apply loose_body.
Qed.

Ltac found_and_missing :=
  exfalso;
  match goal with
  | F : Wording.firstMatch ?B0 ?L0 ?s0 _, N : Wording.noMatch ?B0 ?L0 ?s0
    |- _ => exact (firstMatch_some F N)
  | F : Wording.firstWith ?P0 ?l0 _, N : Wording.noneWith ?P0 ?l0
    |- _ => exact (firstWith_some F N)
  end.

Lemma fieldGrowth_determined (field value value' : jsstring) :
  Wording.fieldGrowth field value -> Wording.fieldGrowth field value' ->
  value = value'.
Proof.
  intros [A1 | [N1 [A2 | [N2 [A3 | [N3 ->]]]]]]
         [B1 | [M1 [B2 | [M2 [B3 | [M3 ->]]]]]];
    try reflexivity; try found_and_missing.
  - exact (grouped_first_determined
             (@exactly_determined (lit "arrow_upward")) A1 B1).
  - exact (grouped_first_determined nothing_determined A2 B2).
  - exact (loose_first_determined A3 B3).
Qed.

(** The growth rule holds of one value. *)
Lemma growth_determined (rawData : jsstring) (fields : list jsstring)
      (value value' : jsstring) :
  Wording.growth rawData fields value ->
  Wording.growth rawData fields value' ->
  value = value'.
Proof.
  intros [A | [N [[Hn ->] | [field [Hf Hg]]]]]
         [B | [M [[Hm ->] | [field' [Hf' Hg']]]]];
    try reflexivity; try found_and_missing.
  - exact (grouped_first_determined nothing_determined A B).
  - rewrite (firstWith_determined Hf' Hf) in Hg'.
    exact (fieldGrowth_determined Hg Hg').
Qed.

(** *** Elapsed times end at their [ago] *)

Lemma whiteSpace_not_digit (x : codeUnit) :
  Wording.whiteSpace x -> ~ Wording.digit x.
Proof.
  unfold Wording.whiteSpace, Wording.whiteSpaceCodes, Wording.digit.
  cbn [In]. lia.
Qed.

Lemma letter_not_digit (w x : codeUnit) :
  (97 <=? w)%N && (w <=? 122)%N = true ->
  x = w \/ (x + 32)%N = w -> ~ Wording.digit x.
Proof.
  intros Hw Hx. apply andb_true_iff in Hw. destruct Hw as [H1 H2].
  apply N.leb_le in H1, H2. unfold Wording.digit. lia.
Qed.

Lemma letter_not_whiteSpace (w x : codeUnit) :
  (97 <=? w)%N && (w <=? 122)%N = true ->
  x = w \/ (x + 32)%N = w -> ~ Wording.whiteSpace x.
Proof.
  intros Hw Hx. apply andb_true_iff in Hw. destruct Hw as [H1 H2].
  apply N.leb_le in H1, H2.
  unfold Wording.whiteSpace, Wording.whiteSpaceCodes. cbn [In]. lia.
Qed.

(** The text after the unit starts with white space or with the [a] of
    [ago]. *)
Lemma after_unit (gap ago post : jsstring) (y : codeUnit) (t : jsstring) :
  Forall Wording.whiteSpace gap ->
  Wording.anyCase (lit "ago") ago ->
  gap ++ ago ++ post = y :: t ->
  Wording.whiteSpace y \/ y = 97%N \/ y = 65%N.
Proof.
  intros Hg Ha E. destruct Hg as [|g gap Hg _]; cbn [app] in E.
  - change (lit "ago") with [97; 103; 111]%N in Ha.
    inversion Ha as [|w a ws ago' Hx _]; subst. cbn [app] in E.
    injection E as <- _. right. lia.
  - injection E as <- _. now left.
Qed.

Section Units.

Variable units : list jsstring.

(** No unit is empty, every unit is made of lower-case letters, and no
    unit has an [a] after its first letter. *)
Hypothesis unitsPlain :
  forallb (fun u =>
             negb (isEmpty u)
             && forallb (fun w => (97 <=? w)%N && (w <=? 122)%N) u
             && forallb (fun w => negb (w =? 97)%N) (tl u)) units
  = true.

Lemma unit_plain (u : jsstring) :
  In u units ->
  u <> []
  /\ forallb (fun w => (97 <=? w)%N && (w <=? 122)%N) u = true
  /\ forallb (fun w => negb (w =? 97)%N) (tl u) = true.
Proof.
  intros Hin. rewrite forallb_forall in unitsPlain.
  specialize (unitsPlain u Hin).
  apply andb_true_iff in unitsPlain. destruct unitsPlain as [H H3].
  apply andb_true_iff in H. destruct H as [H1 H2].
  repeat split; try assumption. intros ->. discriminate.
Qed.

(** The first character of a unit is a letter. *)
Lemma unit_head (u unit : jsstring) :
  In u units -> Wording.anyCase u unit ->
  exists x rest w,
    unit = x :: rest
    /\ (97 <=? w)%N && (w <=? 122)%N = true
    /\ (x = w \/ (x + 32)%N = w).
Proof.
  intros Hin Hc. destruct (@unit_plain u Hin) as [Hne [Hl _]].
  destruct u as [|w u0]; [congruence|].
  inversion Hc as [|w' x u1 unit0 Hx _]; subst.
  cbn [forallb] in Hl. apply andb_true_iff in Hl. destruct Hl as [Hw _].
  now exists x, unit0, w.
Qed.

(** A character of a unit after the first is a letter, and no [a]. *)
Lemma unit_inside (u unit front rest : jsstring) (y : codeUnit) :
  In u units -> Wording.anyCase u unit ->
  unit = front ++ y :: rest -> front <> [] ->
  ~ Wording.whiteSpace y /\ y <> 97%N /\ y <> 65%N.
Proof.
  intros Hin Hc -> Hne. destruct (@unit_plain u Hin) as [_ [Hl Ha]].
  apply Forall2_app_inv_r in Hc.
  destruct Hc as [u1 [u2 [H1 [H2 ->]]]].
  inversion H2 as [|w y' u2' rest' Hy _]; subst.
  destruct front as [|x1 front0]; [congruence|].
  inversion H1 as [|w1 x1' u0 front1 _ _]; subst.
  cbn [app tl] in Ha, Hl. cbn [forallb] in Hl.
  apply andb_true_iff in Hl. destruct Hl as [_ Hl].
  rewrite forallb_app in Ha, Hl.
  apply andb_true_iff in Ha. destruct Ha as [_ Ha].
  apply andb_true_iff in Hl. destruct Hl as [_ Hl].
  cbn [forallb] in Ha, Hl.
  apply andb_true_iff in Ha. destruct Ha as [Ha _].
  apply andb_true_iff in Hl. destruct Hl as [Hw _].
  apply negb_true_iff, N.eqb_neq in Ha.
  split; [exact (@letter_not_whiteSpace w y Hw Hy)|].
  apply andb_true_iff in Hw. destruct Hw as [W1 W2].
  apply N.leb_le in W1, W2. lia.
Qed.

(** Of two units that start at the same place the second is not the
    longer one. *)
Lemma unit_not_longer
      (u u' unit unit' gap gap' ago ago' post post' : jsstring) :
  In u units -> Wording.anyCase u unit ->
  In u' units -> Wording.anyCase u' unit' ->
  Forall Wording.whiteSpace gap -> Wording.anyCase (lit "ago") ago ->
  unit ++ gap ++ ago ++ post = unit' ++ gap' ++ ago' ++ post' ->
  length unit' <= length unit.
Proof.
  intros Hin Hc Hin' Hc' Hg Ha E.
  destruct (Nat.le_gt_cases (length unit') (length unit)) as [H | H];
    [exact H | exfalso].
  destruct (@longer_start _ unit unit' _ _ E H) as [y [rest [Eu Ey]]].
  assert (Hne : unit <> []).
  { destruct (@unit_head u unit Hin Hc) as [x [t [w [-> _]]]].
    discriminate. }
  destruct (@unit_inside u' unit' unit rest y Hin' Hc' Eu Hne)
    as [Hw [H97 H65]].
  destruct (@after_unit gap ago post y (rest ++ gap' ++ ago' ++ post')
                        Hg Ha Ey) as [W | [W | W]]; contradiction.
Qed.

(** What follows the digits is no digit, and what follows the white
    space is no white space. *)
Lemma after_number (gap unit gap2 ago u post : jsstring) (x : codeUnit)
      (t : jsstring) :
  Forall Wording.whiteSpace gap ->
  In u units -> Wording.anyCase u unit ->
  gap ++ unit ++ gap2 ++ ago ++ post = x :: t ->
  ~ Wording.digit x.
Proof.
  intros Hg Hu Hc E. destruct Hg as [|g gap Hg _]; cbn [app] in E.
  - destruct (@unit_head u unit Hu Hc) as [y [rest [w [-> [Hw Hy]]]]].
    cbn [app] in E. injection E as <- _.
    exact (@letter_not_digit w y Hw Hy).
  - injection E as <- _. now apply whiteSpace_not_digit.
Qed.

Lemma after_gap (unit gap2 ago u post : jsstring) (x : codeUnit)
      (t : jsstring) :
  In u units -> Wording.anyCase u unit ->
  unit ++ gap2 ++ ago ++ post = x :: t ->
  ~ Wording.whiteSpace x.
Proof.
  intros Hu Hc E.
  destruct (@unit_head u unit Hu Hc) as [y [rest [w [-> [Hw Hy]]]]].
  cbn [app] in E. injection E as <- _.
  exact (@letter_not_whiteSpace w y Hw Hy).
Qed.

Lemma before_ago (ago post : jsstring) (x : codeUnit) (t : jsstring) :
  Wording.anyCase (lit "ago") ago ->
  ago ++ post = x :: t -> ~ Wording.whiteSpace x.
Proof.
  intros Ha E. change (lit "ago") with [97; 103; 111]%N in Ha.
  inversion Ha as [|w a ws ago' Hx _]; subst. cbn [app] in E.
  injection E as <- _.
  exact (@letter_not_whiteSpace 97%N a eq_refl Hx).
Qed.

(** No elapsed time goes on into another. *)
Lemma elapsed_determined (c c' post post' : jsstring) :
  Wording.elapsed units c -> Wording.elapsed units c' ->
  c ++ post = c' ++ post' -> c = c'.
Proof.
  intros [number [gap [unit [gap2 [ago [u H]]]]]]
         [number' [gap' [unit' [gap2' [ago' [u' H']]]]]] E.
  destruct H as [-> [[_ Hn] [Hg [Hu [Hc [Hg2 Ha]]]]]].
  destruct H' as [-> [[_ Hn'] [Hg' [Hu' [Hc' [Hg2' Ha']]]]]].
  rewrite <- !app_assoc in E.
  apply (run_determined (P := Wording.digit)) in E;
    [|exact Hn | exact Hn'
     | intros x t Ex;
       exact (@after_number gap unit gap2 ago u post x t Hg Hu Hc Ex)
     | intros x t Ex;
       exact (@after_number gap' unit' gap2' ago' u' post' x t
                            Hg' Hu' Hc' Ex)].
  destruct E as [<- E].
  apply (run_determined (P := Wording.whiteSpace)) in E;
    [|exact Hg | exact Hg'
     | intros x t Ex; exact (@after_gap unit gap2 ago u post x t Hu Hc Ex)
     | intros x t Ex;
       exact (@after_gap unit' gap2' ago' u' post' x t Hu' Hc' Ex)].
  destruct E as [<- E].
  pose proof (@unit_not_longer u u' unit unit' gap2 gap2' ago ago' post post'
                               Hu Hc Hu' Hc' Hg2 Ha E) as L1.
  pose proof (@unit_not_longer u' u unit' unit gap2' gap2 ago' ago post' post
                               Hu' Hc' Hu Hc Hg2' Ha' (eq_sym E)) as L2.
  apply same_start in E; [|lia]. destruct E as [<- E].
  apply (run_determined (P := Wording.whiteSpace)) in E;
    [|exact Hg2 | exact Hg2'
     | intros x t Ex; exact (@before_ago ago post x t Ha Ex)
     | intros x t Ex; exact (@before_ago ago' post' x t Ha' Ex)].
  destruct E as [<- E].
  apply same_start in E.
  - now destruct E as [<- _].
  - transitivity (length (lit "ago"));
      [symmetry; exact (Forall2_length Ha) | exact (Forall2_length Ha')].
Qed.

(** The elapsed-time rule holds of one value. *)
Lemma elapsedTime_determined (fields : list jsstring)
      (value value' : jsstring) :
  Wording.elapsedTime units fields value ->
  Wording.elapsedTime units fields value' ->
  value = value'.
Proof.
  intros [[Hn ->] | [field [Hf Hr]]] [[Hm ->] | [field' [Hf' Hr']]];
    try reflexivity; try found_and_missing.
  rewrite (firstWith_determined Hf' Hf) in Hr'.
  destruct Hr as [A | [N [rest [Hd Ht]]]],
           Hr' as [B | [M [rest' [Hd' Ht']]]];
    try found_and_missing.
  - apply (@firstMatch_determined Wording.nothing (Wording.elapsed units)
                                  field value value' nothing_determined);
      [|exact A | exact B].
    intros w w' post post'. apply elapsed_determined.
  - assert (Er : rest = rest').
    { destruct Hd as [Hd | [Hd Hno]], Hd' as [Hd' | [Hd' Hno']];
        try congruence; exfalso;
        first [exact (Hno' _ Hd) | exact (Hno _ Hd')]. }
    subst rest'.
    now rewrite (trimmed_is_trim Ht), (trimmed_is_trim Ht').
Qed.

End Units.

(** The clean-up of a segment gives one field. *)
Lemma cleanedUp_determined (segment field field' : jsstring) :
  Wording.cleanedUp segment field -> Wording.cleanedUp segment field' ->
  field = field'.
Proof.
  intros [t [u [Ht [Hu Hf]]]] [t' [u' [Ht' [Hu' Hf']]]].
  rewrite (trimmed_is_trim Ht) in Hu.
  rewrite (trimmed_is_trim Ht') in Hu'.
  assert (Eu : u = u').
  { destruct Hu as [Hu | [Hu Hno]], Hu' as [Hu' | [Hu' Hno']];
      try congruence; exfalso;
      first [exact (Hno' _ Hu) | exact (Hno _ Hu')]. }
  subst u'.
  destruct Hf as [Hf | [Hf Hno]], Hf' as [Hf' | [Hf' Hno']];
    try congruence;
    first [ rewrite Hf in Hf'; now apply app_inv_tail in Hf'
          | exfalso; exact (Hno' _ Hf)
          | exfalso; exact (Hno _ Hf') ].
Qed.

End Determined.

(** The two lists of units are plain, so each version of the
    elapsed-time rule holds of one value. *)
Section UnitLists.

Lemma timeAgo_determined (fields : list jsstring) (value value' : jsstring) :
  Wording.elapsedTime Wording.hoursAndMinutes fields value ->
  Wording.elapsedTime Wording.hoursAndMinutes fields value' ->
  value = value'.
Proof.
  apply (@elapsedTime_determined Wording.hoursAndMinutes). reflexivity.
Qed.

Lemma simple_timeAgo_determined (fields : list jsstring)
      (value value' : jsstring) :
  Wording.elapsedTime Wording.hoursOnly fields value ->
  Wording.elapsedTime Wording.hoursOnly fields value' ->
  value = value'.
Proof. apply (@elapsedTime_determined Wording.hoursOnly). reflexivity. Qed.

End UnitLists.
